(** * MeshPlaneModel: the image plane of the mesh generator step

    A shallow embedding of
    [mapclientplugins/meshgeneratorstep/model/meshplanemodel.py]
    and the properties its specification states about it.

    - Python numbers are embedded with their own arithmetic: [int] as [Z],
      [float] as the kernel's binary64 numbers, the mixed operators with
      the conversions and the exceptions CPython performs.
    - The frame/time functions are written once over an arithmetic
      interface and read both in Python's arithmetic and in exact rational
      arithmetic.
    - The Zinc region, field module and scene the model drives are
      external; they are embedded as the small state their calls act on. *)

From Stdlib Require Import ZArith List Bool Lia String Ascii.
From Stdlib Require Import QArith Qfield Qround Floats.
From Stdlib Require Import Permutation Sorted.
From Stdlib Require Import Reals Lra.
Import ListNotations.
Local Open Scope Z_scope.

Set Implicit Arguments.

(* ================================================================== *)
(** * Exceptions and results *)
(* ================================================================== *)

(** The exceptions the embedded code can raise, and the error kinds the
    specification names without the code ever raising them. *)
Inductive exn : Type :=
| ZeroDivisionError
| OverflowError
| ValueError
| IndexError
| AttributeError
| OSError
| InvalidStateError
| ArityError
| ImageLoadError.

Inductive result (A : Type) : Type :=
| Ok (a : A)
| Raise (e : exn).
Arguments Ok {A} a.
Arguments Raise {A} e.

Definition rbind {A B : Type} (r : result A) (k : A -> result B) : result B :=
  match r with
  | Ok a => k a
  | Raise e => Raise e
  end.

Declare Scope py_scope.
Delimit Scope py_scope with py.
Notation "x <- c ;; k" := (rbind c (fun x => k))
  (at level 61, c at next level, right associativity) : py_scope.

Definition succeeds {A : Type} (r : result A) : Prop :=
  exists a, r = Ok a.

(* ================================================================== *)
(** * Python numbers *)
(* ================================================================== *)

(** ** binary64 with the conversions of CPython *)
Module PyFloat.

(** [float(z)]: the nearest binary64 number, ties to even. *)
Definition of_Z_round (z : Z) : float :=
  SF2Prim (binary_normalize prec emax z 0 false).

(** The implicit conversion of an [int] operand of a mixed operator:
    [OverflowError] when the integer is beyond the range of a float. *)
Definition float_of_int (z : Z) : result float :=
  let f := of_Z_round z in
  if is_infinity f then Raise OverflowError else Ok f.

(** [a / b] on two [int]s: the correctly rounded quotient.  The quotient
    is taken with at least 64 significant bits and a sticky bit for the
    remainder, then rounded once. *)
Definition int_truediv (a b : Z) : result float :=
  if b =? 0 then Raise ZeroDivisionError else
  let negate := xorb (a <? 0) (b <? 0) in
  if a =? 0 then Ok (if negate then neg_zero else zero) else
  let k := Z.max 0 (Z.log2 (Z.abs b) - Z.log2 (Z.abs a) + 64) in
  let q := (Z.abs a * 2 ^ k) / Z.abs b in
  let r := (Z.abs a * 2 ^ k) mod Z.abs b in
  let m := 2 * q + (if r =? 0 then 0 else 1) in
  let f := SF2Prim (binary_normalize prec emax m (- k - 1) false) in
  if is_infinity f then Raise OverflowError
  else Ok (if negate then (- f)%float else f).

(** [x / y] on two [float]s. *)
Definition float_truediv (x y : float) : result float :=
  if (y =? 0)%float then Raise ZeroDivisionError else Ok (x / y)%float.

(** Truncation toward zero of a finite float. *)
Definition trunc (x : float) : Z :=
  match Prim2SF x with
  | S754_finite s m e =>
      let a := if 0 <=? e then Z.shiftl (Zpos m) e
               else Z.shiftr (Zpos m) (- e) in
      if s then - a else a
  | _ => 0
  end.

(** [int(x)] on a [float]. *)
Definition int_of_float (x : float) : result Z :=
  if is_nan x then Raise ValueError
  else if is_infinity x then Raise OverflowError
  else Ok (trunc x).

End PyFloat.

(** ** The two numeric types and their operators *)
Inductive pynum : Type :=
| PyInt (z : Z)
| PyFloat (f : float).

Module PyNum.
Import PyFloat.
Local Open Scope py_scope.

Definition to_float (x : pynum) : result float :=
  match x with
  | PyInt z => float_of_int z
  | PyFloat f => Ok f
  end.

Definition truediv (x y : pynum) : result pynum :=
  match x, y with
  | PyInt a, PyInt b => f <- int_truediv a b ;; Ok (PyFloat f)
  | _, _ =>
      a <- to_float x ;;
      b <- to_float y ;;
      f <- float_truediv a b ;;
      Ok (PyFloat f)
  end.

Definition binop (fz : Z -> Z -> Z) (ff : float -> float -> float)
  (x y : pynum) : result pynum :=
  match x, y with
  | PyInt a, PyInt b => Ok (PyInt (fz a b))
  | _, _ =>
      a <- to_float x ;;
      b <- to_float y ;;
      Ok (PyFloat (ff a b))
  end.

Definition mul := binop Z.mul PrimFloat.mul.
Definition add := binop Z.add PrimFloat.add.
Definition sub := binop Z.sub PrimFloat.sub.

(** [int(x)] *)
Definition to_int (x : pynum) : result Z :=
  match x with
  | PyInt z => Ok z
  | PyFloat f => int_of_float f
  end.

End PyNum.

(** ** The arithmetic the frame/time functions use *)
Class PyArith (num : Type) : Type := {
  of_int : Z -> num;                      (* an [int] value *)
  lit_half : num;                         (* the literal [0.5] *)
  truediv : num -> num -> result num;     (* [x / y] *)
  mul : num -> num -> result num;         (* [x * y] *)
  add : num -> num -> result num;         (* [x + y] *)
  sub : num -> num -> result num;         (* [x - y] *)
  to_int : num -> result Z                (* [int(x)] *)
}.

(** Python's own arithmetic. *)
#[export] Instance python_arith : PyArith pynum := {
  of_int := PyInt;
  lit_half := PyFloat 0.5%float;
  truediv := PyNum.truediv;
  mul := PyNum.mul;
  add := PyNum.add;
  sub := PyNum.sub;
  to_int := PyNum.to_int
}.

(** Exact arithmetic on rationals: the same operators without rounding,
    overflow or non-numbers; division by zero still raises. *)
Module Exact.

Definition truediv (x y : Q) : result Q :=
  if Qeq_bool y 0 then Raise ZeroDivisionError else Ok (x / y)%Q.

Definition to_int (x : Q) : result Z :=
  Ok (Z.quot (Qnum x) (Zpos (Qden x))).

End Exact.

#[export] Instance exact_arith : PyArith Q := {
  of_int := inject_Z;
  lit_half := (1 # 2)%Q;
  truediv := Exact.truediv;
  mul := fun x y => Ok (x * y)%Q;
  add := fun x y => Ok (x + y)%Q;
  sub := fun x y => Ok (x - y)%Q;
  to_int := Exact.to_int
}.

(* ================================================================== *)
(** * Frame index and time *)
(* ================================================================== *)

Section FrameTime.
Context {num : Type} {A : PyArith num}.
Local Open Scope py_scope.

(** [getTimeForFrameIndex(self, index, frames_per_second)], with
    [frame_count] the value of [self._frame_count]. *)
Definition getTimeForFrameIndex (frame_count : Z) (index frames_per_second : num)
  : result num :=
  duration <- truediv (of_int frame_count) frames_per_second ;;
  frame_separation <- truediv (of_int 1) (of_int frame_count) ;;
  initial_offset <- truediv frame_separation (of_int 2) ;;
  a <- mul index frame_separation ;;
  b <- add a initial_offset ;;
  mul b duration.

(** [getFrameIndexForTime(self, time, frames_per_second)] *)
Definition getFrameIndexForTime (frame_count : Z) (time frames_per_second : num)
  : result Z :=
  duration <- truediv (of_int frame_count) frames_per_second ;;
  frame_separation <- truediv (of_int 1) (of_int frame_count) ;;
  initial_offset <- truediv frame_separation (of_int 2) ;;
  a <- truediv time duration ;;
  b <- sub a initial_offset ;;
  c <- truediv b frame_separation ;;
  d <- add c lit_half ;;
  to_int d.

(** The composition the round-trip property is about. *)
Definition frame_round_trip (frame_count : Z) (index frames_per_second : num)
  : result Z :=
  t <- getTimeForFrameIndex frame_count index frames_per_second ;;
  getFrameIndexForTime frame_count t frames_per_second.

End FrameTime.

(* ================================================================== *)
(** * Natural ordering of file names *)
(* ================================================================== *)

(** A chunk of a key: text, or the value of a run of digits. *)
Inductive chunk : Type :=
| CStr (s : string)
| CInt (n : Z).

Definition is_digit (c : ascii) : bool :=
  let n := N_of_ascii c in
  (N.leb 48 n && N.leb n 57)%bool.

Definition digit_value (c : ascii) : Z :=
  Z.of_N (N_of_ascii c) - 48.

(** [re.split('([0-9]+)', s)]: the text before the first run of digits,
    then alternately a run of digits and the text after it; [acc] is the
    chunk being read and [in_digits] tells which kind it is. *)
Fixpoint split_digits (in_digits : bool) (acc s : string) : list string :=
  match s with
  | EmptyString => if in_digits then [acc; EmptyString] else [acc]
  | String c s' =>
      if is_digit c then
        if in_digits then split_digits true (acc ++ String c EmptyString) s'
        else acc :: split_digits true (String c EmptyString) s'
      else
        if in_digits then acc :: split_digits false (String c EmptyString) s'
        else split_digits false (acc ++ String c EmptyString) s'
  end.

Definition re_split_digits (s : string) : list string :=
  split_digits false EmptyString s.

(** The value of a string of decimal digits, read from the left. *)
Fixpoint digits_value (acc : Z) (s : string) : option Z :=
  match s with
  | EmptyString => Some acc
  | String c s' =>
      if is_digit c then digits_value (10 * acc + digit_value c) s'
      else None
  end.

(** [int(s)] on a chunk.  [int] also accepts white space around the
    number, a sign and underscores between digits, but every accepted
    string holds a digit, and a chunk of [re_split_digits] is a run of
    digits or holds none: on chunks, [int] succeeds exactly on the
    non-empty runs of digits. *)
Definition int_of_chunk (s : string) : option Z :=
  match s with
  | EmptyString => None
  | _ => digits_value 0 s
  end.

Definition tryint (s : string) : chunk :=
  match int_of_chunk s with
  | Some n => CInt n
  | None => CStr s
  end.

Definition alphanum_key (s : string) : list chunk :=
  map tryint (re_split_digits s).

(** Comparison of two chunks: numbers by value, text by code points.
    Keys alternate text and number from a text chunk on, so two keys are
    only ever compared chunk against chunk of the same kind; a number is
    placed before text to make the comparison total. *)
Definition chunk_compare (a b : chunk) : comparison :=
  match a, b with
  | CInt x, CInt y => Z.compare x y
  | CStr x, CStr y => String.compare x y
  | CInt _, CStr _ => Lt
  | CStr _, CInt _ => Gt
  end.

(** Comparison of two lists, as Python compares sequences: at the first
    position where they differ, or the shorter one first. *)
Fixpoint lex_compare {A : Type} (cmp : A -> A -> comparison) (k1 k2 : list A)
  : comparison :=
  match k1, k2 with
  | [], [] => Eq
  | [], _ :: _ => Lt
  | _ :: _, [] => Gt
  | a :: k1', b :: k2' =>
      match cmp a b with
      | Eq => lex_compare cmp k1' k2'
      | c => c
      end
  end.

Definition key_compare : list chunk -> list chunk -> comparison :=
  lex_compare chunk_compare.

Definition key_ltb (k1 k2 : list chunk) : bool :=
  match key_compare k1 k2 with Lt => true | _ => false end.

Definition key_leb (k1 k2 : list chunk) : bool :=
  match key_compare k1 k2 with Gt => false | _ => true end.

(** [sorted(names, key=key)]: Python's sort is stable and compares keys
    with [<] only; on a total preorder its result is the one of a stable
    insertion sort. *)
Section Sorted.
Variables (A K : Type) (key : A -> K) (ltb : K -> K -> bool).

Fixpoint insert_by (x : A) (l : list A) : list A :=
  match l with
  | [] => [x]
  | y :: l' =>
      if ltb (key y) (key x) then y :: insert_by x l'
      else x :: l
  end.

Fixpoint sorted_by (l : list A) : list A :=
  match l with
  | [] => []
  | x :: l' => insert_by x (sorted_by l')
  end.

End Sorted.

Definition natural_sorted (names : list string) : list string :=
  sorted_by alphanum_key key_ltb names.

(** A name sorts before (or with) another. *)
Definition natural_le (a b : string) : Prop :=
  key_leb (alphanum_key a) (alphanum_key b) = true.

(* ================================================================== *)
(** * Coordinates *)
(* ================================================================== *)

(** The arithmetic of coordinates: numpy's and [vectorops]' operators on
    floats.  [sis_zero] is the test behind Python's [ZeroDivisionError]. *)
Class Scalar (F : Type) : Type := {
  sof_int : Z -> F;
  sadd : F -> F -> F;
  ssub : F -> F -> F;
  smul : F -> F -> F;
  sdiv : F -> F -> F;
  sopp : F -> F;
  ssqrt : F -> F;
  shalf : F;                    (* the literal [0.5] *)
  sis_zero : F -> bool
}.

(** binary64, the arithmetic the code runs on.  An image dimension is far
    below the range of a float, so its conversion cannot overflow. *)
#[export] Instance float_scalar : Scalar float := {
  sof_int := PyFloat.of_Z_round;
  sadd := PrimFloat.add;
  ssub := PrimFloat.sub;
  smul := PrimFloat.mul;
  sdiv := PrimFloat.div;
  sopp := PrimFloat.opp;
  ssqrt := PrimFloat.sqrt;
  shalf := 0.5%float;
  sis_zero := fun x => (x =? 0)%float
}.


(** A position: the three components [evaluateReal(cache, 3)] returns. *)
Record vec3 (F : Type) : Type := Vec3 { vx : F; vy : F; vz : F }.
Arguments Vec3 {F} vx vy vz.
Arguments vx {F} v.
Arguments vy {F} v.
Arguments vz {F} v.

(** Modelled from the spec: [opencmiss.utils.maths.vectorops] ([sub],
    [cross], [normalize]) and [numpy.mean], external libraries the model
    calls; section 4.1 of the specification names the operations. *)
Module vectorops.
Section Ops.
Context {F : Type} {S : Scalar F}.

Definition add (u v : vec3 F) : vec3 F :=
  Vec3 (sadd (vx u) (vx v)) (sadd (vy u) (vy v)) (sadd (vz u) (vz v)).

Definition sub (u v : vec3 F) : vec3 F :=
  Vec3 (ssub (vx u) (vx v)) (ssub (vy u) (vy v)) (ssub (vz u) (vz v)).

Definition dot (u v : vec3 F) : F :=
  sadd (sadd (smul (vx u) (vx v)) (smul (vy u) (vy v))) (smul (vz u) (vz v)).

Definition cross (u v : vec3 F) : vec3 F :=
  Vec3 (ssub (smul (vy u) (vz v)) (smul (vz u) (vy v)))
       (ssub (smul (vz u) (vx v)) (smul (vx u) (vz v)))
       (ssub (smul (vx u) (vy v)) (smul (vy u) (vx v))).

Definition magnitude (v : vec3 F) : F :=
  ssqrt (dot v v).

Definition div (v : vec3 F) (c : F) : result (vec3 F) :=
  if sis_zero c then Raise ZeroDivisionError
  else Ok (Vec3 (sdiv (vx v) c) (sdiv (vy v) c) (sdiv (vz v) c)).

Definition normalize (v : vec3 F) : result (vec3 F) :=
  div v (magnitude v).

(** [numpy.mean(rows, axis=0).tolist()]: the rows added up in order and
    divided by their number (the quotient of zeros for no row). *)
Definition mean (rows : list (vec3 F)) : vec3 F :=
  let n := sof_int (Z.of_nat (List.length rows)) in
  let total :=
    match rows with
    | [] => Vec3 (sof_int 0) (sof_int 0) (sof_int 0)
    | r :: rs => fold_left add rs r
    end in
  Vec3 (sdiv (vx total) n) (sdiv (vy total) n) (sdiv (vz total) n).

End Ops.
End vectorops.

(* ================================================================== *)
(** * The Zinc objects the model drives *)
(* ================================================================== *)

(** The fields the model creates, named after the attribute that holds
    them. *)
Inductive field_ref : Type :=
| ModelCoordinateField
| ModelScaleField
| ScaledCoordinateField
| FixedProjectionField
| FixedCoordinateField
| TextureField.

Inductive material : Type :=
| Silver
| ImageMaterial (images : list string).

Inductive graphics_kind : Type := Lines | Surfaces.

Record Graphics : Type := {
  gr_kind : graphics_kind;
  gr_name : string;
  gr_exterior : bool;
  gr_coordinate_field : option field_ref;
  gr_texture_coordinate_field : option field_ref;
  gr_material : option material
}.

Record Scene : Type := {
  graphics : list Graphics;
  visibility_flag : bool;
  scene_open_changes : Z        (* [beginChange] calls not yet ended *)
}.

Record Region (F : Type) : Type := {
  region_id : nat;
  node_coordinates : list (vec3 F);   (* the 'coordinates' field, node by node *)
  fm_open_changes : Z;                (* [beginChange] calls not yet ended *)
  scene : Scene
}.
Arguments region_id {F} r.
Arguments node_coordinates {F} r.
Arguments fm_open_changes {F} r.
Arguments scene {F} r.

Definition new_graphics (k : graphics_kind) : Graphics :=
  {| gr_kind := k; gr_name := EmptyString; gr_exterior := false;
     gr_coordinate_field := None; gr_texture_coordinate_field := None;
     gr_material := None |}.

Definition setName (n : string) (g : Graphics) : Graphics :=
  {| gr_kind := gr_kind g; gr_name := n; gr_exterior := gr_exterior g;
     gr_coordinate_field := gr_coordinate_field g;
     gr_texture_coordinate_field := gr_texture_coordinate_field g;
     gr_material := gr_material g |}.

Definition setExterior (b : bool) (g : Graphics) : Graphics :=
  {| gr_kind := gr_kind g; gr_name := gr_name g; gr_exterior := b;
     gr_coordinate_field := gr_coordinate_field g;
     gr_texture_coordinate_field := gr_texture_coordinate_field g;
     gr_material := gr_material g |}.

Definition setCoordinateField (f : field_ref) (g : Graphics) : Graphics :=
  {| gr_kind := gr_kind g; gr_name := gr_name g; gr_exterior := gr_exterior g;
     gr_coordinate_field := Some f;
     gr_texture_coordinate_field := gr_texture_coordinate_field g;
     gr_material := gr_material g |}.

Definition setTextureCoordinateField (f : field_ref) (g : Graphics) : Graphics :=
  {| gr_kind := gr_kind g; gr_name := gr_name g; gr_exterior := gr_exterior g;
     gr_coordinate_field := gr_coordinate_field g;
     gr_texture_coordinate_field := Some f;
     gr_material := gr_material g |}.

Definition setMaterial (m : material) (g : Graphics) : Graphics :=
  {| gr_kind := gr_kind g; gr_name := gr_name g; gr_exterior := gr_exterior g;
     gr_coordinate_field := gr_coordinate_field g;
     gr_texture_coordinate_field := gr_texture_coordinate_field g;
     gr_material := Some m |}.

(** [scene.findGraphicsByName(name)]: the first graphics of that name;
    [None] stands for the invalid handle Zinc returns when there is none. *)
Definition findGraphicsByName (name : string) (sc : Scene) : option Graphics :=
  find (fun g => String.eqb (gr_name g) name) (graphics sc).

(** A setter called through the handle [findGraphicsByName] returned: it
    acts on that graphics of the scene, and on nothing for the invalid
    handle. *)
Fixpoint update_named (name : string) (f : Graphics -> Graphics)
  (gs : list Graphics) : list Graphics :=
  match gs with
  | [] => []
  | g :: gs' =>
      if String.eqb (gr_name g) name then f g :: gs'
      else g :: update_named name f gs'
  end.

Definition scene_with_graphics (gs : list Graphics) (sc : Scene) : Scene :=
  {| graphics := gs; visibility_flag := visibility_flag sc;
     scene_open_changes := scene_open_changes sc |}.

Definition scene_setVisibilityFlag (b : bool) (sc : Scene) : Scene :=
  {| graphics := graphics sc; visibility_flag := b;
     scene_open_changes := scene_open_changes sc |}.

Definition scene_change (d : Z) (sc : Scene) : Scene :=
  {| graphics := graphics sc; visibility_flag := visibility_flag sc;
     scene_open_changes := scene_open_changes sc + d |}.

Definition empty_scene : Scene :=
  {| graphics := []; visibility_flag := true; scene_open_changes := 0 |}.

(** The region the model is given at construction: the children it holds,
    by identity, and the identity its next child gets. *)
Record ParentRegion : Type := {
  children : list nat;
  next_region_id : nat
}.

(** The files the model looks at. *)
Record FileSystem : Type := {
  isdir : string -> bool;                  (* [os.path.isdir] *)
  path_exists : string -> bool;            (* [os.path.exists] *)
  listdir : string -> list string;         (* [os.listdir] *)
  imghdr_what : string -> result bool;     (* [imghdr.what] finds a type *)
  get_image_size : string -> Z * Z         (* width and height, [-1] unknown *)
}.

(** [os.path.join(location, item)] *)
Definition path_join (location item : string) : string :=
  match item with
  | String "/" _ => item
  | _ =>
      match location with
      | EmptyString => item
      | _ =>
          match get (String.length location - 1) location with
          | Some "/"%char => location ++ item
          | _ => location ++ "/" ++ item
          end
      end
  end%string.

(** Modelled from the spec: [MeshAlignmentModel] and [FixCoordinatesMixin],
    the two base classes of the model (sections 2, 4.4 and 6): a state of
    their own, the transformation between stored and scene positions in
    both directions, and the two refresh operations the display mode
    switch calls. *)
Class AlignmentAdapter (F : Type) : Type := {
  align_state : Type;
  _getSceneTransformationFromAdjustedPosition : align_state -> vec3 F -> vec3 F;
  _getSceneTransformationToAdjustedPosition : align_state -> vec3 F -> vec3 F;
  _updateFixedProjectionField : align_state -> align_state;
  _updateAlignmentValues : align_state -> align_state
}.

(** The adapter of an alignment that was never edited. *)
Definition identity_adapter (F : Type) : AlignmentAdapter F := {|
  align_state := unit;
  _getSceneTransformationFromAdjustedPosition := fun _ p => p;
  _getSceneTransformationToAdjustedPosition := fun _ p => p;
  _updateFixedProjectionField := fun a => a;
  _updateAlignmentValues := fun a => a
|}.

(* ================================================================== *)
(** * MeshPlaneModel *)
(* ================================================================== *)

Section Model.
Context {F : Type} {S : Scalar F} {AA : AlignmentAdapter F}.

(** The attributes of the object.  [self._scene] is assigned in [_reset]
    only, as the scene of the region assigned just before it: it is kept
    as a view of [_region].  Modelled from the spec: before the first
    [_reset] the base class holds [None] in [_scene] ("no scene yet
    exists", section 4.4). *)
Record MeshPlaneModel : Type := {
  _frame_count : Z;
  _parent_region : ParentRegion;
  _region : option (Region F);
  _timekeeper : bool;                 (* the default timekeeper was fetched *)
  display_image_plane : bool;         (* [_settings['display-image-plane']] *)
  image_plane_fixed : bool;           (* [_settings['image-plane-fixed']] *)
  _alignment : align_state
}.

Definition _scene (m : MeshPlaneModel) : option Scene :=
  option_map scene (_region m).

(** [MeshPlaneModel(region)] *)
Definition init (parent : ParentRegion) (a : align_state) : MeshPlaneModel :=
  {| _frame_count := 0; _parent_region := parent; _region := None;
     _timekeeper := false; display_image_plane := true;
     image_plane_fixed := false; _alignment := a |}.

(** ** Methods as state transformers that may raise *)
Definition M (A : Type) : Type := MeshPlaneModel -> result A * MeshPlaneModel.

Definition ret {A : Type} (a : A) : M A := fun m => (Ok a, m).

Definition raise {A : Type} (e : exn) : M A := fun m => (Raise e, m).

Definition bind {A B : Type} (c : M A) (k : A -> M B) : M B :=
  fun m =>
    match c m with
    | (Ok a, m') => k a m'
    | (Raise e, m') => (Raise e, m')
    end.

Definition gets {A : Type} (f : MeshPlaneModel -> A) : M A :=
  fun m => (Ok (f m), m).

Definition modify (f : MeshPlaneModel -> MeshPlaneModel) : M unit :=
  fun m => (Ok tt, f m).

Definition lift {A : Type} (r : result A) : M A :=
  fun m => (r, m).

Declare Scope model_scope.
Delimit Scope model_scope with model.
Notation "x <- c ;; k" := (bind c (fun x => k))
  (at level 61, c at next level, right associativity) : model_scope.
Notation "c ;; k" := (bind c (fun _ => k))
  (at level 61, right associativity) : model_scope.
Local Open Scope model_scope.

(** ** Attribute updates *)
Definition set_frame_count (n : Z) (m : MeshPlaneModel) : MeshPlaneModel :=
  {| _frame_count := n; _parent_region := _parent_region m;
     _region := _region m; _timekeeper := _timekeeper m;
     display_image_plane := display_image_plane m;
     image_plane_fixed := image_plane_fixed m; _alignment := _alignment m |}.

Definition set_parent_region (p : ParentRegion) (m : MeshPlaneModel) : MeshPlaneModel :=
  {| _frame_count := _frame_count m; _parent_region := p;
     _region := _region m; _timekeeper := _timekeeper m;
     display_image_plane := display_image_plane m;
     image_plane_fixed := image_plane_fixed m; _alignment := _alignment m |}.

Definition set_region (r : option (Region F)) (m : MeshPlaneModel) : MeshPlaneModel :=
  {| _frame_count := _frame_count m; _parent_region := _parent_region m;
     _region := r; _timekeeper := _timekeeper m;
     display_image_plane := display_image_plane m;
     image_plane_fixed := image_plane_fixed m; _alignment := _alignment m |}.

Definition set_timekeeper (t : bool) (m : MeshPlaneModel) : MeshPlaneModel :=
  {| _frame_count := _frame_count m; _parent_region := _parent_region m;
     _region := _region m; _timekeeper := t;
     display_image_plane := display_image_plane m;
     image_plane_fixed := image_plane_fixed m; _alignment := _alignment m |}.

Definition set_display_image_plane (b : bool) (m : MeshPlaneModel) : MeshPlaneModel :=
  {| _frame_count := _frame_count m; _parent_region := _parent_region m;
     _region := _region m; _timekeeper := _timekeeper m;
     display_image_plane := b;
     image_plane_fixed := image_plane_fixed m; _alignment := _alignment m |}.

Definition set_image_plane_fixed (b : bool) (m : MeshPlaneModel) : MeshPlaneModel :=
  {| _frame_count := _frame_count m; _parent_region := _parent_region m;
     _region := _region m; _timekeeper := _timekeeper m;
     display_image_plane := display_image_plane m;
     image_plane_fixed := b; _alignment := _alignment m |}.

Definition set_alignment (a : align_state) (m : MeshPlaneModel) : MeshPlaneModel :=
  {| _frame_count := _frame_count m; _parent_region := _parent_region m;
     _region := _region m; _timekeeper := _timekeeper m;
     display_image_plane := display_image_plane m;
     image_plane_fixed := image_plane_fixed m; _alignment := a |}.

Definition region_with_nodes (ns : list (vec3 F)) (r : Region F) : Region F :=
  {| region_id := region_id r; node_coordinates := ns;
     fm_open_changes := fm_open_changes r; scene := scene r |}.

Definition region_fm_change (d : Z) (r : Region F) : Region F :=
  {| region_id := region_id r; node_coordinates := node_coordinates r;
     fm_open_changes := fm_open_changes r + d; scene := scene r |}.

Definition region_with_scene (sc : Scene) (r : Region F) : Region F :=
  {| region_id := region_id r; node_coordinates := node_coordinates r;
     fm_open_changes := fm_open_changes r; scene := sc |}.

(** [self._region], for a method call on it: [None] has no methods. *)
Definition the_region : M (Region F) :=
  fun m =>
    match _region m with
    | Some r => (Ok r, m)
    | None => (Raise AttributeError, m)
    end.

Definition update_region (f : Region F -> Region F) : M unit :=
  r <- the_region ;; modify (set_region (Some (f r))).

Definition update_scene (f : Scene -> Scene) : M unit :=
  update_region (fun r => region_with_scene (f (scene r)) r).

(** [fm.beginChange()] and [fm.endChange()] on the region's field module. *)
Definition fm_beginChange : M unit := update_region (region_fm_change 1).
Definition fm_endChange : M unit := update_region (region_fm_change (-1)).

(** ** Simple accessors *)
Definition getFrameCount (m : MeshPlaneModel) : Z := _frame_count m.
Definition isImagePlaneFixed (m : MeshPlaneModel) : bool := image_plane_fixed m.
Definition isDisplayImagePlane (m : MeshPlaneModel) : bool := display_image_plane m.

(** ** Node coordinate access *)

(** The loop of [getNodeLocations] over the nodes still to visit. *)
Fixpoint read_nodes (nodes : list (vec3 F)) (node_positions : list (vec3 F))
  : M (list (vec3 F)) :=
  match nodes with
  | [] => ret node_positions
  | position :: rest =>
      a <- gets _alignment ;;
      read_nodes rest
        (node_positions ++ [_getSceneTransformationFromAdjustedPosition a position])
  end.

Definition getNodeLocations : M (list (vec3 F)) :=
  fm_beginChange ;;
  r <- the_region ;;
  node_positions <- read_nodes (node_coordinates r) [] ;;
  fm_endChange ;;
  ret node_positions.

(** [list.__setitem__] on the stored coordinates of the node at [index]. *)
Fixpoint set_nth {A : Type} (index : nat) (v : A) (l : list A) : list A :=
  match l, index with
  | [], _ => []
  | _ :: l', O => v :: l'
  | x :: l', Datatypes.S i => x :: set_nth i v l'
  end.

(** [coordinates.assignReal(cache, values)] with the cache at node [index]. *)
Definition assignReal (index : nat) (values : vec3 F) : M unit :=
  update_region
    (fun r => region_with_nodes (set_nth index values (node_coordinates r)) r).

(** [node_positions[index]] *)
Definition getitem {A : Type} (l : list A) (index : nat) : M A :=
  match nth_error l index with
  | Some x => ret x
  | None => raise IndexError
  end.

(** The loop of [setNodeLocations]: [remaining] nodes are still to
    visit, the next one being the node at [index]. *)
Fixpoint write_nodes (remaining index : nat) (node_positions : list (vec3 F))
  : M unit :=
  match remaining with
  | O => ret tt
  | Datatypes.S remaining' =>
      p <- getitem node_positions index ;;
      a <- gets _alignment ;;
      assignReal index (_getSceneTransformationToAdjustedPosition a p) ;;
      write_nodes remaining' (index + 1) node_positions
  end.

Definition setNodeLocations (node_positions : list (vec3 F)) : M unit :=
  fm_beginChange ;;
  r <- the_region ;;
  write_nodes (List.length (node_coordinates r)) 0 node_positions ;;
  fm_endChange.

(** ** Plane orientation *)
Definition getPlaneInfo : M (vec3 F * vec3 F * vec3 F) :=
  node_locations <- getNodeLocations ;;
  n1 <- getitem node_locations 1 ;;
  n0 <- getitem node_locations 0 ;;
  let u1 := vectorops.sub n1 n0 in
  n2 <- getitem node_locations 2 ;;
  let u2 := vectorops.sub n2 n0 in
  let plane_centre := vectorops.mean node_locations in
  let c := vectorops.cross u1 u2 in
  normal <- lift (vectorops.normalize c) ;;
  up <- lift (vectorops.normalize u2) ;;
  ret (normal, up, plane_centre).

(** ** Building the region *)

(** The corners [createSquare2DFiniteElement] is given. *)
Definition square_corners : list (vec3 F) :=
  [ Vec3 (sopp shalf) (sopp shalf) (sof_int 0);
    Vec3 shalf (sopp shalf) (sof_int 0);
    Vec3 (sopp shalf) shalf (sof_int 0);
    Vec3 shalf shalf (sof_int 0) ].

Definition parent_removeChild (id : nat) (p : ParentRegion) : ParentRegion :=
  {| children := List.remove Nat.eq_dec id (children p);
     next_region_id := next_region_id p |}.

Definition parent_createChild (p : ParentRegion) : ParentRegion * Region F :=
  ({| children := children p ++ [next_region_id p];
      next_region_id := Datatypes.S (next_region_id p) |},
   {| region_id := next_region_id p; node_coordinates := [];
      fm_open_changes := 0; scene := empty_scene |}).

Definition _createModel : M unit :=
  update_region (region_with_nodes square_corners).

Definition _createGraphics : M unit :=
  update_scene (scene_change 1) ;;
  update_scene (scene_with_graphics []) ;;
  modify (set_timekeeper true) ;;
  let lines := new_graphics Lines in
  let lines := setExterior true lines in
  let lines := setName "plane-lines" lines in
  let lines := setCoordinateField ScaledCoordinateField lines in
  let surfaces := new_graphics Surfaces in
  let surfaces := setName "plane-surfaces" surfaces in
  let surfaces := setCoordinateField ScaledCoordinateField surfaces in
  let surfaces := setTextureCoordinateField TextureField surfaces in
  let surfaces := setMaterial Silver surfaces in
  update_scene (scene_with_graphics [lines; surfaces]) ;;
  display <- gets isDisplayImagePlane ;;
  update_scene (scene_setVisibilityFlag display) ;;
  update_scene (scene_change (-1)).

Definition _reset : M unit :=
  old <- gets _region ;;
  match old with
  | Some r => p <- gets _parent_region ;;
              modify (set_parent_region (parent_removeChild (region_id r) p))
  | None => ret tt
  end ;;
  p <- gets _parent_region ;;
  let (p', r) := parent_createChild p in
  modify (set_parent_region p') ;;
  modify (set_region (Some r)) ;;
  _createModel ;;
  _createGraphics.

(** ** Loading images *)

(** One row of [np.multiply(node_locations.T, np.tile(...))]: the
    components times [width/1000.0], [height/1000.0] and [1.0]. *)
Definition rescale (width height : Z) (p : vec3 F) : vec3 F :=
  Vec3 (smul (vx p) (sdiv (sof_int width) (sof_int 1000)))
       (smul (vy p) (sdiv (sof_int height) (sof_int 1000)))
       (smul (vz p) (sof_int 1)).

Definition _load_images (fs : FileSystem) (images : list string) : M unit :=
  _ <- the_region ;;
  modify (set_frame_count (Z.of_nat (List.length images))) ;;
  match images with
  | [] => ret tt
  | first :: _ =>
      let (width, height) := get_image_size fs first in
      (if (negb (width =? -1) || negb (height =? -1))%bool then
         node_locations <- getNodeLocations ;;
         match node_locations with
         | [] => raise ValueError      (* shapes (0,1) and (3,1) do not broadcast *)
         | _ => setNodeLocations (map (rescale width height) node_locations)
         end
       else ret tt) ;;
      update_scene (fun sc =>
        scene_with_graphics
          (update_named "plane-surfaces" (setMaterial (ImageMaterial images))
             (graphics sc)) sc)
  end.

(** The loop of [setImageInfo] over the sorted directory entries. *)
Fixpoint collect_images (fs : FileSystem) (location : string)
  (items : list string) (images : list string) : M (list string) :=
  match items with
  | [] => ret images
  | item :: rest =>
      let image_candidate := path_join location item in
      is_image <- lift (imghdr_what fs image_candidate) ;;
      collect_images fs location rest
        (if is_image then images ++ [image_candidate] else images)
  end.

(** [setImageInfo(self, image_info)]; [image_info] is [None] or an object
    whose [location()] is the given path. *)
Definition setImageInfo (fs : FileSystem) (image_info : option string) : M unit :=
  match image_info with
  | None => ret tt
  | Some location =>
      images <-
        (if isdir fs location then
           collect_images fs location (natural_sorted (listdir fs location)) []
         else if path_exists fs location then
           is_image <- lift (imghdr_what fs location) ;;
           ret (if is_image then [location] else [])
         else ret []) ;;
      _reset ;;
      _load_images fs images
  end.

(** ** Display settings *)
Definition setImagePlaneFixed (state : bool) : M unit :=
  modify (set_image_plane_fixed state) ;;
  sc <- gets _scene ;;
  match sc with
  | None => ret tt
  | Some sc =>
      let surface_graphics := findGraphicsByName "plane-surfaces" sc in
      match surface_graphics with
      | None => ret tt
      | Some _ =>
          if state then
            a <- gets _alignment ;;
            modify (set_alignment (_updateFixedProjectionField a)) ;;
            update_scene (fun sc => scene_with_graphics
              (update_named "plane-surfaces"
                 (setCoordinateField FixedCoordinateField) (graphics sc)) sc) ;;
            update_scene (fun sc => scene_with_graphics
              (update_named "plane-lines"
                 (setCoordinateField FixedCoordinateField) (graphics sc)) sc)
          else
            a <- gets _alignment ;;
            modify (set_alignment (_updateAlignmentValues a)) ;;
            update_scene (fun sc => scene_with_graphics
              (update_named "plane-surfaces"
                 (setCoordinateField ScaledCoordinateField) (graphics sc)) sc) ;;
            update_scene (fun sc => scene_with_graphics
              (update_named "plane-lines"
                 (setCoordinateField ScaledCoordinateField) (graphics sc)) sc)
      end
  end.

Definition setImagePlaneVisible (state : bool) : M unit :=
  modify (set_display_image_plane state) ;;
  sc <- gets _scene ;;
  match sc with
  | None => ret tt
  | Some _ => update_scene (scene_setVisibilityFlag state)
  end.

(** The coordinate field a named graphics of the scene is bound to. *)
Definition bound_coordinate_field (name : string) (m : MeshPlaneModel)
  : option field_ref :=
  match _scene m with
  | None => None
  | Some sc =>
      match findGraphicsByName name sc with
      | None => None
      | Some g => gr_coordinate_field g
      end
  end.

(** The stored coordinates of the nodes; none without a region. *)
Definition stored_nodes (m : MeshPlaneModel) : list (vec3 F) :=
  match _region m with
  | None => []
  | Some r => node_coordinates r
  end.

(** [beginChange] calls on the field module that were not ended. *)
Definition open_changes (m : MeshPlaneModel) : Z :=
  match _region m with
  | None => 0
  | Some r => fm_open_changes r
  end.

End Model.

Arguments MeshPlaneModel F {AA}.
Arguments M F {AA} A.

(* ================================================================== *)
(** * Definitions used by the statements *)
(* ================================================================== *)

(** What a comparison function must satisfy to order its type. *)
Record comparison_order {A : Type} (cmp : A -> A -> comparison) : Prop := {
  cmp_refl : forall a, cmp a a = Eq;
  cmp_eq : forall a b, cmp a b = Eq -> a = b;
  cmp_antisym : forall a b, cmp b a = CompOpp (cmp a b);
  cmp_lt_trans : forall a b c, cmp a b = Lt -> cmp b c = Lt -> cmp a c = Lt
}.

(** The shape of a key: text and numbers alternate. *)
Fixpoint alternating (text_first : bool) (k : list chunk) : Prop :=
  match k with
  | [] => True
  | CStr _ :: k' => text_first = true /\ alternating false k'
  | CInt _ :: k' => text_first = false /\ alternating true k'
  end.

Fixpoint all_chars (p : ascii -> bool) (s : string) : bool :=
  match s with
  | EmptyString => true
  | String c s' => (p c && all_chars p s')%bool
  end.

(* ================================================================== *)
(** * The real value of a binary64 number *)
(* ================================================================== *)

(** [2 ^ e], for any integer exponent. *)
Definition pw (e : Z) : R := powerRZ 2 e.

(** The value of the mantissa [m] at the exponent [e]. *)
Definition F2R (m e : Z) : R := (IZR m * pw e)%R.

Definition sgn (s : bool) : R := if s then (-1)%R else 1%R.

(** The value of a number of the specification; [0] for the infinities
    and the non-numbers, which the statements exclude. *)
Definition SF2R (x : spec_float) : R :=
  match x with
  | S754_finite s m e => (sgn s * F2R (Zpos m) e)%R
  | _ => 0%R
  end.

(** A normal number: a mantissa of 53 bits. *)
Definition sf_normal (x : spec_float) : Prop :=
  match x with
  | S754_finite s m e => Zpos (digits2_pos m) = 53 /\ -1074 <= e <= 971
  | _ => False
  end.

Definition sf_zero (x : spec_float) : Prop :=
  match x with
  | S754_zero _ => True
  | _ => False
  end.

(** [r] is [V] up to one rounding: a relative error of at most [2^-52]. *)
Definition close (r V : R) : Prop := (Rabs (r - V) <= pw (-52) * Rabs V)%R.

Definition B2R (x : float) : R := SF2R (Prim2SF x).
Definition fnormal (x : float) : Prop := sf_normal (Prim2SF x).
Definition fzero (x : float) : Prop := sf_zero (Prim2SF x).
Definition ffinite (x : float) : Prop := fzero x \/ fnormal x.

(** [2^-52] as a quotient, and the factors within [a] of [1]. *)
Definition E52 : R := (/ 4503599627370496)%R.
Definition near1 (a x : R) : Prop := (Rabs (x - 1) <= a)%R.

(** A positive normal number between [2^a] and [2^b]. *)
Definition rng (a b : Z) (x : float) : Prop :=
  fnormal x /\ (pw a <= B2R x <= pw b)%R.

(** The rates the round trip is proved for in Python's arithmetic: an
    [int] from 1 to [2^62], or a [float] from [2^-800] to [2^800]. *)
Definition rate_min : float := 0x1p-800%float.
Definition rate_max : float := 0x1p800%float.

Definition rate_in_range (fps : pynum) : bool :=
  match fps with
  | PyInt f => (0 <? f) && (f <=? 2 ^ 62)
  | PyFloat f => ((rate_min <=? f)%float && (f <=? rate_max)%float)%bool
  end.

Section Outcomes.
Context {F : Type} {S : Scalar F} {AA : AlignmentAdapter F}.

(** What the loop of [setNodeLocations] leaves in the nodes: each node
    takes the position of its rank, as long as there is one. *)
Fixpoint overwrite (a : align_state) (node_positions nodes : list (vec3 F))
  {struct nodes} : list (vec3 F) :=
  match nodes, node_positions with
  | _ :: nodes', p :: node_positions' =>
      _getSceneTransformationToAdjustedPosition a p
        :: overwrite a node_positions' nodes'
  | _, _ => nodes
  end.

(** The two graphics [_createGraphics] leaves in the scene. *)
Definition plane_lines : Graphics :=
  {| gr_kind := Lines; gr_name := "plane-lines"; gr_exterior := true;
     gr_coordinate_field := Some ScaledCoordinateField;
     gr_texture_coordinate_field := None; gr_material := None |}.

Definition plane_surfaces (mat : material) : Graphics :=
  {| gr_kind := Surfaces; gr_name := "plane-surfaces"; gr_exterior := false;
     gr_coordinate_field := Some ScaledCoordinateField;
     gr_texture_coordinate_field := Some TextureField;
     gr_material := Some mat |}.

(** The model [_reset] leaves: the former region is dropped from the
    parent, a new one holds the unit square and the two graphics. *)
Definition rebuilt (m : MeshPlaneModel F) : MeshPlaneModel F :=
  let p := _parent_region m in
  let kept :=
    match _region m with
    | Some r => List.remove Nat.eq_dec (region_id r) (children p)
    | None => children p
    end in
  {| _frame_count := _frame_count m;
     _parent_region :=
       {| children := kept ++ [next_region_id p];
          next_region_id := Datatypes.S (next_region_id p) |};
     _region :=
       Some {| region_id := next_region_id p;
               node_coordinates := square_corners;
               fm_open_changes := 0;
               scene := {| graphics := [plane_lines; plane_surfaces Silver];
                           visibility_flag := display_image_plane m;
                           scene_open_changes := 0 |} |};
     _timekeeper := true;
     display_image_plane := display_image_plane m;
     image_plane_fixed := image_plane_fixed m;
     _alignment := _alignment m |}.

(** The material of the plane's surface graphics. *)
Definition surface_material (m : MeshPlaneModel F) : option material :=
  match _scene m with
  | None => None
  | Some sc =>
      match findGraphicsByName "plane-surfaces" sc with
      | None => None
      | Some g => gr_material g
      end
  end.

End Outcomes.

(** ** A concrete model: binary64 coordinates, an alignment never edited *)
Definition example_files : FileSystem := {|
  isdir := fun p => String.eqb p "stack";
  path_exists := fun p => (String.eqb p "stack" || String.eqb p "notes.txt")%bool;
  listdir := fun p =>
    if String.eqb p "stack"
    then ["img10.png"; "img2.png"; "readme"; "img1.png"]%string
    else [];
  imghdr_what := fun p =>
    Ok (negb (String.eqb p "stack/readme" || String.eqb p "notes.txt"));
  get_image_size := fun _ => (2000, 1000)
|}.

Definition fresh_model : MeshPlaneModel float (AA := identity_adapter float) :=
  init (AA := identity_adapter float)
    {| children := []; next_region_id := 0 |} tt.

(** The model after [_reset]: the unit square, no image. *)
Definition reset_model : MeshPlaneModel float (AA := identity_adapter float) :=
  snd (_reset fresh_model).

(** The model after the images of the directory ["stack"] were loaded. *)
Definition loaded_model : MeshPlaneModel float (AA := identity_adapter float) :=
  snd (setImageInfo example_files (Some "stack"%string) fresh_model).

Definition three_positions : list (vec3 float) :=
  [Vec3 1 2 3; Vec3 4 5 6; Vec3 7 8 9]%float.

Definition five_positions : list (vec3 float) :=
  [Vec3 1 2 3; Vec3 4 5 6; Vec3 7 8 9; Vec3 1 1 1; Vec3 2 2 2]%float.


(* ================================================================== *)
(** * Python's comparison of keys *)
(* ================================================================== *)

(** [a == b] on two chunks: an [int] and a [str] are never equal. *)
Definition chunk_eqb (a b : chunk) : bool :=
  match a, b with
  | CInt x, CInt y => x =? y
  | CStr x, CStr y => String.eqb x y
  | _, _ => false
  end.

(** [a < b] on two chunks; [None] stands for the [TypeError] Python 3
    raises between an [int] and a [str]. *)
Definition chunk_lt (a b : chunk) : option bool :=
  match a, b with
  | CInt x, CInt y => Some (x <? y)
  | CStr x, CStr y =>
      Some (match String.compare x y with Lt => true | _ => false end)
  | _, _ => None
  end.

(** [k1 < k2] on two lists: the items at the first index where they are
    not equal decide, by [<]; without such an index the shorter list is
    the smaller. *)
Fixpoint list_lt (k1 k2 : list chunk) : option bool :=
  match k1, k2 with
  | [], [] => Some false
  | [], _ :: _ => Some true
  | _ :: _, [] => Some false
  | a :: k1', b :: k2' =>
      if chunk_eqb a b then list_lt k1' k2' else chunk_lt a b
  end.

(** The chunks of a split: text without a digit and non-empty runs of
    digits, in turn. *)
Fixpoint runs (digits : bool) (l : list string) : Prop :=
  match l with
  | [] => True
  | c :: l' =>
      (if digits then c <> EmptyString /\ all_chars is_digit c = true
       else all_chars (fun a => negb (is_digit a)) c = true) /\
      runs (negb digits) l'
  end.

(** Two names of the same key. *)
Definition same_key (a b : string) : bool :=
  match key_compare (alphanum_key a) (alphanum_key b) with
  | Eq => true
  | _ => false
  end.

(** A string that does not go on with a digit. *)
Definition no_digit_ahead (s : string) : Prop :=
  match s with
  | EmptyString => True
  | String c _ => is_digit c = false
  end.

(* ================================================================== *)
(** * Outcomes of loading, and sequences of calls *)
(* ================================================================== *)

Section MoreOutcomes.
Context {F : Type} {S : Scalar F} {AA : AlignmentAdapter F}.

(** The coordinate field of a display mode. *)
Definition mode_field (fixed : bool) : field_ref :=
  if fixed then FixedCoordinateField else ScaledCoordinateField.

(** The region [_reset] creates. *)
Definition rebuilt_region (m : MeshPlaneModel F) : Region F :=
  {| region_id := next_region_id (_parent_region m);
     node_coordinates := square_corners;
     fm_open_changes := 0;
     scene := {| graphics := [plane_lines; plane_surfaces Silver];
                 visibility_flag := display_image_plane m;
                 scene_open_changes := 0 |} |}.

(** The positions [_load_images] writes back: the scene positions
    rescaled, when a size is known. *)
Definition rescaled_nodes (fs : FileSystem) (images : list string)
  (a : align_state) (nodes : list (vec3 F)) : list (vec3 F) :=
  match images with
  | [] => nodes
  | first :: _ =>
      let (width, height) := get_image_size fs first in
      if (negb (width =? -1) || negb (height =? -1))%bool
      then map (fun p =>
                  _getSceneTransformationToAdjustedPosition a
                    (rescale width height
                       (_getSceneTransformationFromAdjustedPosition a p)))
             nodes
      else nodes
  end.

(** The graphics [_load_images] leaves: the image material on the
    surface, when there is an image. *)
Definition textured (images : list string) (gs : list Graphics)
  : list Graphics :=
  match images with
  | [] => gs
  | _ :: _ => update_named "plane-surfaces" (setMaterial (ImageMaterial images)) gs
  end.

(** The model [_load_images] leaves, called on a model of region [r]. *)
Definition loaded (fs : FileSystem) (images : list string)
  (m : MeshPlaneModel F) (r : Region F) : MeshPlaneModel F :=
  {| _frame_count := Z.of_nat (List.length images);
     _parent_region := _parent_region m;
     _region :=
       Some {| region_id := region_id r;
               node_coordinates :=
                 rescaled_nodes fs images (_alignment m) (node_coordinates r);
               fm_open_changes := fm_open_changes r;
               scene := {| graphics := textured images (graphics (scene r));
                           visibility_flag := visibility_flag (scene r);
                           scene_open_changes := scene_open_changes (scene r) |} |};
     _timekeeper := _timekeeper m;
     display_image_plane := display_image_plane m;
     image_plane_fixed := image_plane_fixed m;
     _alignment := _alignment m |}.

(** The images [setImageInfo] finds at a location, or the error
    [imghdr.what] raised first. *)
Fixpoint collected (fs : FileSystem) (location : string)
  (items : list string) (images : list string) : result (list string) :=
  match items with
  | [] => Ok images
  | item :: rest =>
      match imghdr_what fs (path_join location item) with
      | Ok is_image =>
          collected fs location rest
            (if is_image then images ++ [path_join location item] else images)
      | Raise e => Raise e
      end
  end.

Definition found_images (fs : FileSystem) (location : string)
  : result (list string) :=
  if isdir fs location then
    collected fs location (natural_sorted (listdir fs location)) []
  else if path_exists fs location then
    match imghdr_what fs location with
    | Ok is_image => Ok (if is_image then [location] else [])
    | Raise e => Raise e
    end
  else Ok [].


(** Two models that show the same plane: everything but the identity of
    the region and the children of the parent. *)
Definition same_plane (m1 m2 : MeshPlaneModel F) : Prop :=
  _frame_count m1 = _frame_count m2 /\
  option_map node_coordinates (_region m1)
  = option_map node_coordinates (_region m2) /\
  option_map scene (_region m1) = option_map scene (_region m2) /\
  option_map fm_open_changes (_region m1)
  = option_map fm_open_changes (_region m2) /\
  _timekeeper m1 = _timekeeper m2 /\
  display_image_plane m1 = display_image_plane m2 /\
  image_plane_fixed m1 = image_plane_fixed m2 /\
  _alignment m1 = _alignment m2.

(** ** Sequences of calls *)

(** A call of one of the methods that act on the plane. *)
Inductive call : Type :=
| SetImageInfo (fs : FileSystem) (image_info : option string)
| SetImagePlaneFixed (state : bool)
| SetImagePlaneVisible (state : bool)
| SetNodeLocations (node_positions : list (vec3 F))
| GetNodeLocations
| GetPlaneInfo.

(** The model a call leaves, whether it returns or raises. *)
Definition model_after (c : call) (m : MeshPlaneModel F) : MeshPlaneModel F :=
  match c with
  | SetImageInfo fs image_info => snd (setImageInfo fs image_info m)
  | SetImagePlaneFixed state => snd (setImagePlaneFixed state m)
  | SetImagePlaneVisible state => snd (setImagePlaneVisible state m)
  | SetNodeLocations node_positions => snd (setNodeLocations node_positions m)
  | GetNodeLocations => snd (getNodeLocations m)
  | GetPlaneInfo => snd (getPlaneInfo m)
  end.

Definition model_after_calls (calls : list call) (m : MeshPlaneModel F)
  : MeshPlaneModel F :=
  fold_left (fun m c => model_after c m) calls m.

(** What every reachable model satisfies; [n0] is the number of children
    the parent region had at construction. *)
Definition plane_invariant (n0 : nat) (m : MeshPlaneModel F) : Prop :=
  (List.length (children (_parent_region m)) <= n0 + 1)%nat /\
  match _region m with
  | None =>
      _frame_count m = 0 /\
      (List.length (children (_parent_region m)) <= n0)%nat
  | Some r =>
      In (region_id r) (children (_parent_region m)) /\
      List.length (node_coordinates r) = 4%nat /\
      map gr_name (graphics (scene r)) = ["plane-lines"; "plane-surfaces"]%string /\
      map gr_kind (graphics (scene r)) = [Lines; Surfaces] /\
      visibility_flag (scene r) = display_image_plane m /\
      scene_open_changes (scene r) = 0 /\
      match surface_material m with
      | Some (ImageMaterial images) =>
          images <> [] /\ _frame_count m = Z.of_nat (List.length images)
      | Some Silver => _frame_count m = 0
      | None => False
      end
  end.

End MoreOutcomes.

(** A directory with an entry [imghdr.what] cannot read. *)
Definition unreadable_files : FileSystem := {|
  isdir := isdir example_files;
  path_exists := path_exists example_files;
  listdir := listdir example_files;
  imghdr_what := fun p =>
    if String.eqb p "stack/readme" then Raise OSError
    else imghdr_what example_files p;
  get_image_size := get_image_size example_files
|}.

(* ================================================================== *)
(** * Settings *)
(* ================================================================== *)

(** Modelled from the spec: [getAlignSettings] and [setAlignSettings],
    methods of the base class [MeshAlignmentModel] (section 6): the
    mapping the alignment reports, and the alignment after it was given
    one.  [V] is the type of the values of such a mapping. *)
Class AlignSettings (F : Type) {AA : AlignmentAdapter F} (V : Type) : Type := {
  getAlignSettings : align_state -> list (string * V);
  setAlignSettings : list (string * V) -> align_state -> align_state
}.
Arguments AlignSettings F {AA} V.

Section Dict.
Variable V : Type.

(** [d[k] = v] on a [dict], its entries in the order of insertion. *)
Fixpoint dict_set (k : string) (v : V) (d : list (string * V))
  : list (string * V) :=
  match d with
  | [] => [(k, v)]
  | (k', v') :: d' =>
      if String.eqb k' k then (k, v) :: d' else (k', v') :: dict_set k v d'
  end.

(** [d.update(other)] *)
Definition dict_update (d other : list (string * V)) : list (string * V) :=
  fold_left (fun d kv => dict_set (fst kv) (snd kv) d) other d.

End Dict.

(** What [setSettings] can raise: [KeyError] for a key that is absent, or
    what a method it calls raised. *)
Inductive settings_exn : Type :=
| KeyError (key : string)
| Raised (e : exn).

Inductive outcome (A : Type) : Type :=
| Returned (a : A)
| Failed (e : settings_exn).
Arguments Returned {A} a.
Arguments Failed {A} e.

Section Settings.
Context {F : Type} {S : Scalar F} {AA : AlignmentAdapter F}.
Context {V : Type} {AS : AlignSettings F V}.

(** A settings mapping, as [setSettings] takes one and [getSettings]
    returns one: the value under each of the three keys the model reads,
    [None] for a key that is absent, and the entries under other keys. *)
Record settings : Type := {
  s_display_image_plane : option bool;            (* 'display-image-plane' *)
  s_image_plane_fixed : option bool;              (* 'image-plane-fixed' *)
  s_alignment : option (list (string * V));       (* 'alignment' *)
  s_others : list (string * V)
}.

(** The model with the rest of [self._settings]: the two flags are
    attributes of [plane]. *)
Record SettingsModel : Type := {
  plane : MeshPlaneModel F;
  settings_alignment : list (string * V);         (* [_settings['alignment']] *)
  settings_others : list (string * V)             (* entries merged in by [setSettings] *)
}.

(** [MeshPlaneModel(region)], with the settings it starts from. *)
Definition init_settings (parent : ParentRegion) (a : align_state)
  : SettingsModel :=
  {| plane := init parent a; settings_alignment := []; settings_others := [] |}.

Definition with_plane (p : MeshPlaneModel F) (sm : SettingsModel)
  : SettingsModel :=
  {| plane := p; settings_alignment := settings_alignment sm;
     settings_others := settings_others sm |}.

(** [getSettings(self)] *)
Definition getSettings (sm : SettingsModel) : settings * SettingsModel :=
  let alignment :=
    dict_update (settings_alignment sm)
      (getAlignSettings (_alignment (plane sm))) in
  ({| s_display_image_plane := Some (display_image_plane (plane sm));
      s_image_plane_fixed := Some (image_plane_fixed (plane sm));
      s_alignment := Some alignment;
      s_others := settings_others sm |},
   {| plane := plane sm; settings_alignment := alignment;
      settings_others := settings_others sm |}).

(** [self._settings.update(settings)] *)
Definition merge_settings (s : settings) (sm : SettingsModel) : SettingsModel :=
  let p1 := match s_display_image_plane s with
            | Some b => set_display_image_plane b (plane sm)
            | None => plane sm
            end in
  let p2 := match s_image_plane_fixed s with
            | Some b => set_image_plane_fixed b p1
            | None => p1
            end in
  {| plane := p2;
     settings_alignment := match s_alignment s with
                           | Some d => d
                           | None => settings_alignment sm
                           end;
     settings_others := dict_update (settings_others sm) (s_others s) |}.

(** [setSettings(self, settings)] *)
Definition setSettings (s : settings) (sm : SettingsModel)
  : outcome unit * SettingsModel :=
  let sm1 := merge_settings s sm in
  match s_display_image_plane s with
  | None => (Failed (KeyError "display-image-plane"), sm1)
  | Some display =>
      match setImagePlaneVisible display (plane sm1) with
      | (Raise e, p) => (Failed (Raised e), with_plane p sm1)
      | (Ok _, p) =>
          match s_image_plane_fixed s with
          | None => (Failed (KeyError "image-plane-fixed"), with_plane p sm1)
          | Some fixed =>
              match setImagePlaneFixed fixed p with
              | (Raise e, p) => (Failed (Raised e), with_plane p sm1)
              | (Ok _, p) =>
                  match s_alignment s with
                  | Some alignment =>
                      (Returned tt,
                       with_plane
                         (set_alignment
                            (setAlignSettings alignment (_alignment p)) p)
                         sm1)
                  | None => (Returned tt, with_plane p sm1)
                  end
              end
          end
      end
  end.

End Settings.

Arguments settings V : clear implicits.
Arguments SettingsModel F {AA} V.

(** The settings of an alignment that was never edited: it reports none
    and ignores those it is given. *)
Definition no_align_settings
  : AlignSettings float (AA := identity_adapter float) Z := {|
  getAlignSettings := fun _ => [];
  setAlignSettings := fun _ a => a
|}.

(** The rebuilt plane with the settings it started from. *)
Definition reset_settings_model
  : SettingsModel float (AA := identity_adapter float) Z :=
  {| plane := reset_model; settings_alignment := []; settings_others := [] |}.

(** A mapping that hides the plane and fixes it. *)
Definition hidden_fixed_settings : settings Z :=
  {| s_display_image_plane := Some false;
     s_image_plane_fixed := Some true;
     s_alignment := Some [];
     s_others := [] |}.

(** The rate as a real number. *)
Definition rate_value (fps : pynum) : R :=
  match fps with
  | PyInt f => IZR f
  | PyFloat f => B2R f
  end.


(* ================================================================== *)
(** * Properties of the natural ordering *)
(* ================================================================== *)

Lemma Z_compare_order : comparison_order Z.compare.
Proof.
  split.
  - apply Z.compare_refl.
  - intros a b H. now apply Z.compare_eq.
  - intros a b. apply Z.compare_antisym.
  - intros a b c H1 H2. rewrite Z.compare_lt_iff in *. lia.
Qed.

Lemma ascii_compare_refl (a : ascii) : Ascii.compare a a = Eq.
Proof. unfold Ascii.compare. apply N.compare_refl. Qed.

Lemma ascii_compare_lt_trans (a b c : ascii) :
  Ascii.compare a b = Lt -> Ascii.compare b c = Lt -> Ascii.compare a c = Lt.
Proof.
  unfold Ascii.compare. rewrite !N.compare_lt_iff. apply N.lt_trans.
Qed.

Lemma string_compare_order : comparison_order String.compare.
Proof.
  split.
  - induction a as [|c s IH]; simpl; [reflexivity|].
    now rewrite ascii_compare_refl.
  - apply String.compare_eq_iff.
  - intros a b. apply String.compare_antisym.
  - induction a as [|x a IH]; intros [|y b] [|z c]; simpl;
      try discriminate; try reflexivity.
    destruct (Ascii.compare x y) eqn:Hxy; try discriminate.
    + apply Ascii.compare_eq_iff in Hxy. subst y.
      destruct (Ascii.compare x z); try discriminate; try reflexivity.
      apply IH.
    + intros _. destruct (Ascii.compare y z) eqn:Hyz; try discriminate.
      * apply Ascii.compare_eq_iff in Hyz. subst z. now rewrite Hxy.
      * intros _. now rewrite (ascii_compare_lt_trans _ _ _ Hxy Hyz).
Qed.

Lemma chunk_compare_order : comparison_order chunk_compare.
Proof.
  destruct Z_compare_order as [zr ze za zt].
  destruct string_compare_order as [sr se sa st].
  split.
  - intros [s|n]; simpl; auto.
  - intros [s|n] [s'|n']; simpl; try discriminate; intros H; f_equal; auto.
  - intros [s|n] [s'|n']; simpl; auto.
  - intros [s|n] [s'|n'] [s''|n'']; simpl; try discriminate; eauto.
Qed.

Section Lex.
Context {A : Type} (cmp : A -> A -> comparison) (O : comparison_order cmp).

Lemma lex_compare_order : comparison_order (lex_compare cmp).
Proof.
  destruct O as [r e a t].
  split.
  - induction a0 as [|x k IH]; simpl; [reflexivity|]. now rewrite r.
  - induction a0 as [|x k IH]; intros [|y k']; simpl; try discriminate;
      [reflexivity|].
    destruct (cmp x y) eqn:Hxy; try discriminate.
    intros H. apply e in Hxy. subst y. f_equal. now apply IH.
  - induction a0 as [|x k IH]; intros [|y k']; simpl; try reflexivity.
    rewrite (a x y). destruct (cmp x y); simpl; auto.
  - induction a0 as [|x k IH]; intros [|y k'] [|z k'']; simpl;
      try discriminate; try reflexivity.
    destruct (cmp x y) eqn:Hxy; try discriminate.
    + apply e in Hxy. subst y.
      destruct (cmp x z); try discriminate; try reflexivity. apply IH.
    + intros _. destruct (cmp y z) eqn:Hyz; try discriminate.
      * apply e in Hyz. subst z. now rewrite Hxy.
      * intros _. now rewrite (t _ _ _ Hxy Hyz).
Qed.

End Lex.

Lemma key_compare_order : comparison_order key_compare.
Proof. apply lex_compare_order, chunk_compare_order. Qed.

Lemma key_leb_refl (k : list chunk) : key_leb k k = true.
Proof.
  unfold key_leb. now rewrite (cmp_refl key_compare_order).
Qed.

Lemma key_leb_trans (a b c : list chunk) :
  key_leb a b = true -> key_leb b c = true -> key_leb a c = true.
Proof.
  destruct key_compare_order as [r e s t].
  unfold key_leb.
  destruct (key_compare a b) eqn:Hab; try discriminate;
    destruct (key_compare b c) eqn:Hbc; try discriminate; intros _ _.
  - apply e in Hab. subst b. now rewrite Hbc.
  - apply e in Hab. subst b. now rewrite Hbc.
  - apply e in Hbc. subst c. now rewrite Hab.
  - now rewrite (t _ _ _ Hab Hbc).
Qed.

Lemma key_ltb_leb (a b : list chunk) :
  key_ltb a b = true -> key_leb a b = true.
Proof.
  unfold key_ltb, key_leb. destruct (key_compare a b); congruence.
Qed.

Lemma key_not_ltb_leb (a b : list chunk) :
  key_ltb a b = false -> key_leb b a = true.
Proof.
  unfold key_ltb, key_leb.
  rewrite (cmp_antisym key_compare_order a b).
  destruct (key_compare a b); simpl; congruence.
Qed.

Lemma natural_le_trans (a b c : string) :
  natural_le a b -> natural_le b c -> natural_le a c.
Proof. unfold natural_le. apply key_leb_trans. Qed.

(** ** The insertion sort behind [sorted] *)

Lemma insert_by_perm (x : string) (l : list string) :
  Permutation (x :: l) (insert_by alphanum_key key_ltb x l).
Proof.
  induction l as [|y l IH]; simpl; [reflexivity|].
  destruct (key_ltb (alphanum_key y) (alphanum_key x)); [|reflexivity].
  rewrite perm_swap. now apply perm_skip.
Qed.

Lemma natural_sorted_perm (l : list string) :
  Permutation l (natural_sorted l).
Proof.
  unfold natural_sorted.
  induction l as [|x l IH]; simpl; [constructor|].
  rewrite <- insert_by_perm. now apply perm_skip.
Qed.

Lemma insert_by_sorted (x : string) (l : list string) :
  StronglySorted natural_le l ->
  StronglySorted natural_le (insert_by alphanum_key key_ltb x l).
Proof.
  induction 1 as [|y l Hs IH Hall]; simpl.
  - repeat constructor.
  - destruct (key_ltb (alphanum_key y) (alphanum_key x)) eqn:Hlt.
    + constructor; [exact IH|].
      apply key_ltb_leb in Hlt.
      rewrite Forall_forall in *. intros z Hz.
      apply (Permutation_in _ (Permutation_sym (insert_by_perm x l))) in Hz.
      destruct Hz as [<-|Hz]; [exact Hlt|auto].
    + apply key_not_ltb_leb in Hlt.
      constructor; [now constructor|].
      constructor; [exact Hlt|].
      rewrite Forall_forall in *. intros z Hz.
      eapply natural_le_trans; [exact Hlt|auto].
Qed.

Lemma natural_sorted_sorted (l : list string) :
  StronglySorted natural_le (natural_sorted l).
Proof.
  unfold natural_sorted.
  induction l as [|x l IH]; simpl; [constructor|].
  now apply insert_by_sorted.
Qed.

(** Names of equal keys keep the order they came in (the sort is stable):
    an inserted name goes before the first name whose key is not below
    its own. *)
Lemma insert_by_head (x y : string) (l : list string) :
  key_ltb (alphanum_key y) (alphanum_key x) = false ->
  insert_by alphanum_key key_ltb x (y :: l) = x :: y :: l.
Proof. intros H. simpl. now rewrite H. Qed.

Lemma all_chars_app (p : ascii -> bool) (s t : string) :
  all_chars p (s ++ t) = (all_chars p s && all_chars p t)%bool.
Proof.
  induction s as [|c s IH]; simpl; [reflexivity|].
  now rewrite IH, andb_assoc.
Qed.

Lemma digits_value_some (s : string) :
  all_chars is_digit s = true -> forall a, exists n, digits_value a s = Some n.
Proof.
  induction s as [|c s IH]; simpl; intros H a.
  - now exists a.
  - apply andb_prop in H. destruct H as [Hc Hs]. rewrite Hc. now apply IH.
Qed.

Lemma tryint_digits (s : string) :
  s <> EmptyString -> all_chars is_digit s = true ->
  exists n, tryint s = CInt n.
Proof.
  intros Hne H. unfold tryint, int_of_chunk.
  destruct s as [|c s]; [congruence|].
  destruct (digits_value_some _ H 0) as [n ->]. now exists n.
Qed.

Lemma tryint_text (s : string) :
  all_chars (fun c => negb (is_digit c)) s = true -> tryint s = CStr s.
Proof.
  unfold tryint, int_of_chunk.
  destruct s as [|c s]; simpl; [reflexivity|].
  intros H. apply andb_prop in H. destruct H as [Hc _].
  apply negb_true_iff in Hc. now rewrite Hc.
Qed.

Lemma split_digits_alternating (s : string) :
  forall (in_digits : bool) (acc : string),
    (if in_digits
     then acc <> EmptyString /\ all_chars is_digit acc = true
     else all_chars (fun c => negb (is_digit c)) acc = true) ->
    alternating (negb in_digits) (map tryint (split_digits in_digits acc s)).
Proof.
  induction s as [|c s IH]; intros [|] acc H; simpl.
  - destruct H as [Hne H]. destruct (tryint_digits Hne H) as [n ->].
    simpl. auto.
  - rewrite (tryint_text _ H). simpl. auto.
  - destruct H as [Hne H]. destruct (is_digit c) eqn:Hc.
    + apply (IH true). split.
      * destruct acc; simpl; congruence.
      * rewrite all_chars_app, H. simpl. now rewrite Hc.
    + simpl. destruct (tryint_digits Hne H) as [n ->]. split; [reflexivity|].
      apply (IH false). simpl. now rewrite Hc.
  - destruct (is_digit c) eqn:Hc.
    + simpl. rewrite (tryint_text _ H). split; [reflexivity|].
      apply (IH true). split; [congruence|]. simpl. now rewrite Hc.
    + apply (IH false). rewrite all_chars_app, H. simpl. now rewrite Hc.
Qed.

Lemma alphanum_key_alternating (s : string) :
  alternating true (alphanum_key s).
Proof.
  apply (split_digits_alternating s false EmptyString). reflexivity.
Qed.


(* ================================================================== *)
(** * Frame index and time: exact arithmetic *)
(* ================================================================== *)

Lemma exact_truediv_ok (x y : Q) :
  ~ (y == 0)%Q -> Exact.truediv x y = Ok (x / y)%Q.
Proof.
  intros H. unfold Exact.truediv.
  destruct (Qeq_bool y 0) eqn:E; [|reflexivity].
  apply Qeq_bool_eq in E. contradiction.
Qed.

Lemma exact_truediv_zero (x y : Q) :
  (y == 0)%Q -> Exact.truediv x y = Raise ZeroDivisionError.
Proof.
  intros H. unfold Exact.truediv.
  now rewrite (proj2 (Qeq_bool_iff y 0) H).
Qed.

Lemma inject_Z_nonzero (n : Z) : n <> 0 -> ~ (inject_Z n == 0)%Q.
Proof.
  intros H E. apply H. unfold Qeq in E. simpl in E. lia.
Qed.

Lemma Qdiv_nonzero (x y : Q) : ~ (x == 0)%Q -> ~ (y == 0)%Q -> ~ (x / y == 0)%Q.
Proof.
  intros Hx Hy E. apply Hx.
  rewrite <- (Qmult_div_r x y Hy), E. ring.
Qed.

(** [int] of a rational that is a non-negative integer and a half. *)
Lemma exact_to_int_half (q : Q) (i : Z) :
  0 <= i -> (q == inject_Z i + (1 # 2))%Q -> Exact.to_int q = Ok i.
Proof.
  intros Hi E. unfold Exact.to_int. f_equal.
  assert (Hq : (0 <= q)%Q).
  { rewrite E. unfold Qle. simpl. lia. }
  assert (Hn : 0 <= Qnum q).
  { unfold Qle in Hq. simpl in Hq. lia. }
  rewrite Z.quot_div_nonneg by lia.
  change (Qnum q / Z.pos (Qden q)) with (Qfloor (Qnum q # Qden q)).
  replace (Qnum q # Qden q)%Q with q by now destruct q.
  rewrite E. unfold Qfloor, Qplus, inject_Z. cbn [Qnum Qden].
  replace (i * Z.pos 2 + 1 * Z.pos 1) with (1 + i * 2) by lia.
  change (Z.pos (1 * 2)) with 2.
  rewrite Z.div_add by lia. reflexivity.
Qed.

Lemma exact_round_trip (n i : Z) (f : Q) :
  0 < n -> ~ (f == 0)%Q -> 0 <= i ->
  frame_round_trip (A := exact_arith) n (inject_Z i) f = Ok i.
Proof.
  intros Hn Hf Hi.
  assert (Hn' : ~ (inject_Z n == 0)%Q) by (apply inject_Z_nonzero; lia).
  assert (H2 : ~ (inject_Z 2 == 0)%Q) by (apply inject_Z_nonzero; lia).
  assert (Hd : ~ (inject_Z n / f == 0)%Q) by now apply Qdiv_nonzero.
  assert (Hs : ~ (inject_Z 1 / inject_Z n == 0)%Q).
  { apply Qdiv_nonzero; [apply inject_Z_nonzero; lia | exact Hn']. }
  unfold frame_round_trip, getTimeForFrameIndex, getFrameIndexForTime.
  cbn [truediv mul add sub to_int of_int lit_half exact_arith].
  rewrite (exact_truediv_ok _ Hf). cbn [rbind].
  rewrite (exact_truediv_ok _ Hn'). cbn [rbind].
  rewrite (exact_truediv_ok _ H2). cbn [rbind].
  rewrite (exact_truediv_ok _ Hd). cbn [rbind].
  rewrite (exact_truediv_ok _ Hs). cbn [rbind].
  apply exact_to_int_half; [exact Hi|].
  field; repeat split; auto.
Qed.

Lemma exact_time_succeeds (n : Z) (i f : Q) :
  0 < n -> ~ (f == 0)%Q ->
  succeeds (getTimeForFrameIndex (A := exact_arith) n i f).
Proof.
  intros Hn Hf.
  assert (Hn' : ~ (inject_Z n == 0)%Q) by (apply inject_Z_nonzero; lia).
  assert (H2 : ~ (inject_Z 2 == 0)%Q) by (apply inject_Z_nonzero; lia).
  unfold getTimeForFrameIndex.
  cbn [truediv mul add sub to_int of_int lit_half exact_arith].
  rewrite (exact_truediv_ok _ Hf). cbn [rbind].
  rewrite (exact_truediv_ok _ Hn'). cbn [rbind].
  rewrite (exact_truediv_ok _ H2). cbn [rbind].
  eexists. reflexivity.
Qed.

Lemma exact_frame_succeeds (n : Z) (t f : Q) :
  0 < n -> ~ (f == 0)%Q ->
  succeeds (getFrameIndexForTime (A := exact_arith) n t f).
Proof.
  intros Hn Hf.
  assert (Hn' : ~ (inject_Z n == 0)%Q) by (apply inject_Z_nonzero; lia).
  assert (H2 : ~ (inject_Z 2 == 0)%Q) by (apply inject_Z_nonzero; lia).
  assert (Hd : ~ (inject_Z n / f == 0)%Q) by now apply Qdiv_nonzero.
  assert (Hs : ~ (inject_Z 1 / inject_Z n == 0)%Q).
  { apply Qdiv_nonzero; [apply inject_Z_nonzero; lia | exact Hn']. }
  unfold getFrameIndexForTime.
  cbn [truediv mul add sub to_int of_int lit_half exact_arith].
  rewrite (exact_truediv_ok _ Hf). cbn [rbind].
  rewrite (exact_truediv_ok _ Hn'). cbn [rbind].
  rewrite (exact_truediv_ok _ H2). cbn [rbind].
  rewrite (exact_truediv_ok _ Hd). cbn [rbind].
  rewrite (exact_truediv_ok _ Hs). cbn [rbind].
  eexists. reflexivity.
Qed.

(* ================================================================== *)
(** * binary64: the rounding errors of the frame/time functions *)
(* ================================================================== *)

(** Every operation of binary64 on normal numbers returns the exact result
    with a relative error of at most [2^-52], as long as the result stays
    in the normal range.  The round trip makes ten such operations; their
    errors, accumulated, move the index by less than a half. *)

Unset Implicit Arguments.

(** ** Powers of two as real numbers *)
Lemma pw_pos (e : Z) : (0 < pw e)%R.
Proof. apply powerRZ_lt. lra. Qed.

Lemma pw_add (a b : Z) : pw (a + b) = (pw a * pw b)%R.
Proof. apply powerRZ_add. lra. Qed.

Lemma pw_0 : pw 0 = 1%R.
Proof. reflexivity. Qed.

Lemma pw_1 : pw 1 = 2%R.
Proof. unfold pw. simpl. lra. Qed.

Lemma pw_IZR (k : Z) : 0 <= k -> pw k = IZR (2 ^ k).
Proof.
  revert k. apply natlike_ind; [reflexivity|].
  intros k Hk IH. unfold Z.succ. rewrite pw_add, IH.
  rewrite Z.pow_add_r by lia. rewrite mult_IZR. f_equal.
  unfold pw. simpl. lra.
Qed.

Lemma pw_ge_1 (k : Z) : 0 <= k -> (1 <= pw k)%R.
Proof.
  intros Hk. rewrite pw_IZR by exact Hk. apply IZR_le.
  pose proof (Z.pow_pos_nonneg 2 k ltac:(lia) Hk). lia.
Qed.

Lemma pw_le (a b : Z) : a <= b -> (pw a <= pw b)%R.
Proof.
  intros H. replace b with (a + (b - a)) by lia. rewrite pw_add.
  pose proof (pw_pos a). pose proof (pw_ge_1 (b - a) ltac:(lia)). nra.
Qed.

Lemma pw_lt (a b : Z) : a < b -> (pw a < pw b)%R.
Proof.
  intros H. replace b with (a + 1 + (b - a - 1)) by lia.
  rewrite !pw_add, pw_1.
  pose proof (pw_pos a). pose proof (pw_ge_1 (b - a - 1) ltac:(lia)). nra.
Qed.

Lemma pw_lt_inv (a b : Z) : (pw a < pw b)%R -> a < b.
Proof.
  intros H. destruct (Z_lt_le_dec a b) as [L|L]; [exact L|].
  apply pw_le in L. lra.
Qed.

Lemma pw_le_inv (a b : Z) : (pw a <= pw b)%R -> a <= b.
Proof.
  intros H. destruct (Z_le_gt_dec a b) as [L|L]; [exact L|].
  assert (b < a) as L' by lia. apply pw_lt in L'. lra.
Qed.

Lemma pw_neg (a : Z) : (pw (- a) = / pw a)%R.
Proof. apply powerRZ_neg'. Qed.

Lemma pw_m1 : pw (-1) = (/ 2)%R.
Proof. change (-1) with (- (1)). rewrite pw_neg, pw_1. reflexivity. Qed.

(** ** Digits *)
Lemma digits2_size (m : positive) : digits2_pos m = Pos.size m.
Proof. induction m; simpl; congruence. Qed.

Lemma digits_bounds (m : positive) :
  2 ^ (Zpos (digits2_pos m) - 1) <= Zpos m < 2 ^ Zpos (digits2_pos m).
Proof.
  rewrite digits2_size.
  assert (H : Zpos (Pos.size m) = Z.succ (Z.log2 (Zpos m))).
  { destruct m; simpl; lia. }
  rewrite H. replace (Z.succ (Z.log2 (Z.pos m)) - 1) with (Z.log2 (Z.pos m)) by lia.
  apply Z.log2_spec. lia.
Qed.

Lemma digits_unique (m : positive) (d : Z) :
  2 ^ (d - 1) <= Zpos m < 2 ^ d -> Zpos (digits2_pos m) = d.
Proof.
  intros H. pose proof (digits_bounds m) as B.
  assert (0 < d).
  { destruct (Z_lt_le_dec 0 d); [lia|].
    assert (2 ^ d <= 2 ^ 0) by (apply Z.pow_le_mono_r; lia). simpl in *. lia. }
  set (d' := Zpos (digits2_pos m)) in *.
  assert (0 < d') by (unfold d'; lia).
  destruct (Z.lt_trichotomy d d') as [L|[E|L]]; [|now symmetry|].
  - assert (2 ^ d <= 2 ^ (d' - 1)) by (apply Z.pow_le_mono_r; lia). lia.
  - assert (2 ^ d' <= 2 ^ (d - 1)) by (apply Z.pow_le_mono_r; lia). lia.
Qed.

(** ** Shifting right *)
Lemma shr_1_m (mrs : shr_record) :
  0 <= shr_m mrs -> shr_m (shr_1 mrs) = shr_m mrs / 2.
Proof.
  destruct mrs as [m r s]. simpl. intros H.
  destruct m as [|[p|p|]|p]; simpl; try reflexivity; try lia.
  - rewrite Pos2Z.inj_xI.
    apply Z.div_unique with (r := 1); lia.
  - rewrite Pos2Z.inj_xO.
    apply Z.div_unique with (r := 0); lia.
Qed.

Lemma pow2_pos (k : Z) : 0 <= k -> 0 < 2 ^ k.
Proof. intros H. apply Z.pow_pos_nonneg; lia. Qed.

Lemma iter_pos_shr_m (n : positive) :
  forall mrs : shr_record,
    0 <= shr_m mrs ->
    shr_m (SpecFloat.iter_pos shr_1 n mrs) = shr_m mrs / 2 ^ Zpos n.
Proof.
  induction n as [n IH|n IH|]; intros mrs H; simpl SpecFloat.iter_pos.
  - assert (H1 : 0 <= shr_m (shr_1 mrs)).
    { rewrite shr_1_m by exact H. apply Z.div_pos; lia. }
    assert (H2 : 0 <= shr_m (SpecFloat.iter_pos shr_1 n (shr_1 mrs))).
    { rewrite IH by exact H1. apply Z.div_pos; [lia|apply pow2_pos; lia]. }
    rewrite (IH _ H2), (IH _ H1), (shr_1_m _ H).
    rewrite !Z.div_div by (try apply pow2_pos; lia).
    f_equal.
    replace (Z.pos n~1) with (1 + Z.pos n + Z.pos n) by lia.
    rewrite !Z.pow_add_r by lia. change (2 ^ 1) with 2. ring.
  - assert (H2 : 0 <= shr_m (SpecFloat.iter_pos shr_1 n mrs)).
    { rewrite IH by exact H. apply Z.div_pos; [lia|apply pow2_pos; lia]. }
    rewrite (IH _ H2), (IH _ H).
    rewrite !Z.div_div by (try apply pow2_pos; lia).
    f_equal.
    replace (Z.pos n~0) with (Z.pos n + Z.pos n) by lia.
    rewrite !Z.pow_add_r by lia. ring.
  - rewrite shr_1_m by lia. reflexivity.
Qed.

Lemma round_nearest_even_cases (m : Z) (l : location) :
  round_nearest_even m l = m \/ round_nearest_even m l = m + 1.
Proof.
  destruct l as [|[| |]]; simpl; auto.
  destruct (Z.even m); auto.
Qed.

(** ** Rounding the mantissa *)

Lemma fexp_normal (x : Z) : -1021 <= x -> fexp prec emax x = x - 53.
Proof. intros H. unfold fexp, emin, prec, emax. lia. Qed.

Lemma shr_record_of_loc_m (m : Z) (l : location) :
  shr_m (shr_record_of_loc m l) = m.
Proof. destruct l as [|[| |]]; reflexivity. Qed.

Lemma shr_spec (mrs : shr_record) (e n : Z) :
  0 <= shr_m mrs -> 0 <= n ->
  exists mrs',
    shr mrs e n = (mrs', e + n) /\ shr_m mrs' = shr_m mrs / 2 ^ n.
Proof.
  intros Hm Hn. unfold shr. destruct n as [|p|p]; [| |lia].
  - exists mrs. split; [f_equal; lia|]. now rewrite Z.div_1_r.
  - eexists. split; [reflexivity|]. now apply iter_pos_shr_m.
Qed.

Lemma IZR_pow2 (k : Z) : 0 <= k -> IZR (2 ^ k) = pw k.
Proof. intros H. symmetry. now apply pw_IZR. Qed.

(** Rounding a positive number whose digits start in the normal range:
    the result is a normal float within one unit in the last place of any
    real number between the mantissa and its successor. *)
Lemma binary_round_aux_faithful (sx : bool) (m : positive) (ex : Z)
  (lx : location) (V : R) :
  53 <= Zpos (digits2_pos m) ->
  -1021 <= Zpos (digits2_pos m) + ex <= 1023 ->
  (IZR (Zpos m) * pw ex <= V <= IZR (Zpos m + 1) * pw ex)%R ->
  exists m' e',
    binary_round_aux prec emax sx (Zpos m) ex lx = S754_finite sx m' e' /\
    Zpos (digits2_pos m') = 53 /\ -1074 <= e' <= 971 /\
    (Rabs (F2R (Zpos m') e' - V) <= pw (-52) * V)%R.
Proof.
  intros Hd Hr HV.
  set (d := Zpos (digits2_pos m)) in *.
  set (n := d - 53).
  pose proof (digits_bounds m) as Hm. fold d in Hm.
  assert (Hn : 0 <= n) by (unfold n; lia).
  (* first shift *)
  unfold binary_round_aux, shr_fexp. cbn [Zdigits2]. fold d.
  rewrite (fexp_normal (d + ex)) by lia.
  replace (d + ex - 53 - ex) with n by (unfold n; lia).
  destruct (shr_spec (shr_record_of_loc (Zpos m) lx) ex n) as (mrs1 & -> & Hm1);
    [rewrite shr_record_of_loc_m; lia | exact Hn |].
  rewrite shr_record_of_loc_m in Hm1.
  set (m1 := shr_m mrs1) in *.
  assert (Hpn : 0 < 2 ^ n) by (apply pow2_pos; lia).
  assert (Hm1b : 2 ^ 52 <= m1 < 2 ^ 53).
  { rewrite Hm1. split.
    - apply Z.div_le_lower_bound; [lia|].
      rewrite <- Z.pow_add_r by lia.
      replace (n + 52) with (d - 1) by (unfold n; lia). lia.
    - apply Z.div_lt_upper_bound; [lia|].
      rewrite <- Z.pow_add_r by lia.
      replace (n + 53) with d by (unfold n; lia). lia. }
  assert (Hm1m : m1 * 2 ^ n <= Zpos m < (m1 + 1) * 2 ^ n).
  { rewrite Hm1. pose proof (Z.div_mod (Zpos m) (2 ^ n) ltac:(lia)) as E.
    pose proof (Z.mod_pos_bound (Zpos m) (2 ^ n) Hpn). nia. }
  (* rounding *)
  set (m2 := round_nearest_even m1 (loc_of_shr_record mrs1)).
  assert (Hm2 : m2 = m1 \/ m2 = m1 + 1) by apply round_nearest_even_cases.
  assert (Hm2b : 2 ^ 52 <= m2 <= 2 ^ 53) by lia.
  (* the value *)
  assert (He1 : pw (ex + n) = (pw ex * IZR (2 ^ n))%R).
  { rewrite pw_add. now rewrite IZR_pow2. }
  assert (HVl : (IZR m1 * pw (ex + n) <= V)%R).
  { rewrite He1. apply Rle_trans with (2 := proj1 HV).
    replace (IZR m1 * (pw ex * IZR (2 ^ n)))%R
      with (IZR (m1 * 2 ^ n) * pw ex)%R by (rewrite mult_IZR; ring).
    apply Rmult_le_compat_r; [left; apply pw_pos|]. apply IZR_le. lia. }
  assert (HVu : (V <= IZR (m1 + 1) * pw (ex + n))%R).
  { rewrite He1. apply Rle_trans with (1 := proj2 HV).
    replace (IZR (m1 + 1) * (pw ex * IZR (2 ^ n)))%R
      with (IZR ((m1 + 1) * 2 ^ n) * pw ex)%R by (rewrite mult_IZR; ring).
    apply Rmult_le_compat_r; [left; apply pw_pos|]. apply IZR_le. lia. }
  assert (Herr : (Rabs (IZR m2 * pw (ex + n) - V) <= pw (-52) * V)%R).
  { pose proof (pw_pos (ex + n)) as Hp.
    assert (H52 : (pw (-52) * IZR (2 ^ 52) = 1)%R).
    { rewrite IZR_pow2, <- pw_add by lia. reflexivity. }
    assert (Hlow : (IZR (2 ^ 52) * pw (ex + n) <= V)%R).
    { apply Rle_trans with (2 := HVl).
      apply Rmult_le_compat_r; [lra|]. apply IZR_le. lia. }
    assert (Hone : (pw (ex + n) <= pw (-52) * V)%R).
    { pose proof (pw_pos (-52)).
      replace (pw (ex + n)) with (pw (-52) * (IZR (2 ^ 52) * pw (ex + n)))%R
        by (rewrite <- Rmult_assoc, H52; ring).
      apply Rmult_le_compat_l; lra. }
    rewrite plus_IZR in HVu.
    apply Rabs_le. destruct Hm2 as [-> | ->]; [|rewrite plus_IZR]; lra. }
  (* second shift *)
  destruct m2 as [|p2|p2] eqn:Ep2; try lia.
  cbn [Zdigits2].
  destruct (Z.eq_dec (Zpos p2) (2 ^ 53)) as [Etop|Hlt].
  - assert (Hd2 : Zpos (digits2_pos p2) = 54) by (apply digits_unique; lia).
    rewrite Hd2, (fexp_normal (54 + (ex + n))) by (unfold n; lia).
    replace (54 + (ex + n) - 53 - (ex + n)) with 1 by lia.
    cbn [shr shr_record_of_loc SpecFloat.iter_pos].
    assert (Hs : shr_m (shr_1 {| shr_m := Zpos p2; shr_r := false; shr_s := false |})
                 = 2 ^ 52).
    { rewrite shr_1_m by (simpl; lia). simpl shr_m. rewrite Etop. reflexivity. }
    destruct (shr_m (shr_1 _)) as [|p3|p3] eqn:E3; try discriminate.
    replace (ex + n + 1 <=? emax - prec) with true
      by (symmetry; apply Z.leb_le; unfold emax, prec, n; lia).
    exists p3, (ex + n + 1). split; [reflexivity|].
    split; [apply digits_unique; lia|].
    split; [unfold n; lia|].
    unfold F2R. rewrite Hs.
    replace (IZR (2 ^ 52) * pw (ex + n + 1))%R with (IZR (Zpos p2) * pw (ex + n))%R;
      [exact Herr|].
    rewrite Etop, (pw_add (ex + n) 1), pw_1.
    change (2 ^ 53) with (2 ^ 52 * 2). rewrite mult_IZR. ring.
  - assert (Hd2 : Zpos (digits2_pos p2) = 53) by (apply digits_unique; lia).
    rewrite Hd2, (fexp_normal (53 + (ex + n))) by (unfold n; lia).
    replace (53 + (ex + n) - 53 - (ex + n)) with 0 by lia.
    cbn [shr shr_record_of_loc shr_m].
    replace (ex + n <=? emax - prec) with true
      by (symmetry; apply Z.leb_le; unfold emax, prec, n; lia).
    exists p2, (ex + n). split; [reflexivity|].
    split; [exact Hd2|]. split; [unfold n; lia|exact Herr].
Qed.

(** ** Values and signs *)

Lemma sgn_abs (s : bool) : Rabs (sgn s) = 1%R.
Proof. destruct s; simpl; unfold Rabs; destruct Rcase_abs; lra. Qed.

Lemma sgn_xorb (a b : bool) : sgn (xorb a b) = (sgn a * sgn b)%R.
Proof. destruct a, b; simpl; lra. Qed.

Lemma F2R_pos (m : positive) (e : Z) : (0 < F2R (Zpos m) e)%R.
Proof.
  unfold F2R. apply Rmult_lt_0_compat; [|apply pw_pos].
  apply IZR_lt. lia.
Qed.

Lemma SF2R_abs (s : bool) (m : positive) (e : Z) :
  Rabs (SF2R (S754_finite s m e)) = F2R (Zpos m) e.
Proof.
  simpl. rewrite Rabs_mult, sgn_abs, Rmult_1_l.
  apply Rabs_pos_eq. left. apply F2R_pos.
Qed.

Lemma F2R_digits (m : positive) (e : Z) :
  (pw (Zpos (digits2_pos m) - 1 + e) <= F2R (Zpos m) e
   < pw (Zpos (digits2_pos m) + e))%R.
Proof.
  pose proof (digits_bounds m) as [L U]. pose proof (pw_pos e).
  unfold F2R. rewrite !pw_add.
  rewrite (pw_IZR (Zpos (digits2_pos m) - 1)), (pw_IZR (Zpos (digits2_pos m))) by lia.
  split.
  - apply Rmult_le_compat_r; [lra|]. now apply IZR_le.
  - apply Rmult_lt_compat_r; [lra|]. now apply IZR_lt.
Qed.

(** The sum of the digits and the exponent, from bounds on the value. *)
Lemma digits_exp_range (m : positive) (e a b : Z) :
  (pw a <= F2R (Zpos m) e <= pw b)%R ->
  a < Zpos (digits2_pos m) + e <= b + 1.
Proof.
  intros [L U]. pose proof (F2R_digits m e) as [L' U']. split.
  - apply pw_lt_inv. lra.
  - assert (Zpos (digits2_pos m) - 1 + e <= b) by (apply pw_le_inv; lra). lia.
Qed.

Lemma sf_normal_valid (x : spec_float) : sf_normal x -> valid_binary x = true.
Proof.
  destruct x as [| | |s m e]; try (simpl; tauto). intros [Hd He].
  unfold valid_binary, SpecFloat.valid_binary, SpecFloat.bounded,
    SpecFloat.canonical_mantissa.
  rewrite Hd.
  apply andb_true_intro. split.
  - apply Z.eqb_eq. unfold fexp, emin, prec, emax. lia.
  - apply Z.leb_le. unfold emax, prec. lia.
Qed.

Lemma close_sgn (s : bool) (r V : R) :
  (0 <= V)%R -> (Rabs (r - V) <= pw (-52) * V)%R ->
  close (sgn s * r) (sgn s * V).
Proof.
  intros HV H. unfold close.
  rewrite <- Rmult_minus_distr_l, !Rabs_mult, sgn_abs, !Rmult_1_l.
  now rewrite (Rabs_pos_eq V).
Qed.

(** ** Multiplication *)
Lemma SFmul_faithful (x y : spec_float) :
  sf_normal x -> sf_normal y ->
  (pw (-1000) <= Rabs (SF2R x * SF2R y) <= pw 1000)%R ->
  sf_normal (SF64mul x y) /\ close (SF2R (SF64mul x y)) (SF2R x * SF2R y).
Proof.
  destruct x as [| | |sx mx ex], y as [| | |sy my ey]; simpl sf_normal;
    try tauto.
  intros [Hdx Hex] [Hdy Hey] HV.
  rewrite Rabs_mult, !SF2R_abs in HV.
  assert (HM : (F2R (Zpos mx) ex * F2R (Zpos my) ey
                = F2R (Zpos (mx * my)) (ex + ey))%R).
  { unfold F2R. rewrite Pos2Z.inj_mul, mult_IZR, pw_add. ring. }
  rewrite HM in HV.
  pose proof (digits_exp_range _ _ _ _ HV) as Hr.
  pose proof (digits_bounds mx) as Bx. pose proof (digits_bounds my) as By.
  pose proof (digits_bounds (mx * my)) as Bm.
  rewrite Hdx in Bx. rewrite Hdy in By.
  assert (Hd : 53 <= Zpos (digits2_pos (mx * my))).
  { destruct (Z_lt_le_dec (Zpos (digits2_pos (mx * my))) 53) as [L|L]; [|exact L].
    assert (2 ^ Zpos (digits2_pos (mx * my)) <= 2 ^ 53)
      by (apply Z.pow_le_mono_r; lia).
    assert (2 ^ 52 * 2 ^ 52 <= Zpos mx * Zpos my) by (apply Z.mul_le_mono_nonneg; lia).
    rewrite Pos2Z.inj_mul in Bm. change (2 ^ 53) with 9007199254740992 in *.
    change (2 ^ 52) with 4503599627370496 in *. lia. }
  destruct (@binary_round_aux_faithful (xorb sx sy) (mx * my) (ex + ey) loc_Exact
              (F2R (Zpos (mx * my)) (ex + ey)) Hd ltac:(lia))
    as (m' & e' & Hres & Hd' & He' & Herr).
  { unfold F2R. pose proof (pw_pos (ex + ey)). rewrite plus_IZR. split; nra. }
  unfold SF64mul, SFmul. rewrite Hres. split; [split; assumption|].
  simpl SF2R. rewrite sgn_xorb.
  replace (sgn sx * F2R (Zpos mx) ex * (sgn sy * F2R (Zpos my) ey))%R
    with (sgn sx * sgn sy * F2R (Zpos (mx * my)) (ex + ey))%R
    by (rewrite <- HM; ring).
  rewrite <- sgn_xorb. apply close_sgn; [left; apply F2R_pos|exact Herr].
Qed.

(** ** Division *)
Lemma SFdiv_faithful (x y : spec_float) :
  sf_normal x -> sf_normal y ->
  (pw (-1000) <= Rabs (SF2R x / SF2R y) <= pw 1000)%R ->
  sf_normal (SF64div x y) /\ close (SF2R (SF64div x y)) (SF2R x / SF2R y).
Proof.
  destruct x as [| | |sx mx ex], y as [| | |sy my ey]; simpl sf_normal;
    try tauto.
  intros [Hdx Hex] [Hdy Hey] HV.
  unfold Rdiv in HV. rewrite Rabs_mult, Rabs_inv, !SF2R_abs in HV.
  pose proof (digits_bounds mx) as Bx. pose proof (digits_bounds my) as By.
  rewrite Hdx in Bx. rewrite Hdy in By.
  change (2 ^ (53 - 1)) with (2 ^ 52) in *.
  pose proof (F2R_pos mx ex) as Px. pose proof (F2R_pos my ey) as Py.
  pose proof (F2R_digits mx ex) as Fx. pose proof (F2R_digits my ey) as Fy.
  rewrite Hdx in Fx. rewrite Hdy in Fy.
  set (V := (F2R (Zpos mx) ex * / F2R (Zpos my) ey)%R) in *.
  (* the exponents are close to each other *)
  assert (HVy : (V * F2R (Zpos my) ey = F2R (Zpos mx) ex)%R).
  { unfold V. field. lra. }
  assert (HVpos : (0 < V)%R).
  { unfold V. apply Rmult_lt_0_compat; [lra|apply Rinv_0_lt_compat; lra]. }
  assert (Hlo : -1001 < ex - ey).
  { apply pw_lt_inv.
    remember (53 + ex) as A eqn:EA. remember (52 + ey) as B eqn:EB.
    assert (HA : (F2R (Zpos mx) ex < pw A)%R) by lra.
    assert (HB : (pw B <= F2R (Zpos my) ey)%R)
      by (replace B with (53 - 1 + ey) by lia; lra).
    replace (ex - ey) with (A + - B + -1) by lia.
    replace (-1001) with (-1000 + -1) by lia.
    rewrite !pw_add, pw_neg, pw_m1.
    pose proof (pw_pos B) as PB. pose proof (pw_pos A) as PA.
    assert (V * pw B < pw A)%R by nra.
    assert (V < pw A * / pw B)%R.
    { apply Rmult_lt_reg_r with (r := pw B); [lra|].
      rewrite Rmult_assoc, Rinv_l by lra. lra. }
    set (T := (pw A * / pw B)%R) in *. lra. }
  assert (Hhi : ex - ey < 1001).
  { apply pw_lt_inv.
    remember (52 + ex) as A eqn:EA. remember (53 + ey) as B eqn:EB.
    assert (HA : (pw A <= F2R (Zpos mx) ex)%R)
      by (replace A with (53 - 1 + ex) by lia; lra).
    assert (HB : (F2R (Zpos my) ey < pw B)%R) by lra.
    replace (ex - ey) with (A + - B + 1) by lia.
    replace 1001 with (1000 + 1) by lia.
    rewrite !pw_add, pw_neg, pw_1.
    pose proof (pw_pos B) as PB. pose proof (pw_pos A) as PA.
    assert (pw A < V * pw B)%R by nra.
    assert (pw A * / pw B < V)%R.
    { apply Rmult_lt_reg_r with (r := pw B); [lra|].
      rewrite Rmult_assoc, Rinv_l by lra. lra. }
    set (T := (pw A * / pw B)%R) in *. lra. }
  (* the quotient *)
  unfold SF64div, SFdiv, SFdiv_core_binary. cbn [Zdigits2].
  rewrite Hdx, Hdy.
  replace (53 + ex - (53 + ey)) with (ex - ey) by lia.
  rewrite (fexp_normal (ex - ey)) by lia.
  rewrite Z.min_l by lia.
  replace (ex - ey - (ex - ey - 53)) with 53 by lia.
  rewrite Z.shiftl_mul_pow2 by lia.
  pose proof (Z_div_mod (Zpos mx * 2 ^ 53) (Zpos my) ltac:(lia)) as Hdm.
  revert Hdm.
  destruct (Z.div_eucl (Zpos mx * 2 ^ 53) (Zpos my)) as [q r].
  intros [Hq Hr].
  assert (Hqb : 2 ^ 52 <= q < 2 ^ 54).
  { change (2 ^ 52) with 4503599627370496 in *.
    change (2 ^ 53) with 9007199254740992 in *.
    change (2 ^ 54) with 18014398509481984. nia. }
  destruct q as [|q|q]; try lia.
  assert (Hdq : 53 <= Zpos (digits2_pos q) <= 54).
  { pose proof (digits_bounds q) as Bq.
    set (d := Zpos (digits2_pos q)) in *.
    split.
    - destruct (Z_lt_le_dec d 53) as [L|L]; [|exact L].
      assert (2 ^ d <= 2 ^ 52) by (apply Z.pow_le_mono_r; lia). lia.
    - destruct (Z_lt_le_dec 54 d) as [L|L]; [|exact L].
      assert (2 ^ 54 <= 2 ^ (d - 1)) by (apply Z.pow_le_mono_r; lia). lia. }
  assert (HVq : (IZR (Zpos q) * pw (ex - ey - 53) <= V
                 <= IZR (Zpos q + 1) * pw (ex - ey - 53))%R).
  { assert (E : (V = IZR (Zpos mx * 2 ^ 53) / IZR (Zpos my) * pw (ex - ey - 53))%R).
    { unfold V, F2R. rewrite mult_IZR, IZR_pow2 by lia.
      replace (ex - ey - 53) with (ex + - ey + - (53)) by lia.
      rewrite !pw_add, !pw_neg.
      pose proof (pw_pos ey). pose proof (pw_pos 53).
      assert (0 < IZR (Zpos my))%R by (apply IZR_lt; lia).
      field. repeat split; lra. }
    pose proof (pw_pos (ex - ey - 53)) as Hp.
    assert (Hy : (0 < IZR (Zpos my))%R) by (apply IZR_lt; lia).
    rewrite E, Hq, plus_IZR, mult_IZR.
    assert (0 <= IZR r < IZR (Zpos my))%R
      by (split; [apply IZR_le|apply IZR_lt]; lia).
    replace ((IZR (Zpos my) * IZR (Zpos q) + IZR r) / IZR (Zpos my))%R
      with (IZR (Zpos q) + IZR r / IZR (Zpos my))%R by (field; lra).
    assert (0 <= IZR r / IZR (Zpos my) < 1)%R.
    { split.
      - apply Rmult_le_pos; [lra|]. left. now apply Rinv_0_lt_compat.
      - apply Rmult_lt_reg_r with (r := IZR (Zpos my)); [lra|].
        unfold Rdiv. rewrite Rmult_assoc, Rinv_l by lra. lra. }
    rewrite plus_IZR. split; nra. }
  destruct (@binary_round_aux_faithful (xorb sx sy) q (ex - ey - 53)
              (new_location (Zpos my) r) V ltac:(lia) ltac:(lia) HVq)
    as (m' & e' & Hres & Hd' & He' & Herr).
  rewrite Hres. split; [split; assumption|].
  simpl SF2R. rewrite sgn_xorb.
  replace (sgn sx * F2R (Zpos mx) ex / (sgn sy * F2R (Zpos my) ey))%R
    with (sgn sx * sgn sy * V)%R.
  - rewrite <- sgn_xorb. apply close_sgn; [|exact Herr].
    unfold V. apply Rmult_le_pos; [lra|]. left. apply Rinv_0_lt_compat. lra.
  - unfold V. destruct sx, sy; simpl; field; lra.
Qed.

(** ** Rounding an integer mantissa *)
Lemma pos_iter_xO (m d : positive) :
  Zpos (Pos.iter xO m d) = Zpos m * 2 ^ Zpos d.
Proof.
  induction d as [|d IH] using Pos.peano_ind.
  - simpl. lia.
  - rewrite Pos.iter_succ, Pos2Z.inj_xO, IH, Pos2Z.inj_succ.
    rewrite Z.pow_succ_r by lia. ring.
Qed.

Lemma shl_align_spec (m : positive) (e e' : Z) :
  e' <= e ->
  snd (shl_align m e e') = e' /\
  Zpos (fst (shl_align m e e')) = Zpos m * 2 ^ (e - e').
Proof.
  intros H. unfold shl_align.
  destruct (e' - e) as [|d|d] eqn:E; try lia.
  - simpl. replace (e - e') with 0 by lia. rewrite Z.pow_0_r. split; lia.
  - simpl. rewrite pos_iter_xO. split; [reflexivity|].
    replace (e - e') with (Zpos d) by lia. reflexivity.
Qed.

Lemma shl_align_none (m : positive) (e e' : Z) :
  e <= e' -> shl_align m e e' = (m, e).
Proof.
  intros H. unfold shl_align. destruct (e' - e) as [|d|d] eqn:E; try lia; reflexivity.
Qed.

Lemma binary_round_faithful (s : bool) (p : positive) (E : Z) :
  -1021 <= Zpos (digits2_pos p) + E <= 1023 ->
  exists m' e',
    binary_round prec emax s p E = S754_finite s m' e' /\
    Zpos (digits2_pos m') = 53 /\ -1074 <= e' <= 971 /\
    (Rabs (F2R (Zpos m') e' - F2R (Zpos p) E) <= pw (-52) * F2R (Zpos p) E)%R.
Proof.
  intros Hr. unfold binary_round.
  set (d := Zpos (digits2_pos p)) in *.
  rewrite (fexp_normal (d + E)) by lia.
  pose proof (digits_bounds p) as Bp. fold d in Bp.
  pose proof (pw_pos E) as PE.
  destruct (Z_le_gt_dec 53 d) as [L|L].
  - rewrite shl_align_none by lia.
    apply binary_round_aux_faithful; fold d; try lia.
    unfold F2R. rewrite plus_IZR. nra.
  - pose proof (shl_align_spec p E (d + E - 53) ltac:(lia)) as [He Hm].
    destruct (shl_align p E (d + E - 53)) as [mz ez]. cbn [fst snd] in He, Hm.
    subst ez.
    replace (E - (d + E - 53)) with (53 - d) in Hm by lia.
    assert (Hdz : Zpos (digits2_pos mz) = 53).
    { apply digits_unique. rewrite Hm.
      assert (0 < d) by (unfold d; lia).
      assert (Hp : 2 ^ 53 = 2 ^ d * 2 ^ (53 - d))
        by (rewrite <- Z.pow_add_r by lia; f_equal; lia).
      assert (Hp' : 2 ^ (53 - 1) = 2 ^ (d - 1) * 2 ^ (53 - d))
        by (rewrite <- Z.pow_add_r by lia; f_equal; lia).
      rewrite Hp, Hp'.
      pose proof (pow2_pos (53 - d) ltac:(lia)) as PC.
      revert Bp PC. generalize (2 ^ (d - 1)) (2 ^ d) (2 ^ (53 - d)).
      intros A B C Bp PC. split.
      - apply Z.mul_le_mono_nonneg_r; lia.
      - apply Z.mul_lt_mono_pos_r; lia. }
    assert (HF : F2R (Zpos mz) (d + E - 53) = F2R (Zpos p) E).
    { unfold F2R. rewrite Hm, mult_IZR, IZR_pow2 by lia.
      rewrite Rmult_assoc, <- pw_add. do 2 f_equal. lia. }
    rewrite <- HF.
    apply binary_round_aux_faithful; rewrite ?Hdz; try lia.
    unfold F2R. rewrite plus_IZR. pose proof (pw_pos (d + E - 53)). nra.
Qed.

Lemma close_zero : close 0 0.
Proof.
  unfold close. rewrite Rminus_0_r, Rabs_R0. lra.
Qed.

Lemma binary_normalize_faithful (M ez : Z) :
  -1022 <= ez ->
  (Rabs (IZR M * pw ez) <= pw 1000)%R ->
  let r := binary_normalize prec emax M ez false in
  (sf_zero r \/ sf_normal r) /\ close (SF2R r) (IZR M * pw ez).
Proof.
  intros He HM r. unfold r, binary_normalize.
  destruct M as [|p|p].
  - split; [left; exact I|]. simpl. rewrite Rmult_0_l. apply close_zero.
  - assert (HF : (F2R (Zpos p) ez <= pw 1000)%R).
    { rewrite Rabs_pos_eq in HM; [exact HM|]. left. apply (F2R_pos p ez). }
    pose proof (F2R_digits p ez) as [L U].
    assert (Zpos (digits2_pos p) - 1 + ez <= 1000) by (apply pw_le_inv; lra).
    destruct (binary_round_faithful false p ez ltac:(lia))
      as (m' & e' & -> & Hd & He' & Herr).
    split; [right; split; assumption|].
    cbn [SF2R]. change (IZR (Zpos p) * pw ez)%R with (F2R (Zpos p) ez).
    unfold sgn. rewrite Rmult_1_l. unfold close.
    rewrite (Rabs_pos_eq (F2R (Zpos p) ez)); [exact Herr|].
    left. apply F2R_pos.
  - assert (HF : (F2R (Zpos p) ez <= pw 1000)%R).
    { change (Zneg p) with (- Zpos p) in HM.
      rewrite opp_IZR, Ropp_mult_distr_l_reverse, Rabs_Ropp in HM.
      rewrite Rabs_pos_eq in HM; [exact HM|]. left. apply (F2R_pos p ez). }
    pose proof (F2R_digits p ez) as [L U].
    assert (Zpos (digits2_pos p) - 1 + ez <= 1000) by (apply pw_le_inv; lra).
    destruct (binary_round_faithful true p ez ltac:(lia))
      as (m' & e' & -> & Hd & He' & Herr).
    split; [right; split; assumption|].
    cbn [SF2R].
    replace (IZR (Zneg p) * pw ez)%R with (sgn true * F2R (Zpos p) ez)%R
      by (unfold sgn, F2R; change (Zneg p) with (- Zpos p);
          rewrite opp_IZR; ring).
    apply close_sgn; [left; apply F2R_pos|exact Herr].
Qed.

(** ** Addition and subtraction *)
Lemma cond_Zopp_IZR (s : bool) (z : Z) :
  IZR (cond_Zopp s z) = (sgn s * IZR z)%R.
Proof.
  destruct s; simpl; [rewrite opp_IZR|]; ring.
Qed.

Lemma aligned_value (s : bool) (m : positive) (e ez : Z) :
  ez <= e ->
  (IZR (cond_Zopp s (Zpos (fst (shl_align m e ez)))) * pw ez
   = SF2R (S754_finite s m e))%R.
Proof.
  intros H. destruct (shl_align_spec m e ez H) as [_ Hm].
  rewrite cond_Zopp_IZR, Hm, mult_IZR, IZR_pow2 by lia.
  simpl. unfold F2R. rewrite !Rmult_assoc, <- pw_add.
  do 3 f_equal. lia.
Qed.

Lemma normal_exp_lower (s : bool) (m : positive) (e : Z) :
  sf_normal (S754_finite s m e) ->
  (pw (-960) <= Rabs (SF2R (S754_finite s m e)))%R -> -1012 <= e.
Proof.
  intros [Hd _] H. rewrite SF2R_abs in H.
  pose proof (F2R_digits m e) as [_ U]. rewrite Hd in U.
  assert (-960 < 53 + e) by (apply pw_lt_inv; lra). lia.
Qed.

Lemma pw_double (a : Z) : (pw a + pw a = pw (a + 1))%R.
Proof. rewrite pw_add, pw_1. ring. Qed.

Lemma SFadd_faithful (x y : spec_float) :
  sf_normal x -> sf_normal y ->
  (pw (-960) <= Rabs (SF2R x) <= pw 900)%R ->
  (pw (-960) <= Rabs (SF2R y) <= pw 900)%R ->
  (sf_zero (SF64add x y) \/ sf_normal (SF64add x y)) /\
  close (SF2R (SF64add x y)) (SF2R x + SF2R y).
Proof.
  destruct x as [| | |sx mx ex], y as [| | |sy my ey]; try (simpl; tauto).
  intros Nx Ny Hx Hy.
  pose proof (normal_exp_lower _ _ _ Nx (proj1 Hx)).
  pose proof (normal_exp_lower _ _ _ Ny (proj1 Hy)).
  unfold SF64add, SFadd.
  set (ez := Z.min ex ey).
  assert (E : (IZR (cond_Zopp sx (Zpos (fst (shl_align mx ex ez)))
                    + cond_Zopp sy (Zpos (fst (shl_align my ey ez)))) * pw ez
               = SF2R (S754_finite sx mx ex) + SF2R (S754_finite sy my ey))%R).
  { rewrite plus_IZR, Rmult_plus_distr_r, !aligned_value by (unfold ez; lia).
    reflexivity. }
  rewrite <- E. apply binary_normalize_faithful; [unfold ez; lia|].
  rewrite E. apply Rle_trans with (1 := Rabs_triang _ _).
  apply Rle_trans with (r2 := (pw 900 + pw 900)%R); [lra|].
  rewrite pw_double. apply pw_le. lia.
Qed.

Lemma SFsub_faithful (x y : spec_float) :
  sf_normal x -> sf_normal y ->
  (pw (-960) <= Rabs (SF2R x) <= pw 900)%R ->
  (pw (-960) <= Rabs (SF2R y) <= pw 900)%R ->
  (sf_zero (SF64sub x y) \/ sf_normal (SF64sub x y)) /\
  close (SF2R (SF64sub x y)) (SF2R x - SF2R y).
Proof.
  destruct x as [| | |sx mx ex], y as [| | |sy my ey]; try (simpl; tauto).
  intros Nx Ny Hx Hy.
  pose proof (normal_exp_lower _ _ _ Nx (proj1 Hx)).
  pose proof (normal_exp_lower _ _ _ Ny (proj1 Hy)).
  unfold SF64sub, SFsub.
  set (ez := Z.min ex ey).
  assert (E : (IZR (cond_Zopp sx (Zpos (fst (shl_align mx ex ez)))
                    - cond_Zopp sy (Zpos (fst (shl_align my ey ez)))) * pw ez
               = SF2R (S754_finite sx mx ex) - SF2R (S754_finite sy my ey))%R).
  { rewrite minus_IZR, Rmult_minus_distr_r, !aligned_value by (unfold ez; lia).
    reflexivity. }
  rewrite <- E. apply binary_normalize_faithful; [unfold ez; lia|].
  rewrite E. unfold Rminus.
  apply Rle_trans with (1 := Rabs_triang _ _). rewrite Rabs_Ropp.
  apply Rle_trans with (r2 := (pw 900 + pw 900)%R); [lra|].
  rewrite pw_double. apply pw_le. lia.
Qed.

(** ** The operations of binary64 on normal numbers *)

Lemma fzero_B2R (x : float) : fzero x -> B2R x = 0%R.
Proof.
  unfold fzero, B2R. destruct (Prim2SF x); simpl; tauto.
Qed.

Lemma fnormal_B2R_nonzero (x : float) : fnormal x -> B2R x <> 0%R.
Proof.
  unfold fnormal, B2R. destruct (Prim2SF x) as [| | |s m e]; simpl; try tauto.
  intros _ H. pose proof (F2R_pos m e). destruct s; simpl in H; lra.
Qed.

Lemma mul_normal (x y : float) :
  fnormal x -> fnormal y ->
  (pw (-1000) <= Rabs (B2R x * B2R y) <= pw 1000)%R ->
  fnormal (x * y) /\ close (B2R (x * y)) (B2R x * B2R y).
Proof.
  unfold fnormal, B2R. rewrite mul_spec. apply SFmul_faithful.
Qed.

Lemma div_normal (x y : float) :
  fnormal x -> fnormal y ->
  (pw (-1000) <= Rabs (B2R x / B2R y) <= pw 1000)%R ->
  fnormal (x / y) /\ close (B2R (x / y)) (B2R x / B2R y).
Proof.
  unfold fnormal, B2R. rewrite div_spec. apply SFdiv_faithful.
Qed.

Lemma add_normal (x y : float) :
  fnormal x -> fnormal y ->
  (pw (-960) <= Rabs (B2R x) <= pw 900)%R ->
  (pw (-960) <= Rabs (B2R y) <= pw 900)%R ->
  (fzero (x + y) \/ fnormal (x + y)) /\
  close (B2R (x + y)) (B2R x + B2R y).
Proof.
  unfold fnormal, fzero, B2R. rewrite add_spec. apply SFadd_faithful.
Qed.

Lemma sub_normal (x y : float) :
  fnormal x -> fnormal y ->
  (pw (-960) <= Rabs (B2R x) <= pw 900)%R ->
  (pw (-960) <= Rabs (B2R y) <= pw 900)%R ->
  (fzero (x - y) \/ fnormal (x - y)) /\
  close (B2R (x - y)) (B2R x - B2R y).
Proof.
  unfold fnormal, fzero, B2R. rewrite sub_spec. apply SFsub_faithful.
Qed.

(** Operations with a zero operand are exact. *)
Lemma mul_zero_l (x y : float) :
  fzero x -> fnormal y -> fzero (x * y).
Proof.
  unfold fzero, fnormal. rewrite mul_spec. unfold SF64mul.
  destruct (Prim2SF x), (Prim2SF y); simpl; tauto.
Qed.

Lemma div_zero_l (x y : float) :
  fzero x -> fnormal y -> fzero (x / y).
Proof.
  unfold fzero, fnormal. rewrite div_spec. unfold SF64div.
  destruct (Prim2SF x), (Prim2SF y); simpl; tauto.
Qed.

Lemma add_zero_l (x y : float) :
  fzero x -> fnormal y -> fnormal (x + y) /\ B2R (x + y) = B2R y.
Proof.
  unfold fzero, fnormal, B2R. rewrite add_spec. unfold SF64add.
  destruct (Prim2SF x), (Prim2SF y); simpl; tauto.
Qed.

(** The tests that guard the operations. *)
Lemma Prim2SF_infinity : Prim2SF infinity = S754_infinity false.
Proof. reflexivity. Qed.

Lemma Prim2SF_zero : Prim2SF 0%float = S754_zero false.
Proof. reflexivity. Qed.

Lemma is_infinity_finite (x : float) :
  fzero x \/ fnormal x -> is_infinity x = false.
Proof.
  unfold fzero, fnormal, is_infinity.
  rewrite eqb_spec, abs_spec, Prim2SF_infinity.
  destruct (Prim2SF x); simpl; tauto.
Qed.

Lemma is_nan_finite (x : float) :
  fzero x \/ fnormal x -> is_nan x = false.
Proof.
  unfold fzero, fnormal, is_nan. rewrite eqb_spec.
  destruct (Prim2SF x) as [| | |s m e]; simpl; try tauto.
  intros _. unfold SFeqb, SFcompare.
  rewrite Z.compare_refl.
  change (Pos.compare_cont Eq m m) with (Pos.compare m m).
  rewrite Pos.compare_refl. now destruct s.
Qed.

Lemma eqb_zero_normal (x : float) :
  fnormal x -> (x =? 0)%float = false.
Proof.
  unfold fnormal. rewrite eqb_spec, Prim2SF_zero.
  destruct (Prim2SF x) as [| | |s m e]; simpl; try tauto.
  intros _. now destruct s.
Qed.

(** Converting back from the specification. *)
Lemma SF2Prim_normal (x : spec_float) :
  sf_normal x -> Prim2SF (SF2Prim x) = x.
Proof. intros H. apply Prim2SF_SF2Prim. now apply sf_normal_valid. Qed.

(** ** The conversions of Python on binary64 *)

Lemma SF2Prim_finite (x : spec_float) :
  sf_zero x \/ sf_normal x -> Prim2SF (SF2Prim x) = x.
Proof.
  intros [H|H]; [|now apply SF2Prim_normal].
  apply Prim2SF_SF2Prim. destruct x; simpl in *; tauto.
Qed.

Lemma close_nonzero (r V : R) : close r V -> V <> 0%R -> r <> 0%R.
Proof.
  unfold close. intros H HV Hr. subst r.
  replace (0 - V)%R with (- V)%R in H by ring. rewrite Rabs_Ropp in H.
  pose proof (Rabs_pos_lt V HV).
  assert (pw (-52) < 1)%R.
  { rewrite <- pw_0. apply pw_lt. lia. }
  nra.
Qed.

Lemma ffinite_nonzero (x : float) :
  ffinite x -> B2R x <> 0%R -> fnormal x.
Proof.
  intros [H|H] Hx; [|exact H]. now apply fzero_B2R in H.
Qed.

Lemma of_Z_round_spec (z : Z) :
  (Rabs (IZR z) <= pw 1000)%R ->
  ffinite (PyFloat.of_Z_round z) /\
  close (B2R (PyFloat.of_Z_round z)) (IZR z).
Proof.
  intros Hz. unfold PyFloat.of_Z_round, ffinite, fzero, fnormal, B2R.
  assert (H0 : (-1022 <= 0)%Z) by lia.
  assert (Hz' : (Rabs (IZR z * pw 0) <= pw 1000)%R)
    by (rewrite pw_0, Rmult_1_r; exact Hz).
  destruct (binary_normalize_faithful z 0 H0 Hz') as [Hf Hc].
  rewrite pw_0, Rmult_1_r in Hc.
  rewrite SF2Prim_finite by exact Hf. now split.
Qed.

Lemma of_Z_round_pos (z : Z) :
  0 < z -> (IZR z <= pw 1000)%R ->
  fnormal (PyFloat.of_Z_round z) /\
  close (B2R (PyFloat.of_Z_round z)) (IZR z).
Proof.
  intros Hp Hz. assert (0 < IZR z)%R by (now apply IZR_lt).
  destruct (of_Z_round_spec z) as [Hf Hc].
  { rewrite Rabs_pos_eq by lra. exact Hz. }
  split; [|exact Hc]. apply ffinite_nonzero; [exact Hf|].
  apply (close_nonzero _ _ Hc). lra.
Qed.

Lemma of_Z_round_0 : fzero (PyFloat.of_Z_round 0).
Proof. unfold fzero. now vm_compute. Qed.

Lemma float_of_int_spec (z : Z) :
  (Rabs (IZR z) <= pw 1000)%R ->
  PyFloat.float_of_int z = Ok (PyFloat.of_Z_round z).
Proof.
  intros Hz. unfold PyFloat.float_of_int.
  destruct (of_Z_round_spec z Hz) as [Hf _].
  now rewrite is_infinity_finite.
Qed.

(** Truncation. *)
Lemma trunc_spec (x : float) (i : Z) :
  ffinite x -> 0 <= i -> (IZR i <= B2R x < IZR i + 1)%R ->
  PyFloat.trunc x = i.
Proof.
  unfold ffinite, fzero, fnormal, B2R, PyFloat.trunc.
  destruct (Prim2SF x) as [s| | |s m e]; simpl; try tauto.
  - intros _ Hi [L U].
    assert (i < 1) by (apply lt_IZR; rewrite <- (Rplus_0_l 1) at 1; lra).
    lia.
  - intros [[]|[Hd He]] Hi [L U].
    pose proof (F2R_pos m e) as Hp.
    assert (0 <= IZR i)%R by (now apply IZR_le).
    destruct s; simpl in L, U; [lra|].
    rewrite Rmult_1_l in L, U. unfold F2R in L, U.
    destruct (Z.leb_spec 0 e) as [Le|Le].
    + rewrite Z.shiftl_mul_pow2 by lia.
      rewrite pw_IZR in L, U by lia. rewrite <- mult_IZR in L, U.
      apply le_IZR in L. rewrite <- plus_IZR in U. apply lt_IZR in U. lia.
    + rewrite Z.shiftr_div_pow2 by lia.
      set (k := - e) in *.
      assert (Hk : 0 < 2 ^ k) by (apply Z.pow_pos_nonneg; lia).
      assert (Hpw : (pw e = / IZR (2 ^ k))%R).
      { replace e with (- k) by (unfold k; lia).
        rewrite pw_neg. f_equal. apply pw_IZR. unfold k; lia. }
      assert (HK : (0 < IZR (2 ^ k))%R) by (now apply IZR_lt).
      rewrite Hpw in L, U.
      assert (L' : (IZR i * IZR (2 ^ k) <= IZR (Zpos m))%R).
      { apply (Rmult_le_compat_r (IZR (2 ^ k))) in L; [|lra].
        rewrite Rmult_assoc, Rinv_l, Rmult_1_r in L by lra. exact L. }
      assert (U' : (IZR (Zpos m) < (IZR i + 1) * IZR (2 ^ k))%R).
      { apply (Rmult_lt_compat_r (IZR (2 ^ k))) in U; [|lra].
        rewrite Rmult_assoc, Rinv_l, Rmult_1_r in U by lra. exact U. }
      rewrite <- mult_IZR in L'. apply le_IZR in L'.
      rewrite <- plus_IZR, <- mult_IZR in U'. apply lt_IZR in U'.
      symmetry. apply (Z.div_unique_pos _ _ _ (Zpos m - i * 2 ^ k)); lia.
Qed.

Lemma int_of_float_spec (x : float) (i : Z) :
  ffinite x -> 0 <= i -> (IZR i <= B2R x < IZR i + 1)%R ->
  PyFloat.int_of_float x = Ok i.
Proof.
  intros Hf Hi Hx. unfold PyFloat.int_of_float.
  rewrite is_nan_finite, is_infinity_finite by exact Hf.
  f_equal. now apply trunc_spec.
Qed.

(** The literal [0.5]. *)
Lemma half_normal : fnormal 0.5%float.
Proof. unfold fnormal. vm_compute. split; [reflexivity|split; discriminate]. Qed.

Lemma half_value : B2R 0.5%float = (/ 2)%R.
Proof.
  unfold B2R.
  change (Prim2SF 0.5%float) with (S754_finite false 4503599627370496 (- (53))).
  cbn [SF2R sgn]. unfold F2R.
  change 4503599627370496%Z with (2 ^ 52)%Z.
  rewrite <- pw_IZR by lia. rewrite Rmult_1_l, <- pw_add.
  replace (52 + - (53)) with (- (1)) by lia. rewrite pw_neg, pw_1. reflexivity.
Qed.

(** ** The quotient of two integers *)

Lemma int_truediv_spec (a b : Z) :
  0 < a <= 2 ^ 62 -> 0 < b <= 2 ^ 62 ->
  exists f, PyFloat.int_truediv a b = Ok f /\ fnormal f /\
    (Rabs (B2R f - IZR a / IZR b) <= pw (- (51)) * (IZR a / IZR b))%R.
Proof.
  intros Ha Hb. unfold PyFloat.int_truediv.
  destruct (Z.eqb_spec b 0) as [|_]; [lia|].
  destruct (Z.ltb_spec a 0) as [|_]; [lia|].
  destruct (Z.ltb_spec b 0) as [|_]; [lia|].
  destruct (Z.eqb_spec a 0) as [|_]; [lia|].
  cbn [xorb]. rewrite !Z.abs_eq by lia.
  set (k := Z.max 0 (Z.log2 b - Z.log2 a + 64)).
  set (N := a * 2 ^ k).
  pose proof (Z.log2_spec a ltac:(lia)) as [La Ua].
  pose proof (Z.log2_spec b ltac:(lia)) as [Lb Ub].
  pose proof (Z.log2_nonneg a) as Na. pose proof (Z.log2_nonneg b) as Nb.
  assert (Hlb : Z.log2 b <= 62).
  { destruct (Z_le_gt_dec (Z.log2 b) 62) as [|G]; [assumption|].
    assert (2 ^ 63 <= 2 ^ Z.log2 b) by (apply Z.pow_le_mono_r; lia).
    assert (2 ^ 62 < 2 ^ 63) by (apply Z.pow_lt_mono_r; lia). lia. }
  assert (Hla : Z.log2 a <= 62).
  { destruct (Z_le_gt_dec (Z.log2 a) 62) as [|G]; [assumption|].
    assert (2 ^ 63 <= 2 ^ Z.log2 a) by (apply Z.pow_le_mono_r; lia).
    assert (2 ^ 62 < 2 ^ 63) by (apply Z.pow_lt_mono_r; lia). lia. }
  assert (Hk0 : 0 <= k <= 126) by (unfold k; lia).
  assert (Hk1 : Z.log2 b + 64 <= Z.log2 a + k) by (unfold k; lia).
  assert (HK : 0 < 2 ^ k) by (apply Z.pow_pos_nonneg; lia).
  assert (HN : b * 2 ^ 63 <= N).
  { unfold N.
    assert (2 ^ (Z.log2 b + 64) <= 2 ^ (Z.log2 a + k))
      by (apply Z.pow_le_mono_r; lia).
    rewrite !Z.pow_add_r in H by lia.
    replace (Z.succ (Z.log2 b)) with (Z.log2 b + 1) in Ub by lia.
    rewrite Z.pow_add_r in Ub by lia.
    change (2 ^ 64) with (2 * 2 ^ 63) in H. change (2 ^ 1) with 2 in Ub.
    assert (2 ^ Z.log2 a * 2 ^ k <= a * 2 ^ k)
      by (apply Z.mul_le_mono_nonneg_r; lia).
    assert (b * 2 ^ 63 <= 2 ^ Z.log2 b * 2 * 2 ^ 63)
      by (apply Z.mul_le_mono_nonneg_r; lia).
    lia. }
  pose proof (Z.div_mod N b ltac:(lia)) as Hdm.
  pose proof (Z.mod_pos_bound N b ltac:(lia)) as Hr.
  set (q := N / b) in *. set (r := N mod b) in *.
  assert (Hq : 2 ^ 63 <= q).
  { unfold q. apply Z.div_le_lower_bound; lia. }
  assert (Hq2 : q <= a * 2 ^ k).
  { fold N. assert (q * 1 <= b * q) by nia. lia. }
  set (c := if r =? 0 then 0 else 1).
  assert (Hc : 0 <= c <= 1) by (unfold c; destruct (r =? 0); lia).
  set (m := 2 * q + c).
  assert (P63 : 0 < 2 ^ 63) by reflexivity.
  assert (Hm : 2 * 2 ^ 63 <= m) by (unfold m; lia).
  destruct m as [|p|p] eqn:Em; try lia.
  unfold binary_normalize.
  pose proof (digits_bounds p) as [Ld Ud].
  set (d := Zpos (digits2_pos p)) in *.
  assert (Hd1 : 65 <= d).
  { destruct (Z_le_gt_dec 65 d) as [|G]; [assumption|].
    assert (2 ^ d <= 2 ^ 64) by (apply Z.pow_le_mono_r; lia).
    change (2 ^ 64) with (2 * 2 ^ 63) in H. lia. }
  assert (Hd2 : d <= 64 + k).
  { destruct (Z_le_gt_dec d (64 + k)) as [|G]; [assumption|].
    assert (2 ^ (64 + k) <= 2 ^ (d - 1)) by (apply Z.pow_le_mono_r; lia).
    rewrite Z.pow_add_r in H by lia.
    assert (a * 2 ^ k <= 2 ^ 62 * 2 ^ k)
      by (apply Z.mul_le_mono_nonneg_r; lia).
    change (2 ^ 64) with (4 * 2 ^ 62) in H.
    assert (0 < 2 ^ 62 * 2 ^ k) by lia. lia. }
  destruct (binary_round_faithful false p (- k - 1)) as (m' & e' & Hbr & Hd' & He' & Hcl).
  { fold d. lia. }
  rewrite Hbr.
  assert (Hn : sf_normal (S754_finite false m' e')) by (split; assumption).
  set (f := SF2Prim (S754_finite false m' e')).
  assert (Hf : Prim2SF f = S754_finite false m' e') by (now apply SF2Prim_normal).
  assert (Hfn : fnormal f) by (unfold fnormal; now rewrite Hf).
  rewrite is_infinity_finite by (now right).
  exists f. split; [reflexivity|]. split; [exact Hfn|].
  unfold B2R. rewrite Hf. cbn [SF2R sgn]. rewrite Rmult_1_l.
  (* the value of the rounded quotient *)
  assert (RK : (0 < IZR (2 ^ k))%R) by (now apply IZR_lt).
  assert (Rb : (0 < IZR b)%R) by (apply IZR_lt; lia).
  assert (Ra : (0 < IZR a)%R) by (apply IZR_lt; lia).
  assert (Rr : (0 <= IZR r < IZR b)%R)
    by (split; [apply IZR_le|apply IZR_lt]; lia).
  assert (Rq : (IZR (2 ^ 63) <= IZR q)%R) by (now apply IZR_le).
  assert (RN : (IZR a * IZR (2 ^ k) = IZR b * IZR q + IZR r)%R).
  { rewrite <- !mult_IZR, <- plus_IZR. f_equal. exact Hdm. }
  assert (Rm : (IZR (Zpos p) = 2 * IZR q + IZR c)%R).
  { rewrite <- Em. unfold m. now rewrite plus_IZR, mult_IZR. }
  assert (Rc : (IZR c = 0 /\ IZR r = 0 \/ IZR c = 1 /\ 0 < IZR r)%R).
  { unfold c. destruct (Z.eqb_spec r 0) as [->|Hr0]; [left; split; reflexivity|].
    right. split; [reflexivity|]. apply IZR_lt. lia. }
  assert (HpE : (pw (- k - 1) = / (2 * IZR (2 ^ k)))%R).
  { replace (- k - 1) with (- (k + 1)) by lia.
    rewrite pw_neg, pw_add, pw_1, (pw_IZR k) by lia. f_equal. ring. }
  set (V := (IZR a / IZR b)%R).
  set (pE := pw (- k - 1)) in *.
  assert (PE : (0 < pE)%R) by apply pw_pos.
  assert (HpE' : (pE * (2 * IZR (2 ^ k)) = 1)%R).
  { rewrite HpE. apply Rinv_l. lra. }
  assert (HV : (V = (2 * IZR q + 2 * (IZR r / IZR b)) * pE)%R).
  { unfold V.
    replace (IZR a / IZR b)%R
      with (IZR a / IZR b * (pE * (2 * IZR (2 ^ k))))%R by (rewrite HpE'; ring).
    replace (IZR a / IZR b * (pE * (2 * IZR (2 ^ k))))%R
      with (2 * ((IZR a * IZR (2 ^ k)) / IZR b) * pE)%R by (field; lra).
    rewrite RN. field. lra. }
  set (t := (IZR r / IZR b)%R) in *.
  assert (Ht : (0 <= t < 1)%R).
  { unfold t. split.
    - apply Rmult_le_pos; [lra|]. left. now apply Rinv_0_lt_compat.
    - apply (Rmult_lt_reg_r (IZR b)); [lra|].
      unfold Rdiv. rewrite Rmult_assoc, Rinv_l by lra. lra. }
  assert (Ht0 : (IZR r = 0 -> t = 0)%R).
  { intros E0. unfold t. rewrite E0. unfold Rdiv. ring. }
  assert (Ht1 : (0 < IZR r -> 0 < t)%R).
  { intros E0. unfold t. apply Rmult_lt_0_compat; [lra|].
    now apply Rinv_0_lt_compat. }
  unfold F2R in *. fold pE in Hcl |- *.
  set (r' := (IZR (Zpos m') * pw e')%R) in *.
  rewrite Rm in Hcl.
  assert (P52 : (pw (- (51)) = 2 * pw (-52))%R).
  { replace (- (51)) with (1 + -52) by lia. now rewrite pw_add, pw_1. }
  assert (Q52 : (0 < pw (-52) < 1)%R).
  { split; [apply pw_pos|]. rewrite <- pw_0. apply pw_lt. lia. }
  assert (Q64 : (pE <= pw (-52) * (IZR q * pE) / 2)%R).
  { assert (pw 63 <= IZR q)%R by (rewrite (pw_IZR 63) by lia; exact Rq).
    assert (pw (-52) * pw 63 = pw 11)%R by (rewrite <- pw_add; f_equal).
    assert (pw 1 <= pw 11)%R by (apply pw_le; lia). rewrite pw_1 in H1.
    assert (pw 11 <= pw (-52) * IZR q)%R.
    { rewrite <- H0. apply Rmult_le_compat_l; lra. }
    assert (pE * 2 <= pE * (pw (-52) * IZR q))%R
      by (apply Rmult_le_compat_l; lra).
    lra. }
  rewrite P52. rewrite HV.
  assert (Dm : (Rabs ((2 * IZR q + IZR c) * pE
                      - (2 * IZR q + 2 * t) * pE) <= pE)%R).
  { replace ((2 * IZR q + IZR c) * pE - (2 * IZR q + 2 * t) * pE)%R
      with ((IZR c - 2 * t) * pE)%R by ring.
    rewrite Rabs_mult, (Rabs_pos_eq pE) by lra.
    rewrite <- (Rmult_1_l pE) at 2.
    apply Rmult_le_compat_r; [lra|].
    apply Rabs_le. destruct Rc as [[-> E0]|[-> E0]].
    - rewrite (Ht0 E0). lra.
    - pose proof (Ht1 E0). lra. }
  set (M := ((2 * IZR q + IZR c) * pE)%R) in *.
  set (W := ((2 * IZR q + 2 * t) * pE)%R) in *.
  assert (HW : (2 * (IZR q * pE) <= W)%R).
  { unfold W. assert (0 <= 2 * t * pE)%R.
    { apply Rmult_le_pos; lra. } lra. }
  assert (HqE : (0 < IZR q * pE)%R).
  { apply Rmult_lt_0_compat; [|lra].
    assert (0 < IZR (2 ^ 63))%R by (now apply IZR_lt). lra. }
  assert (HMW : (M <= W + pE)%R).
  { revert Dm. unfold Rabs. destruct Rcase_abs; lra. }
  replace (r' - W)%R with ((r' - M) + (M - W))%R by ring.
  eapply Rle_trans; [apply Rabs_triang|].
  assert (pw (-52) * M <= pw (-52) * (W + pE))%R
    by (apply Rmult_le_compat_l; lra).
  assert (pw (-52) * pE <= pE)%R.
  { rewrite <- (Rmult_1_l pE) at 2. apply Rmult_le_compat_r; lra. }
  assert (pw (-52) * (IZR q * pE) / 2 <= pw (-52) * W / 4)%R.
  { assert (pw (-52) * (2 * (IZR q * pE)) <= pw (-52) * W)%R
      by (apply Rmult_le_compat_l; lra). lra. }
  assert (0 <= pw (-52) * W)%R by (apply Rmult_le_pos; lra).
  lra.
Qed.

Local Open Scope R_scope.

(** ** Accumulated rounding errors of the round trip *)

Lemma pw_m52 : pw (-52) = E52.
Proof.
  change (-52)%Z with (- (52))%Z. rewrite pw_neg, (pw_IZR 52) by lia.
  reflexivity.
Qed.

Lemma close_factor (r V : R) :
  close r V -> exists x, near1 E52 x /\ r = V * x.
Proof.
  unfold close, near1. rewrite pw_m52. intros H.
  destruct (Req_dec V 0) as [->|HV].
  - exists 1. split.
    + replace (1 - 1) with 0 by ring. rewrite Rabs_R0. unfold E52. lra.
    + rewrite Rabs_R0, Rmult_0_r in H. rewrite Rminus_0_r in H.
      pose proof (Rabs_pos r). assert (Rabs r = 0) by lra.
      destruct (Req_dec r 0) as [->|N]; [ring|].
      apply Rabs_no_R0 in N. contradiction.
  - exists (r / V). split; [|field; exact HV].
    replace (r / V - 1) with ((r - V) * / V) by (field; exact HV).
    rewrite Rabs_mult, Rabs_inv.
    pose proof (Rabs_pos_lt V HV) as P.
    apply (Rmult_le_reg_r (Rabs V)); [exact P|].
    rewrite Rmult_assoc, Rinv_l by lra. lra.
Qed.

Lemma near1_bounds (a x : R) : near1 a x -> 1 - a <= x <= 1 + a.
Proof. unfold near1, Rabs. destruct Rcase_abs; lra. Qed.

Lemma near1_mul (a b c x y : R) :
  near1 a x -> near1 b y -> a + b + a * b <= c -> near1 c (x * y).
Proof.
  unfold near1. intros Hx Hy Hc.
  replace (x * y - 1) with ((x - 1) * (y - 1) + ((x - 1) + (y - 1))) by ring.
  eapply Rle_trans; [apply Rabs_triang|].
  rewrite Rabs_mult.
  pose proof (Rabs_triang (x - 1) (y - 1)).
  pose proof (Rabs_pos (x - 1)). pose proof (Rabs_pos (y - 1)).
  assert (Rabs (x - 1) * Rabs (y - 1) <= a * b)
    by (apply Rmult_le_compat; lra).
  lra.
Qed.

Lemma near1_inv (a c x : R) :
  near1 a x -> a <= / 2 -> 2 * a <= c -> near1 c (/ x).
Proof.
  intros Hx Ha Hc. pose proof (near1_bounds _ _ Hx) as [L U].
  unfold near1 in *.
  assert (Px : 0 < x) by lra.
  replace (/ x - 1) with ((1 - x) * / x) by (field; lra).
  rewrite Rabs_mult, Rabs_inv, (Rabs_pos_eq x) by lra.
  replace (1 - x) with (- (x - 1)) by ring. rewrite Rabs_Ropp.
  apply (Rmult_le_reg_r x); [exact Px|].
  rewrite Rmult_assoc, Rinv_l, Rmult_1_r by lra.
  pose proof (Rabs_pos (x - 1)).
  assert (2 * a * (1 - a) <= c * x).
  { apply Rmult_le_compat; try lra. }
  assert (a <= 2 * a * (1 - a)) by nra.
  lra.
Qed.

(** The time is divided by the duration it was multiplied with: the
    index comes back within 2^-17 of itself, in units of the frame
    separation. *)
Lemma forward_error (i x0 x1 x2 x3 x4 x5 x6 : R) :
  0 <= i <= 2147483648 ->
  near1 E52 x0 -> near1 E52 x1 -> near1 E52 x2 -> near1 E52 x3 ->
  near1 E52 x4 -> near1 E52 x5 -> near1 E52 x6 ->
  Rabs (((i * x2 * x3 + x1 / (2 * x0)) * x4 * x5 * x6 - x1 / (2 * x0)) - i)
  <= / 131072.
Proof.
  intros Hi H0 H1 H2 H3 H4 H5 H6.
  assert (He : E52 = / 4503599627370496) by reflexivity.
  assert (Hy : near1 (2 * E52) (/ x0)) by (apply (near1_inv _ _ _ H0); lra).
  assert (Hh : near1 (4 * E52) (x1 * / x0)).
  { apply (near1_mul _ _ _ _ _ H1 Hy). rewrite He. lra. }
  assert (Hw : near1 (3 * E52) (x2 * x3)).
  { apply (near1_mul _ _ _ _ _ H2 H3). rewrite He. lra. }
  assert (Hp' : near1 (3 * E52) (x4 * x5)).
  { apply (near1_mul _ _ _ _ _ H4 H5). rewrite He. lra. }
  assert (Hp : near1 (5 * E52) (x4 * x5 * x6)).
  { apply (near1_mul _ _ _ _ _ Hp' H6). rewrite He. lra. }
  assert (Hwp : near1 (9 * E52) (x2 * x3 * (x4 * x5 * x6))).
  { apply (near1_mul _ _ _ _ _ Hw Hp). rewrite He. lra. }
  pose proof (near1_bounds _ _ H0) as [L0 U0].
  assert (x0 <> 0) by (rewrite He in *; lra).
  set (h := x1 * / x0) in *. set (P := x4 * x5 * x6) in *.
  set (w := x2 * x3) in *.
  replace ((i * x2 * x3 + x1 / (2 * x0)) * x4 * x5 * x6 - x1 / (2 * x0) - i)
    with (i * (w * P - 1) + h / 2 * (P - 1)).
  2:{ unfold h, P, w. field. assumption. }
  eapply Rle_trans; [apply Rabs_triang|].
  rewrite !Rabs_mult. rewrite (Rabs_pos_eq i) by lra.
  pose proof (near1_bounds _ _ Hh) as [Lh Uh].
  rewrite (Rabs_pos_eq (h / 2)) by (rewrite He in *; lra).
  unfold near1 in Hwp, Hp.
  assert (i * Rabs (w * P - 1) <= 2147483648 * (9 * E52)).
  { apply Rmult_le_compat; try lra. apply Rabs_pos. }
  assert (h / 2 * Rabs (P - 1) <= 1 * (5 * E52)).
  { apply Rmult_le_compat; try (rewrite He in *; lra). apply Rabs_pos. }
  rewrite He in *. lra.
Qed.

Lemma backward_error (i Y x7 x8 x9 : R) :
  0 <= i <= 2147483648 ->
  Rabs (Y - i) <= / 131072 ->
  near1 E52 x7 -> near1 E52 x8 -> near1 E52 x9 ->
  i <= (Y * x7 * x8 + / 2) * x9 < i + 1.
Proof.
  intros Hi HY H7 H8 H9.
  assert (He : E52 = / 4503599627370496) by reflexivity.
  assert (Hq : near1 (3 * E52) (x7 * x8)).
  { apply (near1_mul _ _ _ _ _ H7 H8). rewrite He. lra. }
  set (Q := x7 * x8) in *.
  assert (LY : i - / 131072 <= Y <= i + / 131072).
  { revert HY. unfold Rabs. destruct Rcase_abs; lra. }
  assert (AY : Rabs Y <= 2147483649).
  { unfold Rabs. destruct Rcase_abs; lra. }
  assert (HX : Rabs (Y * Q - Y) <= 2147483649 * (3 * E52)).
  { replace (Y * Q - Y) with (Y * (Q - 1)) by ring. rewrite Rabs_mult.
    apply Rmult_le_compat; try apply Rabs_pos; [exact AY|exact Hq]. }
  assert (LX : Y - 2147483649 * (3 * E52) <= Y * Q
               <= Y + 2147483649 * (3 * E52)).
  { revert HX. unfold Rabs. destruct Rcase_abs; lra. }
  set (W := Y * Q + / 2) in *.
  replace (Y * x7 * x8) with (Y * Q) by (unfold Q; ring). fold W.
  assert (LW : 0 <= W <= 2147483649) by (unfold W; rewrite He in *; lra).
  assert (HZ : Rabs (W * x9 - W) <= 2147483649 * E52).
  { replace (W * x9 - W) with (W * (x9 - 1)) by ring. rewrite Rabs_mult.
    rewrite (Rabs_pos_eq W) by lra.
    apply Rmult_le_compat; try apply Rabs_pos; try lra. exact H9. }
  assert (LZ : W - 2147483649 * E52 <= W * x9 <= W + 2147483649 * E52).
  { revert HZ. unfold Rabs. destruct Rcase_abs; lra. }
  unfold W in *. rewrite He in *. lra.
Qed.

Local Close Scope R_scope.

(** ** Ranges of positive normal numbers *)

Lemma pw_half (a : Z) : (pw (a - 1) = pw a / 2)%R.
Proof.
  replace (a - 1) with (a + -1) by lia. rewrite pw_add, pw_m1. reflexivity.
Qed.

Lemma pw_twice (a : Z) : (pw (a + 1) = 2 * pw a)%R.
Proof. rewrite pw_add, pw_1. ring. Qed.

Lemma pw_sub (a b : Z) : (pw (a - b) = pw a / pw b)%R.
Proof.
  replace (a - b) with (a + - b) by lia. rewrite pw_add, pw_neg. reflexivity.
Qed.

Lemma E52_small : (0 < pw (-52) <= / 2)%R.
Proof.
  split; [apply pw_pos|]. rewrite <- pw_m1. apply pw_le. lia.
Qed.

Lemma close_refl (x : R) : close x x.
Proof.
  unfold close. replace (x - x)%R with 0%R by ring. rewrite Rabs_R0.
  pose proof E52_small. pose proof (Rabs_pos x).
  apply Rmult_le_pos; lra.
Qed.

Lemma close_abs (r V : R) :
  close r V -> (Rabs V / 2 <= Rabs r <= 2 * Rabs V)%R.
Proof.
  unfold close. intros H. pose proof E52_small as [E0 E1].
  pose proof (Rabs_pos V).
  assert (pw (-52) * Rabs V <= / 2 * Rabs V)%R
    by (apply Rmult_le_compat_r; lra).
  revert H H0 H1. unfold Rabs.
  destruct (Rcase_abs (r - V)), (Rcase_abs V), (Rcase_abs r); lra.
Qed.

Lemma close_pos (r V : R) :
  close r V -> (0 <= V)%R -> (V / 2 <= r <= 2 * V)%R.
Proof.
  unfold close. intros H HV. pose proof E52_small as [E0 E1].
  rewrite (Rabs_pos_eq V) in H by lra.
  assert (pw (-52) * V <= / 2 * V)%R
    by (apply Rmult_le_compat_r; lra).
  revert H H0. unfold Rabs. destruct (Rcase_abs (r - V)); lra.
Qed.

Lemma rng_weaken (a b a' b' : Z) (x : float) :
  rng a b x -> a' <= a -> b <= b' -> rng a' b' x.
Proof.
  intros [Hn [L U]] Ha Hb. split; [exact Hn|].
  pose proof (pw_le a' a Ha). pose proof (pw_le b b' Hb). lra.
Qed.

Lemma rng_pos (a b : Z) (x : float) : rng a b x -> (0 < B2R x)%R.
Proof. intros [_ [L _]]. pose proof (pw_pos a). lra. Qed.

Lemma mul_rng (a b c d : Z) (x y : float) :
  rng a b x -> rng c d y -> -1000 <= a + c -> b + d <= 1000 ->
  rng (a + c - 1) (b + d + 1) (x * y) /\
  close (B2R (x * y)) (B2R x * B2R y).
Proof.
  intros [Nx [Lx Ux]] [Ny [Ly Uy]] H1 H2.
  pose proof (pw_pos a). pose proof (pw_pos c).
  assert (L : (pw (a + c) <= B2R x * B2R y)%R)
    by (rewrite pw_add; apply Rmult_le_compat; lra).
  assert (U : (B2R x * B2R y <= pw (b + d))%R)
    by (rewrite pw_add; apply Rmult_le_compat; lra).
  pose proof (pw_pos (a + c)).
  pose proof (pw_le (-1000) (a + c) H1). pose proof (pw_le (b + d) 1000 H2).
  destruct (mul_normal x y Nx Ny) as [N C].
  { rewrite Rabs_pos_eq by lra. lra. }
  split; [|exact C]. split; [exact N|].
  apply close_pos in C; [|lra]. rewrite pw_half, pw_twice. lra.
Qed.

Lemma div_rng (a b c d : Z) (x y : float) :
  rng a b x -> rng c d y -> -1000 <= a - d -> b - c <= 1000 ->
  rng (a - d - 1) (b - c + 1) (x / y) /\
  close (B2R (x / y)) (B2R x / B2R y).
Proof.
  intros [Nx [Lx Ux]] [Ny [Ly Uy]] H1 H2.
  pose proof (pw_pos a). pose proof (pw_pos c). pose proof (pw_pos d).
  assert (Iy : (/ pw d <= / B2R y <= / pw c)%R).
  { split; apply Rinv_le_contravar; lra. }
  assert (0 < / pw d)%R by (apply Rinv_0_lt_compat; lra).
  assert (L : (pw (a - d) <= B2R x / B2R y)%R).
  { rewrite pw_sub. unfold Rdiv. apply Rmult_le_compat; lra. }
  assert (U : (B2R x / B2R y <= pw (b - c))%R).
  { rewrite pw_sub. unfold Rdiv. apply Rmult_le_compat; lra. }
  pose proof (pw_pos (a - d)).
  pose proof (pw_le (-1000) (a - d) H1). pose proof (pw_le (b - c) 1000 H2).
  destruct (div_normal x y Nx Ny) as [N C].
  { rewrite Rabs_pos_eq by lra. lra. }
  split; [|exact C]. split; [exact N|].
  apply close_pos in C; [|lra]. rewrite pw_half, pw_twice. lra.
Qed.

Lemma add_rng (a b c d e : Z) (x y : float) :
  rng a b x -> rng c d y ->
  -960 <= a -> b <= 900 -> -960 <= c -> d <= 900 ->
  b <= e - 2 -> d <= e - 2 ->
  rng (a - 1) e (x + y) /\ close (B2R (x + y)) (B2R x + B2R y).
Proof.
  intros [Nx [Lx Ux]] [Ny [Ly Uy]] Ha Hb Hc Hd Hbe Hde.
  pose proof (pw_pos a). pose proof (pw_pos c).
  pose proof (pw_le (-960) a Ha). pose proof (pw_le b 900 Hb).
  pose proof (pw_le (-960) c Hc). pose proof (pw_le d 900 Hd).
  destruct (add_normal x y Nx Ny) as [F C].
  { rewrite Rabs_pos_eq by lra. lra. }
  { rewrite Rabs_pos_eq by lra. lra. }
  pose proof C as C'. apply close_pos in C'; [|lra].
  pose proof (pw_le b (e - 2) Hbe). pose proof (pw_le d (e - 2) Hde).
  assert (pw e = 4 * pw (e - 2))%R.
  { replace e with (e - 2 + 1 + 1) at 1 by lia. rewrite !pw_twice. ring. }
  split; [|exact C]. split.
  - apply ffinite_nonzero; [exact F|]. lra.
  - rewrite pw_half. lra.
Qed.

(** ** The grid of the normal numbers above a bound *)

Lemma normal_grid (x : float) (g : Z) :
  fnormal x -> (pw (g + 53) <= Rabs (B2R x))%R ->
  exists k : Z, B2R x = (IZR k * pw g)%R.
Proof.
  unfold fnormal, B2R. destruct (Prim2SF x) as [| | |s m e]; try (simpl; tauto).
  intros [Hd He] H. rewrite SF2R_abs in H.
  pose proof (F2R_digits m e) as [_ U]. rewrite Hd in U.
  assert (g + 53 < 53 + e) by (apply pw_lt_inv; lra).
  exists ((if s then -1 else 1) * (Zpos m * 2 ^ (e - g))).
  cbn [SF2R]. unfold F2R. rewrite !mult_IZR, IZR_pow2 by lia.
  replace (pw e) with (pw (e - g) * pw g)%R
    by (rewrite <- pw_add; f_equal; lia).
  destruct s; simpl; ring.
Qed.

Lemma grid_difference (x y : float) (g : Z) :
  fnormal x -> fnormal y ->
  (pw (g + 53) <= Rabs (B2R x))%R -> (pw (g + 53) <= Rabs (B2R y))%R ->
  (B2R x - B2R y = 0 \/ pw g <= Rabs (B2R x - B2R y))%R.
Proof.
  intros Nx Ny Hx Hy.
  destruct (normal_grid x g Nx Hx) as [kx ->].
  destruct (normal_grid y g Ny Hy) as [ky ->].
  replace (IZR kx * pw g - IZR ky * pw g)%R with (IZR (kx - ky) * pw g)%R
    by (rewrite minus_IZR; ring).
  destruct (Z.eq_dec (kx - ky) 0) as [->|N].
  - left. ring.
  - right. rewrite Rabs_mult, (Rabs_pos_eq (pw g)) by (left; apply pw_pos).
    rewrite <- abs_IZR.
    assert (1 <= IZR (Z.abs (kx - ky)))%R by (apply IZR_le; lia).
    pose proof (pw_pos g).
    rewrite <- (Rmult_1_l (pw g)) at 1.
    apply Rmult_le_compat_r; lra.
Qed.

(** ** The errors of the round trip, on the values *)

Lemma forward_real (i S Dv Two O FI A B T A' : R) :
  (0 < S)%R -> (0 < Dv)%R -> (0 <= i <= 2147483648)%R ->
  close Two 2 -> close O (S / Two) -> close FI i -> close A (FI * S) ->
  close B (A + O) -> close T (B * Dv) -> close A' (T / Dv) ->
  (Rabs ((A' - O) - i * S) <= S / 131072)%R.
Proof.
  intros HS HD Hi H0 H1 H2 H3 H4 H5 H6.
  destruct (close_factor _ _ H0) as (x0 & N0 & ->).
  destruct (close_factor _ _ H1) as (x1 & N1 & ->).
  destruct (close_factor _ _ H2) as (x2 & N2 & ->).
  destruct (close_factor _ _ H3) as (x3 & N3 & ->).
  destruct (close_factor _ _ H4) as (x4 & N4 & ->).
  destruct (close_factor _ _ H5) as (x5 & N5 & ->).
  destruct (close_factor _ _ H6) as (x6 & N6 & ->).
  pose proof (near1_bounds _ _ N0) as [L0 U0].
  assert (X0 : x0 <> 0%R) by (unfold E52 in *; lra).
  replace ((i * x2 * S * x3 + S / (2 * x0) * x1) * x4 * Dv * x5 / Dv * x6
           - S / (2 * x0) * x1 - i * S)%R
    with (S * (((i * x2 * x3 + x1 / (2 * x0)) * x4 * x5 * x6
                - x1 / (2 * x0)) - i))%R by (field; split; lra).
  rewrite Rabs_mult, (Rabs_pos_eq S) by lra.
  unfold Rdiv. apply Rmult_le_compat_l; [lra|].
  now apply forward_error.
Qed.

Lemma backward_real (i S X B' C Z : R) :
  (0 < S)%R -> (0 <= i <= 2147483648)%R ->
  (Rabs (X - i * S) <= S / 131072)%R ->
  close B' X -> close C (B' / S) -> close Z (C + / 2) ->
  (i <= Z < i + 1)%R.
Proof.
  intros HS Hi HX H7 H8 H9.
  destruct (close_factor _ _ H7) as (x7 & N7 & ->).
  destruct (close_factor _ _ H8) as (x8 & N8 & ->).
  destruct (close_factor _ _ H9) as (x9 & N9 & ->).
  replace (X * x7 / S * x8)%R with (X / S * x7 * x8)%R by (field; lra).
  apply backward_error; try assumption.
  replace (X / S - i)%R with ((X - i * S) * / S)%R by (field; lra).
  rewrite Rabs_mult, Rabs_inv, (Rabs_pos_eq S) by lra.
  apply (Rmult_le_reg_r S); [exact HS|].
  rewrite Rmult_assoc, Rinv_l, Rmult_1_r by lra.
  lra.
Qed.

(** ** The round trip on binary64 numbers *)

Lemma two_rng : rng 0 2 (PyFloat.of_Z_round 2).
Proof.
  destruct (of_Z_round_pos 2) as [N C]; [lia| |].
  { rewrite <- pw_1. apply pw_le. lia. }
  split; [exact N|]. apply close_pos in C; [|lra].
  assert (pw 2 = 4)%R by (rewrite (pw_IZR 2) by lia; reflexivity).
  rewrite pw_0. lra.
Qed.

Lemma two_close : close (B2R (PyFloat.of_Z_round 2)) 2.
Proof.
  destruct (of_Z_round_pos 2) as [N C]; [lia| |exact C].
  rewrite <- pw_1. apply pw_le. lia.
Qed.

Lemma half_close (x : float) (V : R) :
  fzero x -> V = 0%R ->
  ffinite (x + 0.5) /\ close (B2R (x + 0.5)) (V + / 2).
Proof.
  intros Hz ->. destruct (add_zero_l x 0.5%float Hz half_normal) as [N E].
  split; [now right|]. rewrite E, half_value, Rplus_0_l. apply close_refl.
Qed.

Lemma index_float (i : Z) (s o : float) :
  0 <= i <= 2 ^ 31 -> rng (-33) 1 s -> rng (-36) 2 o ->
  let fi := PyFloat.of_Z_round i in
  let a := (fi * s)%float in
  let b := (a + o)%float in
  close (B2R fi) (IZR i) /\ close (B2R a) (B2R fi * B2R s) /\
  close (B2R b) (B2R a + B2R o) /\ rng (-37) 37 b.
Proof.
  intros Hi Hs Ho fi a b.
  destruct (Z.eq_dec i 0) as [->|Hn].
  - assert (Z0 : fzero fi) by apply of_Z_round_0.
    destruct Hs as [Ns Rs].
    assert (Za : fzero a) by (now apply mul_zero_l).
    destruct (add_zero_l a o Za (proj1 Ho)) as [Nb Eb].
    fold b in Nb, Eb.
    rewrite (fzero_B2R fi Z0), (fzero_B2R a Za), Eb, Rmult_0_l, Rplus_0_l.
    repeat split; try apply close_refl; try exact Nb;
      destruct Ho as [_ [L U]].
    + pose proof (pw_le (-37) (-36) ltac:(lia)). lra.
    + pose proof (pw_le 2 37 ltac:(lia)). lra.
  - destruct (of_Z_round_pos i) as [Ni Ci]; [lia| |].
    { apply Rle_trans with (IZR (2 ^ 31)); [apply IZR_le; lia|].
      rewrite IZR_pow2 by lia. apply pw_le. lia. }
    fold fi in Ni, Ci.
    assert (Ri : rng (-1) 32 fi).
    { split; [exact Ni|]. pose proof Ci as C. apply close_pos in C.
      2:{ apply IZR_le. lia. }
      assert (1 <= IZR i)%R by (apply IZR_le; lia).
      assert (IZR i <= pw 31)%R
        by (rewrite (pw_IZR 31) by lia; apply IZR_le; lia).
      rewrite pw_m1. replace 32 with (31 + 1) by lia. rewrite pw_twice.
      lra. }
    destruct (mul_rng (-1) 32 (-33) 1 fi s Ri Hs) as [Ra Ca]; try lia.
    change (rng (-35) 34 a) in Ra. fold a in Ca.
    destruct (add_rng (-35) 34 (-36) 2 36 a o Ra Ho) as [Rb Cb]; try lia.
    change (rng (-36) 36 b) in Rb. fold b in Cb.
    split; [exact Ci|]. split; [exact Ca|]. split; [exact Cb|].
    apply (rng_weaken _ _ _ _ _ Rb); lia.
Qed.

Lemma round_trip_floats (i : Z) (s d : float) :
  0 <= i <= 2 ^ 31 -> rng (-33) 1 s -> rng (-900) 900 d ->
  let two := PyFloat.of_Z_round 2 in
  let o := (s / two)%float in
  let t := ((PyFloat.of_Z_round i * s + o) * d)%float in
  let z := ((t / d - o) / s + 0.5)%float in
  ffinite z /\ (IZR i <= B2R z < IZR i + 1)%R.
Proof.
  intros Hi Hs Hd two o t z.
  pose proof two_rng as R2. pose proof two_close as C2. fold two in R2, C2.
  destruct (div_rng (-33) 1 0 2 s two Hs R2) as [Ro Co]; try lia.
  change (rng (-36) 2 o) in Ro. fold o in Co.
  destruct (index_float i s o Hi Hs Ro) as (Ci & Ca & Cb & Rb).
  set (fi := PyFloat.of_Z_round i) in *.
  set (a := (fi * s)%float) in *. set (b := (a + o)%float) in *.
  destruct (mul_rng (-37) 37 (-900) 900 b d Rb Hd) as [Rt Ct]; try lia.
  change (rng (-938) 938 t) in Rt. fold t in Ct.
  pose proof (rng_pos _ _ _ Hs) as PS. pose proof (rng_pos _ _ _ Hd) as PD.
  pose proof (rng_pos _ _ _ Rb) as PB.
  (* the time divided by the duration *)
  assert (Qt : (B2R b / 2 <= B2R t / B2R d <= 2 * B2R b)%R).
  { pose proof Ct as C. apply close_pos in C.
    2:{ apply Rmult_le_pos; lra. }
    destruct C as [L U]. split.
    - apply (Rmult_le_reg_r (B2R d)); [exact PD|].
      unfold Rdiv at 2. rewrite Rmult_assoc, Rinv_l by lra. lra.
    - apply (Rmult_le_reg_r (B2R d)); [exact PD|].
      unfold Rdiv. rewrite Rmult_assoc, Rinv_l by lra. lra. }
  destruct Rb as [Nb [Lb Ub]].
  assert (P38 : (pw (-38) = pw (-37) / 2 /\ pw 38 = 2 * pw 37)%R).
  { split; [apply (pw_half (-37))|apply (pw_twice 37)]. }
  assert (P39 : (pw (-39) = pw (-38) / 2 /\ pw 39 = 2 * pw 38)%R).
  { split; [apply (pw_half (-38))|apply (pw_twice 38)]. }
  pose proof (pw_pos (-37)) as P37.
  destruct (div_normal t d (proj1 Rt) (proj1 Hd)) as [Na' Ca'].
  { rewrite Rabs_pos_eq by lra.
    pose proof (pw_le (-1000) (-38) ltac:(lia)).
    pose proof (pw_le 38 1000 ltac:(lia)). lra. }
  set (a' := (t / d)%float) in *.
  assert (Ra' : rng (-39) 39 a').
  { split; [exact Na'|]. pose proof Ca' as C. apply close_pos in C; lra. }
  (* back to the index *)
  assert (Hfw : (Rabs ((B2R a' - B2R o) - IZR i * B2R s) <= B2R s / 131072)%R).
  { apply (forward_real (IZR i) (B2R s) (B2R d) (B2R two) (B2R o) (B2R fi)
             (B2R a) (B2R b) (B2R t) (B2R a')); try assumption.
    split; [apply IZR_le; lia|].
    change 2147483648%R with (IZR (2 ^ 31)). apply IZR_le. lia. }
  assert (Ri : (0 <= IZR i <= 2147483648)%R).
  { split; [apply IZR_le; lia|].
    change 2147483648%R with (IZR (2 ^ 31)). apply IZR_le. lia. }
  destruct Hs as [Ns [Ls Us]]. destruct Ro as [No [Lo Uo]].
  destruct Ra' as [_ [La' Ua']].
  pose proof (pw_pos (-36)) as P36. pose proof (pw_pos (-39)) as P39'.
  pose proof (pw_pos (-33)) as P33.
  destruct (sub_normal a' o Na' No) as [Fb' Cb'].
  { rewrite Rabs_pos_eq by lra.
    pose proof (pw_le (-960) (-39) ltac:(lia)).
    pose proof (pw_le 39 900 ltac:(lia)). lra. }
  { rewrite Rabs_pos_eq by lra.
    pose proof (pw_le (-960) (-36) ltac:(lia)).
    pose proof (pw_le 2 900 ltac:(lia)). lra. }
  set (b' := (a' - o)%float) in *.
  assert (Hz : ffinite z /\ close (B2R ((b' / s)%float)) (B2R b' / B2R s)
               /\ close (B2R z) (B2R ((b' / s)%float) + / 2)).
  { destruct Fb' as [Zb'|Nb'].
    - assert (Zc : fzero (b' / s)) by (now apply div_zero_l).
      rewrite (fzero_B2R _ Zc), (fzero_B2R _ Zb').
      unfold Rdiv. rewrite Rmult_0_l.
      destruct (half_close (b' / s)%float 0%R Zc eq_refl) as [Fz Cz].
      repeat split; [exact Fz|apply close_refl|exact Cz].
    - pose proof (fnormal_B2R_nonzero _ Nb') as NZ.
      assert (HX : (pw (-92) <= Rabs (B2R a' - B2R o))%R).
      { destruct (grid_difference a' o (-92) Na' No) as [E0|G].
        - rewrite Rabs_pos_eq by lra.
          apply Rle_trans with (pw (-39)); [apply pw_le; lia|lra].
        - rewrite Rabs_pos_eq by lra.
          apply Rle_trans with (pw (-36)); [apply pw_le; lia|lra].
        - exfalso. apply NZ. rewrite E0 in Cb'.
          unfold close in Cb'. rewrite Rabs_R0, Rmult_0_r, Rminus_0_r in Cb'.
          pose proof (Rabs_pos (B2R b')).
          destruct (Req_dec (B2R b') 0) as [|N]; [assumption|].
          apply Rabs_no_R0 in N. lra.
        - exact G. }
      assert (HU : (Rabs (B2R a' - B2R o) <= pw 33)%R).
      { assert (IZR i * B2R s <= 2147483648 * pw 1)%R
          by (apply Rmult_le_compat; lra).
        assert (0 <= IZR i * B2R s)%R by (apply Rmult_le_pos; lra).
        rewrite pw_1 in *.
        assert (pw 33 = 8589934592)%R by (rewrite (pw_IZR 33) by lia; reflexivity).
        revert Hfw. unfold Rabs.
        destruct (Rcase_abs (B2R a' - B2R o - IZR i * B2R s)),
          (Rcase_abs (B2R a' - B2R o)); lra. }
      pose proof (close_abs _ _ Cb') as [Lb' Ub'].
      assert (Is : (/ pw 1 <= / B2R s <= / pw (-33))%R).
      { split; apply Rinv_le_contravar; lra. }
      assert (Q : (pw (-94) <= Rabs (B2R b' / B2R s) <= pw 67)%R).
      { unfold Rdiv. rewrite Rabs_mult, Rabs_inv, (Rabs_pos_eq (B2R s)) by lra.
        pose proof (pw_pos (-92)). pose proof (pw_pos 1).
        assert (0 < / pw 1)%R by (apply Rinv_0_lt_compat; lra).
        split.
        - replace (-94) with (-92 - 1 - 1) by lia.
          rewrite pw_sub, pw_half. unfold Rdiv.
          apply Rmult_le_compat; lra.
        - replace 67 with (33 + 1 - -33) by lia.
          rewrite pw_sub, pw_twice. unfold Rdiv.
          apply Rmult_le_compat; try lra; apply Rabs_pos. }
      destruct (div_normal b' s Nb' Ns) as [Nc Cc].
      { pose proof (pw_le (-1000) (-94) ltac:(lia)).
        pose proof (pw_le 67 1000 ltac:(lia)). lra. }
      pose proof (close_abs _ _ Cc) as [Lc Uc].
      destruct (add_normal (b' / s) 0.5 Nc half_normal) as [Fz Cz].
      { pose proof (pw_half (-94)) as E1. replace (-94 - 1) with (-95) in E1 by lia.
        pose proof (pw_twice 67) as E2. replace (67 + 1) with 68 in E2 by lia.
        pose proof (pw_le (-960) (-95) ltac:(lia)).
        pose proof (pw_le 68 900 ltac:(lia)). lra. }
      { rewrite half_value, Rabs_pos_eq by lra. rewrite <- pw_m1.
        split; apply pw_le; lia. }
      rewrite half_value in Cz.
      repeat split; assumption. }
  destruct Hz as (Fz & Cc & Cz). split; [exact Fz|].
  apply (backward_real (IZR i) (B2R s) (B2R a' - B2R o) (B2R b')
           (B2R (b' / s)%float) (B2R z)); assumption.
Qed.

(** ** The round trip in Python's arithmetic *)

Lemma IZR_le_pw (z k : Z) : 0 <= k -> z <= 2 ^ k -> (IZR z <= pw k)%R.
Proof. intros Hk Hz. rewrite (pw_IZR k Hk). now apply IZR_le. Qed.

Lemma Rabs_IZR_pw (z k : Z) :
  0 <= z <= 2 ^ k -> 0 <= k <= 1000 -> (Rabs (IZR z) <= pw 1000)%R.
Proof.
  intros Hz Hk. rewrite Rabs_pos_eq by (apply IZR_le; lia).
  apply Rle_trans with (pw k); [apply IZR_le_pw; lia|apply pw_le; lia].
Qed.

Lemma truediv_float_int (x : float) (z : Z) :
  0 < z <= 2 ^ 62 ->
  PyNum.truediv (PyFloat x) (PyInt z)
  = Ok (PyFloat (x / PyFloat.of_Z_round z)).
Proof.
  intros Hz. unfold PyNum.truediv, PyNum.to_float. cbn [rbind].
  rewrite float_of_int_spec by (apply (Rabs_IZR_pw z 62); lia).
  cbn [rbind]. unfold PyFloat.float_truediv.
  destruct (of_Z_round_pos z) as [N _]; [lia| |].
  { apply Rle_trans with (pw 62); [apply IZR_le_pw; lia|apply pw_le; lia]. }
  now rewrite (eqb_zero_normal _ N).
Qed.

Lemma truediv_int_float (z : Z) (y : float) :
  0 <= z <= 2 ^ 62 -> fnormal y ->
  PyNum.truediv (PyInt z) (PyFloat y)
  = Ok (PyFloat (PyFloat.of_Z_round z / y)).
Proof.
  intros Hz N. unfold PyNum.truediv, PyNum.to_float.
  rewrite float_of_int_spec by (apply (Rabs_IZR_pw z 62); lia).
  cbn [rbind]. unfold PyFloat.float_truediv.
  now rewrite (eqb_zero_normal _ N).
Qed.

Lemma truediv_float_float (x y : float) :
  fnormal y -> PyNum.truediv (PyFloat x) (PyFloat y) = Ok (PyFloat (x / y)).
Proof.
  intros N. unfold PyNum.truediv, PyNum.to_float. cbn [rbind].
  unfold PyFloat.float_truediv. now rewrite (eqb_zero_normal _ N).
Qed.

Lemma mul_int_float (z : Z) (y : float) :
  0 <= z <= 2 ^ 62 ->
  PyNum.mul (PyInt z) (PyFloat y) = Ok (PyFloat (PyFloat.of_Z_round z * y)).
Proof.
  intros Hz. unfold PyNum.mul, PyNum.binop, PyNum.to_float.
  rewrite float_of_int_spec by (apply (Rabs_IZR_pw z 62); lia).
  reflexivity.
Qed.

(** The frame separation and the duration. *)
Lemma frame_separation_rng (n : Z) :
  0 < n <= 2 ^ 31 ->
  exists s, PyFloat.int_truediv 1 n = Ok s /\ rng (-33) 1 s.
Proof.
  intros Hn. destruct (int_truediv_spec 1 n) as (s & E & N & C); try lia.
  exists s. split; [exact E|]. split; [exact N|].
  assert (Rn : (1 <= IZR n <= pw 31)%R).
  { split; [apply IZR_le; lia|apply IZR_le_pw; lia]. }
  assert (Q : (pw (- (31)) <= 1 / IZR n <= 1)%R).
  { rewrite pw_neg. unfold Rdiv. rewrite Rmult_1_l. split.
    - apply Rinv_le_contravar; lra.
    - rewrite <- Rinv_1. apply Rinv_le_contravar; lra. }
  set (V := (1 / IZR n)%R) in *.
  pose proof E52_small as [E0 E1].
  assert (pw (- (51)) <= / 2)%R by (rewrite <- pw_m1; apply pw_le; lia).
  pose proof (pw_pos (- (51))). pose proof (pw_pos (- (31))).
  assert (pw (- (51)) * V <= / 2 * V)%R by (apply Rmult_le_compat_r; lra).
  replace (-33) with (- (31) - 1 - 1) by lia. rewrite !pw_half, pw_1.
  revert C. unfold Rabs. destruct Rcase_abs; lra.
Qed.

Lemma duration_rng (n f : Z) :
  0 < n <= 2 ^ 31 -> 0 < f <= 2 ^ 62 ->
  exists d, PyFloat.int_truediv n f = Ok d /\ rng (-900) 900 d.
Proof.
  intros Hn Hf. destruct (int_truediv_spec n f) as (d & E & N & C); try lia.
  exists d. split; [exact E|]. split; [exact N|].
  assert (Rn : (1 <= IZR n <= pw 31)%R).
  { split; [apply IZR_le; lia|apply IZR_le_pw; lia]. }
  assert (Rf : (1 <= IZR f <= pw 62)%R).
  { split; [apply IZR_le; lia|apply IZR_le_pw; lia]. }
  assert (If : (/ pw 62 <= / IZR f <= 1)%R).
  { split; [apply Rinv_le_contravar; lra|].
    rewrite <- Rinv_1. apply Rinv_le_contravar; lra. }
  pose proof (pw_pos 62). assert (0 < / pw 62)%R by (now apply Rinv_0_lt_compat).
  assert (Q : (pw (- (62)) <= IZR n / IZR f <= pw 31)%R).
  { rewrite pw_neg. unfold Rdiv. split.
    - rewrite <- (Rmult_1_l (/ pw 62)). apply Rmult_le_compat; lra.
    - rewrite <- (Rmult_1_r (pw 31)). apply Rmult_le_compat; lra. }
  set (V := (IZR n / IZR f)%R) in *.
  assert (pw (- (51)) <= / 2)%R by (rewrite <- pw_m1; apply pw_le; lia).
  pose proof (pw_pos (- (51))). pose proof (pw_pos (- (62))).
  assert (pw (- (51)) * V <= / 2 * V)%R by (apply Rmult_le_compat_r; lra).
  pose proof (pw_half (- (62))) as P1.
  pose proof (pw_twice 31) as P2.
  pose proof (pw_le (-900) (- (62) - 1) ltac:(lia)).
  pose proof (pw_le (31 + 1) 900 ltac:(lia)).
  revert C. unfold Rabs. destruct Rcase_abs; lra.
Qed.

Lemma round_trip_steps (n i : Z) (fps : pynum) (s d : float) :
  0 <= i <= 2 ^ 31 ->
  PyNum.truediv (PyInt n) fps = Ok (PyFloat d) ->
  PyFloat.int_truediv 1 n = Ok s ->
  rng (-33) 1 s -> rng (-900) 900 d ->
  frame_round_trip (A := python_arith) n (PyInt i) fps = Ok i.
Proof.
  intros Hi Ed Es Rs Rd.
  destruct (round_trip_floats i s d Hi Rs Rd) as [Fz Bz].
  unfold frame_round_trip, getTimeForFrameIndex, getFrameIndexForTime.
  cbn [truediv mul add sub of_int lit_half to_int python_arith].
  rewrite Ed. cbn [rbind].
  change (PyNum.truediv (PyInt 1) (PyInt n))
    with (rbind (PyFloat.int_truediv 1 n) (fun f => Ok (PyFloat f))).
  rewrite Es. cbn [rbind].
  rewrite truediv_float_int by (split; [lia|vm_compute; discriminate]).
  cbn [rbind].
  rewrite mul_int_float by (split; [lia|]; apply Z.le_trans with (2 ^ 31);
    [lia|apply Z.pow_le_mono_r; lia]).
  cbn [rbind]. cbn [PyNum.add PyNum.mul PyNum.sub PyNum.binop PyNum.to_float rbind].
  rewrite !truediv_float_float by (apply Rd || apply Rs).
  cbn [rbind]. cbn [PyNum.add PyNum.mul PyNum.sub PyNum.binop PyNum.to_float rbind].
  rewrite truediv_float_float by apply Rs.
  cbn [rbind]. cbn [PyNum.add PyNum.mul PyNum.sub PyNum.binop PyNum.to_float rbind].
  cbn [PyNum.to_int].
  apply int_of_float_spec; [exact Fz|lia|exact Bz].
Qed.

Lemma round_trip_integer_rate (n i f : Z) :
  0 < n <= 2 ^ 31 -> 0 <= i < n -> 0 < f <= 2 ^ 62 ->
  frame_round_trip (A := python_arith) n (PyInt i) (PyInt f) = Ok i.
Proof.
  intros Hn Hi Hf.
  destruct (frame_separation_rng n Hn) as (s & Es & Rs).
  destruct (duration_rng n f Hn Hf) as (d & Ed & Rd).
  apply (round_trip_steps n i (PyInt f) s d); try assumption; [lia|].
  cbn [PyNum.truediv]. rewrite Ed. reflexivity.
Qed.

(** ** Rates given as floats *)

Lemma Prim2SF_rate_min :
  Prim2SF rate_min = S754_finite false 4503599627370496 (- (852)).
Proof. reflexivity. Qed.

Lemma Prim2SF_rate_max :
  Prim2SF rate_max = S754_finite false 4503599627370496 748.
Proof. reflexivity. Qed.

Lemma float_rate_rng (f : float) :
  (rate_min <=? f)%float = true -> (f <=? rate_max)%float = true ->
  rng (-800) 800 f.
Proof.
  rewrite !leb_spec, Prim2SF_rate_min, Prim2SF_rate_max.
  pose proof (Prim2SF_valid f) as V.
  unfold rng, fnormal, B2R.
  destruct (Prim2SF f) as [s|s| |s m e]; try (destruct s; discriminate);
    try discriminate.
  unfold SFleb, SFcompare. destruct s; [discriminate|].
  intros L U.
  assert (He : - (852) <= e <= 748).
  { split.
    - revert L. destruct (Z.compare_spec (- (852)) e); intros L;
        try lia; discriminate.
    - revert U. destruct (Z.compare_spec e 748); intros U;
        try lia; discriminate. }
  unfold valid_binary, SpecFloat.valid_binary, SpecFloat.bounded,
    SpecFloat.canonical_mantissa in V.
  apply andb_prop in V. destruct V as [V _]. apply Z.eqb_eq in V.
  unfold fexp, emin, prec, emax in V.
  assert (Hd : Zpos (digits2_pos m) = 53) by lia.
  pose proof (digits_bounds m) as [Lm Um]. rewrite Hd in Lm, Um.
  split; [cbn [sf_normal]; lia|].
  cbn [SF2R sgn]. rewrite Rmult_1_l. unfold F2R.
  pose proof (pw_pos e) as Pe.
  assert (Rm : (pw 52 <= IZR (Zpos m))%R).
  { rewrite (pw_IZR 52) by lia. apply IZR_le. exact Lm. }
  pose proof (pw_pos 52).
  split.
  - replace (-800) with (52 + - (852)) by lia. rewrite pw_add.
    pose proof (pw_pos (- (852))).
    apply Rmult_le_compat; try lra. apply pw_le. lia.
  - destruct (Z.eq_dec e 748) as [->|Ne].
    + rewrite Z.compare_refl in U.
      assert (Zpos m <= 4503599627370496).
      { change (Zpos m <= Zpos 4503599627370496).
        unfold Z.le. simpl. unfold Pos.compare.
        destruct (Pos.compare_cont Eq m 4503599627370496); congruence. }
      replace 800 with (52 + 748) by lia. rewrite pw_add.
      apply Rmult_le_compat_r; [lra|].
      rewrite (pw_IZR 52) by lia. now apply IZR_le.
    + replace 800 with (53 + 747) by lia. rewrite pw_add.
      assert (0 <= IZR (Zpos m))%R by (apply IZR_le; lia).
      assert (IZR (Zpos m) <= pw 53)%R
        by (rewrite (pw_IZR 53) by lia; apply IZR_le; lia).
      apply Rmult_le_compat; try lra. apply pw_le. lia.
Qed.

Lemma float_of_frame_count (n : Z) :
  0 < n <= 2 ^ 31 -> rng (-1) 32 (PyFloat.of_Z_round n).
Proof.
  intros Hn. destruct (of_Z_round_pos n) as [N C]; [lia| |].
  { apply Rle_trans with (pw 31); [apply IZR_le_pw; lia|apply pw_le; lia]. }
  split; [exact N|]. apply close_pos in C; [|apply IZR_le; lia].
  assert (1 <= IZR n)%R by (apply IZR_le; lia).
  assert (IZR n <= pw 31)%R by (apply IZR_le_pw; lia).
  rewrite pw_m1. pose proof (pw_twice 31). 
  replace (31 + 1) with 32 in * by lia. lra.
Qed.

Lemma round_trip_float_rate (n i : Z) (f : float) :
  0 < n <= 2 ^ 31 -> 0 <= i < n ->
  (rate_min <=? f)%float = true -> (f <=? rate_max)%float = true ->
  frame_round_trip (A := python_arith) n (PyInt i) (PyFloat f) = Ok i.
Proof.
  intros Hn Hi Lf Uf.
  pose proof (float_rate_rng f Lf Uf) as Rf.
  destruct (frame_separation_rng n Hn) as (s & Es & Rs).
  pose proof (float_of_frame_count n Hn) as Rn.
  destruct (div_rng (-1) 32 (-800) 800 _ _ Rn Rf) as [Rd _]; try lia.
  apply (round_trip_steps n i (PyFloat f) s (PyFloat.of_Z_round n / f));
    try assumption; [lia| |].
  - apply truediv_int_float; [|apply Rf].
    split; [lia|]. apply Z.le_trans with (2 ^ 31); [lia|].
    apply Z.pow_le_mono_r; lia.
  - apply (rng_weaken _ _ _ _ _ Rd); lia.
Qed.

Set Implicit Arguments.

(** The rates in range, of either type. *)
Lemma python_round_trip (n i : Z) (fps : pynum) :
  0 < n <= 2 ^ 31 -> 0 <= i < n -> rate_in_range fps = true ->
  frame_round_trip (A := python_arith) n (PyInt i) fps = Ok i.
Proof.
  intros Hn Hi Hr. destruct fps as [f|f]; cbn [rate_in_range] in Hr;
    apply andb_prop in Hr; destruct Hr as [L U].
  - apply round_trip_integer_rate; try assumption.
    apply Z.ltb_lt in L. apply Z.leb_le in U. lia.
  - now apply round_trip_float_rate.
Qed.

(* ================================================================== *)
(** * Frame index and time: Python's arithmetic *)
(* ================================================================== *)

Lemma float_of_int_0 : PyFloat.float_of_int 0 = Ok zero.
Proof. vm_compute. reflexivity. Qed.

(** With no frame the first quotient by the frame count raises, whatever
    the rate: [0 / rate] is a float or already a division by zero. *)
Lemma python_duration_at_zero (fps : pynum) :
  (exists d, PyNum.truediv (PyInt 0) fps = Ok (PyFloat d)) \/
  PyNum.truediv (PyInt 0) fps = Raise ZeroDivisionError.
Proof.
  destruct fps as [b|f]; unfold PyNum.truediv.
  - unfold PyFloat.int_truediv. destruct (b =? 0); [now right|].
    left. cbn. eexists. reflexivity.
  - unfold PyNum.to_float. rewrite float_of_int_0. cbn [rbind].
    unfold PyFloat.float_truediv. destruct (f =? 0)%float; [now right|].
    left. cbn. eexists. reflexivity.
Qed.

Lemma python_time_at_zero (index fps : pynum) :
  getTimeForFrameIndex 0 index fps = Raise ZeroDivisionError.
Proof.
  unfold getTimeForFrameIndex.
  cbn [truediv mul add sub to_int of_int lit_half python_arith].
  destruct (python_duration_at_zero fps) as [[d ->] | ->]; reflexivity.
Qed.

Lemma python_frame_at_zero (time fps : pynum) :
  getFrameIndexForTime 0 time fps = Raise ZeroDivisionError.
Proof.
  unfold getFrameIndexForTime.
  cbn [truediv mul add sub to_int of_int lit_half python_arith].
  destruct (python_duration_at_zero fps) as [[d ->] | ->]; reflexivity.
Qed.

(** A rate of zero raises as well, whatever the frame count. *)
Lemma python_time_at_zero_rate (n : Z) (index : pynum) :
  getTimeForFrameIndex n index (PyInt 0) = Raise ZeroDivisionError.
Proof. reflexivity. Qed.

(** C1, as the code has it. Converting a valid frame index to its time and
    back returns the index: in exact arithmetic for every frame count
    [n > 0], every rate [f > 0] and every index [0 <= i < n]; in Python's
    binary64 arithmetic for every frame count up to [2^31] and every rate
    in range, an [int] up to [2^62] or a [float] between [2^-800] and
    [2^800] (12 frames at 24 frames per second among them). *)
Theorem frame_round_trip_identity (n i : Z) :
  0 < n -> 0 <= i < n ->
  (forall f : Q, (0 < f)%Q ->
     frame_round_trip (A := exact_arith) n (inject_Z i) f = Ok i) /\
  (forall fps : pynum, n <= 2 ^ 31 -> rate_in_range fps = true ->
     frame_round_trip (A := python_arith) n (PyInt i) fps = Ok i).
Proof.
  intros Hn Hi. split.
  - intros f Hf. apply exact_round_trip; [lia| |lia].
    intros E. rewrite E in Hf. now apply Qlt_irrefl in Hf.
  - intros fps Hn' Hr. apply python_round_trip; [lia|lia|exact Hr].
Qed.

Lemma frame_round_trip_identity_witness :
  frame_round_trip (A := exact_arith) 12 (inject_Z 5) 24%Q = Ok 5 /\
  frame_round_trip (A := python_arith) 12 (PyInt 5) (PyInt 24) = Ok 5 /\
  frame_round_trip (A := python_arith) 12 (PyInt 5) (PyFloat 29.5) = Ok 5.
Proof.
  destruct (@frame_round_trip_identity 12 5 ltac:(lia) ltac:(lia)) as [HQ HP].
  split; [|split].
  - apply HQ. reflexivity.
  - apply HP; [lia|reflexivity].
  - apply HP; [lia|reflexivity].
Defined.

(** C1 fails in Python's arithmetic when the duration overflows: with one
    frame and the smallest positive rate, [1 / rate] is infinite, the time
    of frame 0 is infinite, and the way back computes [inf / inf], whose
    conversion to [int] raises [ValueError]. *)
Lemma frame_round_trip_overflow :
  (0 <? 0x1p-1074)%float = true /\
  getTimeForFrameIndex 1 (PyInt 0) (PyFloat 0x1p-1074) = Ok (PyFloat infinity) /\
  getFrameIndexForTime 1 (PyFloat infinity) (PyFloat 0x1p-1074)
  = Raise ValueError /\
  frame_round_trip 1 (PyInt 0) (PyFloat 0x1p-1074) = Raise ValueError.
Proof. vm_compute. repeat split. Qed.

(** C6, as the code has it. With a frame count of 0 both functions raise
    [ZeroDivisionError], the division by the frame count being unguarded,
    whatever the rate, the index and the time.  With a positive frame count
    both succeed in exact arithmetic for every non-zero rate, and in
    Python's arithmetic for the frame counts up to [2^31] at the rates in
    range and the valid indices. *)
Theorem frame_time_zero_frames :
  (forall index fps : pynum,
     getTimeForFrameIndex 0 index fps = Raise ZeroDivisionError) /\
  (forall time fps : pynum,
     getFrameIndexForTime 0 time fps = Raise ZeroDivisionError) /\
  (forall (n : Z) (x f : Q), 0 < n -> ~ (f == 0)%Q ->
     succeeds (getTimeForFrameIndex (A := exact_arith) n x f) /\
     succeeds (getFrameIndexForTime (A := exact_arith) n x f)) /\
  (forall (n i : Z) (fps : pynum),
     0 < n <= 2 ^ 31 -> 0 <= i < n -> rate_in_range fps = true ->
     exists t,
       getTimeForFrameIndex n (PyInt i) fps = Ok t /\
       succeeds (getFrameIndexForTime n t fps)).
Proof.
  split; [exact python_time_at_zero|].
  split; [exact python_frame_at_zero|].
  split.
  - intros n x f Hn Hf. split.
    + now apply exact_time_succeeds.
    + now apply exact_frame_succeeds.
  - intros n i fps Hn Hi Hr.
    pose proof (python_round_trip fps Hn Hi Hr) as H.
    unfold frame_round_trip in H.
    destruct (getTimeForFrameIndex n (PyInt i) fps) as [t|e];
      [|discriminate].
    exists t. split; [reflexivity|]. now exists i.
Qed.

Lemma frame_time_zero_frames_witness :
  getTimeForFrameIndex 0 (PyInt 0) (PyInt 24) = Raise ZeroDivisionError /\
  succeeds (getTimeForFrameIndex (A := exact_arith) 12 (inject_Z 5) 24%Q) /\
  exists t, getTimeForFrameIndex 12 (PyInt 5) (PyInt 24) = Ok t /\
            succeeds (getFrameIndexForTime 12 t (PyInt 24)).
Proof.
  destruct frame_time_zero_frames as (H0 & _ & HQ & HP).
  split; [apply H0|].
  split.
  - apply HQ; [lia|]. intros E. discriminate E.
  - apply HP; [lia|lia|reflexivity].
Defined.

(** C6: no frame gives [ZeroDivisionError], not a state error, and a
    positive frame count does not make every rate succeed. *)
Lemma zero_frames_raise_zero_division :
  getTimeForFrameIndex 0 (PyInt 0) (PyInt 24) = Raise ZeroDivisionError /\
  getTimeForFrameIndex 0 (PyInt 0) (PyInt 24) <> Raise InvalidStateError /\
  getFrameIndexForTime 0 (PyFloat 0) (PyInt 24) = Raise ZeroDivisionError /\
  getFrameIndexForTime 0 (PyFloat 0) (PyInt 24) <> Raise InvalidStateError /\
  getTimeForFrameIndex 12 (PyInt 0) (PyInt 0) = Raise ZeroDivisionError /\
  getFrameIndexForTime 12 (PyFloat 0) (PyInt 0) = Raise ZeroDivisionError.
Proof.
  repeat split; try reflexivity; discriminate.
Qed.

(* ================================================================== *)
(** * binary64: multiplying by one *)
(* ================================================================== *)






(* ================================================================== *)
(** * Node coordinate access *)
(* ================================================================== *)

Section ModelFacts.
Context {F : Type} {S : Scalar F} {AA : AlignmentAdapter F}.
Local Abbreviation Model := (MeshPlaneModel F) (only parsing).

Lemma set_region_same (m : Model) (r : Region F) :
  _region m = Some r -> set_region (Some r) m = m.
Proof. destruct m. simpl. now intros ->. Qed.

Lemma region_fm_change_back (r : Region F) :
  region_fm_change (-1) (region_fm_change 1 r) = r.
Proof.
  destruct r. unfold region_fm_change. simpl. f_equal. lia.
Qed.

Lemma region_with_nodes_same (r : Region F) :
  region_with_nodes (node_coordinates r) r = r.
Proof. now destruct r. Qed.

Lemma read_nodes_spec (nodes acc : list (vec3 F)) (m : Model) :
  read_nodes nodes acc m
  = (Ok (acc ++ map (_getSceneTransformationFromAdjustedPosition (_alignment m))
                 nodes), m).
Proof.
  revert acc. induction nodes as [|p nodes IH]; intros acc; simpl.
  - now rewrite app_nil_r.
  - unfold bind, gets. rewrite IH, <- app_assoc. reflexivity.
Qed.

(** [getNodeLocations] returns the scene position of every node and
    leaves the model as it was. *)
Lemma getNodeLocations_spec (m : Model) (r : Region F) :
  _region m = Some r ->
  getNodeLocations m
  = (Ok (map (_getSceneTransformationFromAdjustedPosition (_alignment m))
           (node_coordinates r)), m).
Proof.
  intros Hr. unfold getNodeLocations, fm_beginChange, fm_endChange,
    update_region, the_region, bind, modify, ret.
  rewrite Hr. cbn [_region set_region].
  rewrite read_nodes_spec. cbn [_region set_region _alignment app].
  rewrite region_fm_change_back.
  f_equal. destruct m. simpl in *. now subst.
Qed.

Lemma getNodeLocations_no_region (m : Model) :
  _region m = None -> getNodeLocations m = (Raise AttributeError, m).
Proof.
  intros Hr. unfold getNodeLocations, fm_beginChange, update_region,
    the_region, bind. now rewrite Hr.
Qed.

Lemma set_nth_app {A : Type} (done rest : list A) (x v : A) :
  set_nth (List.length done) v (done ++ x :: rest) = done ++ v :: rest.
Proof.
  induction done as [|d done IH]; simpl; [reflexivity|]. now rewrite IH.
Qed.

Lemma nth_error_skipn {A : Type} (l : list A) (n : nat) :
  nth_error l n = hd_error (skipn n l).
Proof.
  revert l. induction n as [|n IH]; intros [|x l]; simpl; auto.
Qed.

Lemma skipn_succ {A : Type} (l : list A) (n : nat) (x : A) (t : list A) :
  skipn n l = x :: t -> skipn (n + 1) l = t.
Proof.
  revert l. induction n as [|n IH]; intros [|y l]; simpl; try discriminate.
  - now intros [= _ ->].
  - apply IH.
Qed.

(** The loop of [setNodeLocations], started at the node of rank
    [length done] with [rest] the nodes still to visit. *)
Lemma write_nodes_spec (node_positions rest : list (vec3 F)) :
  forall (done : list (vec3 F)) (m : Model) (r : Region F),
    _region m = Some r ->
    node_coordinates r = done ++ rest ->
    write_nodes (List.length rest) (List.length done) node_positions m
    = (if (List.length rest <=? List.length (skipn (List.length done) node_positions))%nat
       then Ok tt else Raise IndexError,
       set_region
         (Some (region_with_nodes
                  (done ++ overwrite (_alignment m)
                             (skipn (List.length done) node_positions) rest) r))
         m).
Proof.
  induction rest as [|x rest IH]; intros done m r Hr Hn.
  - simpl. unfold ret. f_equal.
    rewrite <- Hn, region_with_nodes_same. symmetry. now apply set_region_same.
  - cbn [write_nodes List.length]. unfold bind at 1. unfold getitem.
    rewrite nth_error_skipn.
    destruct (skipn (List.length done) node_positions) as [|p ps] eqn:Hs.
    + simpl. unfold raise. f_equal.
      rewrite <- Hn, region_with_nodes_same. symmetry. now apply set_region_same.
    + cbn [hd_error]. unfold ret, bind, gets, assignReal, update_region,
        the_region, bind, modify. rewrite Hr. cbn [_region set_region].
      rewrite Hn, set_nth_app.
      set (r' := region_with_nodes
                   (done ++ _getSceneTransformationToAdjustedPosition
                              (_alignment m) p :: rest) r).
      set (m' := set_region (Some r') m).
      replace (List.length done + 1)%nat
        with (List.length (done ++ [_getSceneTransformationToAdjustedPosition
                                      (_alignment m) p]))
        by (rewrite length_app; reflexivity).
      rewrite (IH _ m' r' eq_refl)
        by (unfold r'; simpl; now rewrite <- app_assoc).
      rewrite length_app. cbn [List.length].
      rewrite (skipn_succ _ _ Hs).
      cbn [List.length overwrite]. f_equal.
      unfold m', r'. destruct m, r. simpl. now rewrite <- app_assoc.
Qed.

(** [setNodeLocations]: the outcome and the model it leaves. *)
Lemma setNodeLocations_spec (node_positions : list (vec3 F)) (m : Model)
  (r : Region F) :
  _region m = Some r ->
  setNodeLocations node_positions m
  = if (List.length (node_coordinates r) <=? List.length node_positions)%nat
    then (Ok tt,
          set_region
            (Some (region_with_nodes
                     (overwrite (_alignment m) node_positions (node_coordinates r))
                     r)) m)
    else (Raise IndexError,
          set_region
            (Some (region_fm_change 1
                     (region_with_nodes
                        (overwrite (_alignment m) node_positions (node_coordinates r))
                        r))) m).
Proof.
  intros Hr.
  unfold setNodeLocations, fm_beginChange, fm_endChange, update_region,
    the_region. unfold bind at 1 2 3 4. unfold modify at 1.
  rewrite Hr. cbn [_region set_region region_fm_change node_coordinates].
  pose proof (@write_nodes_spec node_positions (node_coordinates r) []
                (set_region (Some (region_fm_change 1 r)) m)
                (region_fm_change 1 r) eq_refl eq_refl) as W.
  cbn [List.length skipn app _alignment set_region] in W. rewrite W. clear W.
  destruct (List.length (node_coordinates r) <=? List.length node_positions)%nat.
  - unfold bind, modify. cbn [_region set_region]. f_equal.
    destruct m as [fc p rg tk d fx a], r as [rid ns oc sc].
    unfold region_fm_change, region_with_nodes, set_region.
    simpl. replace (oc + 1 + -1) with oc by lia.
    reflexivity.
  - f_equal.
Qed.

Lemma overwrite_enough (a : align_state) (ps ns : list (vec3 F)) :
  (List.length ns <= List.length ps)%nat ->
  overwrite a ps ns
  = map (_getSceneTransformationToAdjustedPosition a) (firstn (List.length ns) ps).
Proof.
  revert ps. induction ns as [|n ns IH]; intros [|p ps] H; simpl in *;
    try reflexivity; try lia.
  f_equal. apply IH. lia.
Qed.

Lemma overwrite_short (a : align_state) (ps ns : list (vec3 F)) :
  (List.length ps <= List.length ns)%nat ->
  overwrite a ps ns
  = map (_getSceneTransformationToAdjustedPosition a) ps
    ++ skipn (List.length ps) ns.
Proof.
  revert ps. induction ns as [|n ns IH]; intros [|p ps] H; simpl in *;
    try reflexivity; try lia.
  f_equal. apply IH. lia.
Qed.

End ModelFacts.

(* ================================================================== *)
(** * Rebuilding the region and loading images *)
(* ================================================================== *)

Section LoadFacts.
Context {F : Type} {S : Scalar F} {AA : AlignmentAdapter F}.
Local Abbreviation Model := (MeshPlaneModel F) (only parsing).

Lemma reset_spec (m : Model) : _reset m = (Ok tt, rebuilt m).
Proof.
  destruct m as [fc p [r|] tk d fx a]; reflexivity.
Qed.

Lemma load_no_images (fs : FileSystem) (m : Model) (r : Region F) :
  _region m = Some r ->
  _load_images fs [] m = (Ok tt, set_frame_count 0 m).
Proof.
  intros Hr. unfold _load_images, the_region, bind, modify, ret.
  now rewrite Hr.
Qed.


Lemma firstn_length_map {A B : Type} (f : A -> B) (l : list A) :
  firstn (List.length l) (map f l) = map f l.
Proof.
  induction l as [|x l IH]; simpl; [reflexivity|]. now rewrite IH.
Qed.


(** An image whose size could not be probed rescales nothing. *)
Lemma load_images_unknown_size (fs : FileSystem) (first : string)
  (rest : list string) (m : Model) (r : Region F) :
  _region m = Some r ->
  get_image_size fs first = (-1, -1) ->
  fst (_load_images fs (first :: rest) m) = Ok tt /\
  stored_nodes (snd (_load_images fs (first :: rest) m)) = node_coordinates r.
Proof.
  intros Hr Hsz. unfold _load_images, the_region, bind, modify, ret,
    update_scene, update_region, the_region, bind, modify.
  rewrite Hr, Hsz.
  change (negb (-1 =? -1) || negb (-1 =? -1))%bool with false.
  cbn [_region set_frame_count]. rewrite Hr.
  unfold stored_nodes.
  cbn [fst snd _region set_region region_with_scene node_coordinates].
  split; reflexivity.
Qed.

End LoadFacts.

(* ================================================================== *)
(** * The claims about the model's state *)
(* ================================================================== *)

Section StateClaims.
Context {F : Type} {S : Scalar F} {AA : AlignmentAdapter F}.
Local Abbreviation Model := (MeshPlaneModel F) (only parsing).

(** C10. [setImageInfo] with [None] does nothing: it returns normally
    and the model (frame count, region, scene, nodes, settings) is the
    one it was called on; no reset and no image load takes place. *)
Theorem setImageInfo_None_noop (fs : FileSystem) (m : Model) :
  setImageInfo fs None m = (Ok tt, m).
Proof. reflexivity. Qed.


(** C5, as the code has it. [setNodeLocations] never checks the length
    of the sequence.  With fewer positions than nodes it raises
    [IndexError] once the positions run out, the nodes before that point
    already overwritten; with at least as many it returns normally, every
    node overwritten by the position of its rank and the positions in
    excess ignored. *)
Theorem setNodeLocations_lengths (m : Model) (r : Region F)
  (node_positions : list (vec3 F)) :
  _region m = Some r ->
  let to_adjusted := _getSceneTransformationToAdjustedPosition (_alignment m) in
  let nodes := node_coordinates r in
  let outcome := setNodeLocations node_positions m in
  ((List.length node_positions < List.length nodes)%nat ->
   fst outcome = Raise IndexError /\
   stored_nodes (snd outcome)
   = map to_adjusted node_positions
     ++ skipn (List.length node_positions) nodes) /\
  ((List.length nodes <= List.length node_positions)%nat ->
   fst outcome = Ok tt /\
   stored_nodes (snd outcome)
   = map to_adjusted (firstn (List.length nodes) node_positions)).
Proof.
  intros Hr to_adjusted nodes outcome. unfold outcome, nodes, to_adjusted.
  rewrite (setNodeLocations_spec node_positions m Hr).
  split; intros H.
  - replace (_ <=? _)%nat with false by (symmetry; apply Nat.leb_gt; exact H).
    split; [reflexivity|].
    cbn [snd stored_nodes _region set_region region_fm_change
           region_with_nodes node_coordinates].
    apply overwrite_short. lia.
  - replace (_ <=? _)%nat with true by (symmetry; apply Nat.leb_le; exact H).
    split; [reflexivity|].
    cbn [snd stored_nodes _region set_region region_with_nodes
           node_coordinates].
    now apply overwrite_enough.
Qed.

(** C7, as the code has it. [getNodeLocations] leaves no [beginChange]
    open, whether it returns or raises.  [setNodeLocations] closes the
    bracket it opened when it returns normally; when it raises
    [IndexError] part-way through the nodes, [endChange] is not reached
    and the bracket stays open. *)
Theorem change_bracket_balance (m : Model) (node_positions : list (vec3 F)) :
  open_changes (snd (getNodeLocations m)) = open_changes m /\
  forall r : Region F,
    _region m = Some r ->
    let outcome := setNodeLocations node_positions m in
    ((List.length (node_coordinates r) <= List.length node_positions)%nat ->
     fst outcome = Ok tt /\ open_changes (snd outcome) = open_changes m) /\
    ((List.length node_positions < List.length (node_coordinates r))%nat ->
     fst outcome = Raise IndexError /\
     open_changes (snd outcome) = open_changes m + 1).
Proof.
  split.
  - destruct (_region m) as [r|] eqn:Hr.
    + now rewrite (getNodeLocations_spec m Hr).
    + now rewrite (getNodeLocations_no_region m Hr).
  - intros r Hr outcome. unfold outcome.
    rewrite (setNodeLocations_spec node_positions m Hr).
    unfold open_changes at 2 4. rewrite Hr.
    split; intros H.
    + replace (_ <=? _)%nat with true by (symmetry; apply Nat.leb_le; exact H).
      split; reflexivity.
    + replace (_ <=? _)%nat with false by (symmetry; apply Nat.leb_gt; exact H).
      split; reflexivity.
Qed.

(** C8, evaluated. On a model that has no scene yet,
    [setImagePlaneFixed b] records [b] and touches nothing else.  When the
    scene is then created, both graphics are bound to the scaled,
    alignment-derived coordinate field whatever [b] is, although the
    recorded mode is [b]: the fixed mode is not applied at creation.  The
    visibility recorded by [setImagePlaneVisible] is applied at creation,
    and [setImagePlaneFixed true] does bind the fixed field once the scene
    exists. *)
Theorem fixed_mode_at_scene_creation (parent : ParentRegion) (a : align_state)
  (b : bool) :
  let m0 := init parent a in
  let m1 := snd (setImagePlaneFixed b m0) in
  let m2 := snd (_reset m1) in
  setImagePlaneFixed b m0 = (Ok tt, set_image_plane_fixed b m0) /\
  _scene m1 = None /\
  isImagePlaneFixed m2 = b /\
  bound_coordinate_field "plane-surfaces" m2 = Some ScaledCoordinateField /\
  bound_coordinate_field "plane-lines" m2 = Some ScaledCoordinateField /\
  option_map visibility_flag
    (_scene (snd (_reset (snd (setImagePlaneVisible b m0))))) = Some b /\
  bound_coordinate_field "plane-surfaces" (snd (setImagePlaneFixed true m2))
  = Some FixedCoordinateField /\
  bound_coordinate_field "plane-lines" (snd (setImagePlaneFixed true m2))
  = Some FixedCoordinateField.
Proof.
  cbv zeta. repeat split.
Qed.

End StateClaims.

(* ================================================================== *)
(** * Rescaling to the image size *)
(* ================================================================== *)






(* ================================================================== *)
(** * Concrete runs *)
(* ================================================================== *)



(** C5: three positions for four nodes raise [IndexError], not an arity
    error, after three nodes were overwritten; five positions are
    accepted. *)
Lemma short_sequence_overwrites_nodes :
  List.length three_positions = 3%nat /\
  stored_nodes reset_model
  = [Vec3 (-0.5) (-0.5) 0; Vec3 0.5 (-0.5) 0;
     Vec3 (-0.5) 0.5 0; Vec3 0.5 0.5 0]%float /\
  fst (setNodeLocations three_positions reset_model) = Raise IndexError /\
  fst (setNodeLocations three_positions reset_model) <> Raise ArityError /\
  stored_nodes (snd (setNodeLocations three_positions reset_model))
  = [Vec3 1 2 3; Vec3 4 5 6; Vec3 7 8 9; Vec3 0.5 0.5 0]%float /\
  fst (setNodeLocations five_positions reset_model) = Ok tt.
Proof.
  repeat split; try reflexivity. discriminate.
Qed.

Lemma setNodeLocations_lengths_witness :
  (fst (setNodeLocations three_positions reset_model) = Raise IndexError /\
   stored_nodes (snd (setNodeLocations three_positions reset_model))
   = three_positions ++ [Vec3 0.5 0.5 0]%float) /\
  (fst (setNodeLocations five_positions reset_model) = Ok tt /\
   stored_nodes (snd (setNodeLocations five_positions reset_model))
   = [Vec3 1 2 3; Vec3 4 5 6; Vec3 7 8 9; Vec3 1 1 1]%float).
Proof.
  split.
  - apply (@setNodeLocations_lengths float (identity_adapter float)
             reset_model _ three_positions eq_refl).
    cbn. lia.
  - apply (@setNodeLocations_lengths float (identity_adapter float)
             reset_model _ five_positions eq_refl).
    cbn. lia.
Defined.

(** C7: the [IndexError] of a short sequence leaves the bracket open. *)
Lemma short_sequence_leaves_bracket_open :
  open_changes reset_model = 0 /\
  fst (setNodeLocations three_positions reset_model) = Raise IndexError /\
  open_changes (snd (setNodeLocations three_positions reset_model)) = 1.
Proof. repeat split. Qed.

Lemma change_bracket_balance_witness :
  fst (setNodeLocations three_positions reset_model) = Raise IndexError /\
  open_changes (snd (setNodeLocations three_positions reset_model))
  = open_changes reset_model + 1.
Proof.
  refine (proj2 (proj2 (@change_bracket_balance float
                          (identity_adapter float) reset_model three_positions)
                   _ eq_refl) _).
  cbn. lia.
Defined.

(* ================================================================== *)
(** * Plane orientation, in real arithmetic *)
(* ================================================================== *)

Section RealVectors.
Local Open Scope R_scope.









End RealVectors.

(** The same call in binary64, on the plane rescaled to 2000 x 1000
    pixels: the normal is the z axis, the up vector the y axis. *)
Lemma getPlaneInfo_binary64_example :
  getPlaneInfo loaded_model
  = (Ok (Vec3 0 0 1, Vec3 0 1 0, Vec3 0 0 0)%float, loaded_model).
Proof. vm_compute. reflexivity. Qed.

(* ================================================================== *)
(** * The natural key: more properties *)
(* ================================================================== *)

Lemma string_app_nil_r (s : string) : (s ++ "")%string = s.
Proof. induction s as [|c s IH]; simpl; [reflexivity|]. now rewrite IH. Qed.

Lemma string_app_assoc (a b c : string) :
  ((a ++ b) ++ c)%string = (a ++ (b ++ c))%string.
Proof. induction a as [|x a IH]; simpl; [reflexivity|]. now rewrite IH. Qed.

Lemma split_digits_shape (s : string) :
  forall (in_digits : bool) (acc : string),
    (if in_digits
     then acc <> EmptyString /\ all_chars is_digit acc = true
     else all_chars (fun c => negb (is_digit c)) acc = true) ->
    let l := split_digits in_digits acc s in
    String.concat "" l = (acc ++ s)%string /\
    runs in_digits l /\
    Nat.odd (List.length l) = negb in_digits.
Proof.
  induction s as [|c s IH]; intros [|] acc H; cbn [split_digits].
  - cbn. rewrite string_app_nil_r. repeat split; try apply H.
  - cbn. rewrite string_app_nil_r. repeat split; exact H.
  - destruct H as [Hne H]. destruct (is_digit c) eqn:Hc.
    + destruct (IH true (acc ++ String c "")%string) as (E & R & O).
      { split; [destruct acc; simpl; congruence|].
        rewrite all_chars_app, H. simpl. now rewrite Hc. }
      rewrite string_app_assoc in E. repeat split; assumption.
    + destruct (IH false (String c "")) as (E & R & O).
      { simpl. now rewrite Hc. }
      cbv zeta. split; [|split].
      * cbn [String.concat].
        destruct (split_digits false (String c "") s) eqn:Es;
          [discriminate O|].
        rewrite E. reflexivity.
      * cbn [runs]. repeat split; assumption.
      * cbn [List.length]. rewrite Nat.odd_succ, <- Nat.negb_odd, O.
        reflexivity.
  - destruct (is_digit c) eqn:Hc.
    + destruct (IH true (String c "")) as (E & R & O).
      { split; [congruence|]. simpl. now rewrite Hc. }
      cbv zeta. split; [|split].
      * cbn [String.concat].
        destruct (split_digits true (String c "") s) eqn:Es.
        -- cbn [runs] in R. exfalso.
           clear - Es. revert Es. generalize (String c "").
           induction s as [|d s IHs]; intros a; simpl; [discriminate|].
           destruct (is_digit d); [apply IHs|discriminate].
        -- rewrite E. reflexivity.
      * cbn [runs]. repeat split; assumption.
      * cbn [List.length]. rewrite Nat.odd_succ, <- Nat.negb_odd, O.
        reflexivity.
    + destruct (IH false (acc ++ String c "")%string) as (E & R & O).
      { rewrite all_chars_app, H. simpl. now rewrite Hc. }
      rewrite string_app_assoc in E. repeat split; assumption.
Qed.

(** X1. [re.split('([0-9]+)', s)] loses nothing and always has the same
    shape: the chunks joined give the name back, their number is odd, and
    they are in turn a text without a digit (possibly empty) and a
    non-empty run of digits, from a text on. *)
Theorem re_split_digits_round_trip (s : string) :
  String.concat "" (re_split_digits s) = s /\
  runs false (re_split_digits s) /\
  Nat.odd (List.length (re_split_digits s)) = true.
Proof.
  destruct (split_digits_shape s false EmptyString eq_refl) as (E & R & O).
  repeat split; assumption.
Qed.

Lemma chunk_eqb_compare (a b : chunk) :
  chunk_eqb a b = match chunk_compare a b with Eq => true | _ => false end.
Proof.
  destruct a as [x|x], b as [y|y]; simpl; try reflexivity.
  - destruct (String.eqb_spec x y) as [->|N].
    + now rewrite (cmp_refl string_compare_order).
    + destruct (String.compare x y) eqn:E; try reflexivity.
      apply String.compare_eq_iff in E. contradiction.
  - destruct (Z.eqb_spec x y) as [->|N].
    + now rewrite Z.compare_refl.
    + destruct (Z.compare_spec x y); congruence.
Qed.

Lemma list_lt_alternating (k1 : list chunk) :
  forall (k2 : list chunk) (b : bool),
    alternating b k1 -> alternating b k2 ->
    list_lt k1 k2 = Some (key_ltb k1 k2).
Proof.
  unfold key_ltb, key_compare.
  induction k1 as [|x k1 IH]; intros [|y k2] b H1 H2; simpl; try reflexivity.
  rewrite chunk_eqb_compare.
  destruct x as [x|x], y as [y|y]; simpl in *;
    destruct H1 as [-> H1], H2 as [E2 H2]; try discriminate.
  - destruct (String.compare x y) eqn:E; try reflexivity.
    now apply (IH k2 false).
  - destruct (x ?= y) eqn:E.
    + now apply (IH k2 true).
    + f_equal. apply Z.ltb_lt. now apply Z.compare_lt_iff.
    + f_equal. apply Z.ltb_ge. apply Z.compare_gt_iff in E. lia.
Qed.

(** X2. Comparing the keys of two names never raises [TypeError]: keys
    start with a text chunk and alternate, so Python's [<] on two keys
    only ever compares a number with a number and a text with a text, and
    its answer is the order [sorted] is modelled with. *)
Theorem key_comparison_defined (s t : string) :
  list_lt (alphanum_key s) (alphanum_key t)
  = Some (key_ltb (alphanum_key s) (alphanum_key t)).
Proof.
  apply list_lt_alternating with (b := true); apply alphanum_key_alternating.
Qed.

(** ** Ties *)

Lemma same_key_below (k x y : string) :
  same_key k x = true ->
  key_ltb (alphanum_key y) (alphanum_key x) = true ->
  same_key k y = false.
Proof.
  unfold same_key, key_ltb. intros Hk Hy.
  destruct (key_compare (alphanum_key k) (alphanum_key x)) eqn:E;
    try discriminate.
  apply (cmp_eq key_compare_order) in E. rewrite E.
  rewrite (cmp_antisym key_compare_order).
  destruct (key_compare (alphanum_key y) (alphanum_key x));
    try discriminate. reflexivity.
Qed.

Lemma filter_insert_by (k x : string) (l : list string) :
  filter (same_key k) (insert_by alphanum_key key_ltb x l)
  = filter (same_key k) (x :: l).
Proof.
  induction l as [|y l IH]; [reflexivity|].
  cbn [insert_by].
  destruct (key_ltb (alphanum_key y) (alphanum_key x)) eqn:Hlt;
    [|reflexivity].
  cbn [filter] in *. rewrite IH.
  destruct (same_key k x) eqn:Hx; [|reflexivity].
  now rewrite (same_key_below k x y Hx Hlt).
Qed.

(** X3. The sort is stable: the names of one key come out in the order
    they came in (the order of the directory listing). *)
Theorem natural_sorted_stable (names : list string) (k : string) :
  filter (same_key k) (natural_sorted names) = filter (same_key k) names.
Proof.
  unfold natural_sorted.
  induction names as [|x names IH]; [reflexivity|].
  cbn [sorted_by]. rewrite filter_insert_by. cbn [filter]. now rewrite IH.
Qed.

Lemma sorted_by_sorted (l : list string) :
  StronglySorted natural_le l -> sorted_by alphanum_key key_ltb l = l.
Proof.
  induction 1 as [|x l Hs IH Hall]; [reflexivity|].
  cbn [sorted_by]. rewrite IH.
  destruct l as [|y l]; [reflexivity|].
  apply insert_by_head.
  apply Forall_inv in Hall. unfold natural_le, key_leb in Hall.
  unfold key_ltb. rewrite (cmp_antisym key_compare_order).
  destruct (key_compare (alphanum_key x) (alphanum_key y));
    try discriminate; reflexivity.
Qed.

(** X4. Sorting is idempotent: a list that is in natural order is
    returned as it is, so sorting a sorted listing changes nothing. *)
Theorem natural_sorted_idempotent (names : list string) :
  (StronglySorted natural_le names -> natural_sorted names = names) /\
  natural_sorted (natural_sorted names) = natural_sorted names.
Proof.
  split.
  - apply sorted_by_sorted.
  - apply sorted_by_sorted, natural_sorted_sorted.
Qed.

(** ** Numbers inside names *)

Lemma split_text_prefix (p : string) :
  all_chars (fun c => negb (is_digit c)) p = true ->
  forall acc s,
    split_digits false acc (p ++ s) = split_digits false (acc ++ p) s.
Proof.
  induction p as [|c p IH]; simpl; intros H acc s.
  - now rewrite string_app_nil_r.
  - apply andb_prop in H. destruct H as [Hc Hp].
    apply negb_true_iff in Hc. rewrite Hc.
    rewrite IH by exact Hp. now rewrite string_app_assoc.
Qed.

Lemma split_digit_run (d : string) :
  all_chars is_digit d = true ->
  forall acc s,
    split_digits true acc (d ++ s) = split_digits true (acc ++ d) s.
Proof.
  induction d as [|c d IH]; simpl; intros H acc s.
  - now rewrite string_app_nil_r.
  - apply andb_prop in H. destruct H as [Hc Hd]. rewrite Hc.
    rewrite IH by exact Hd. now rewrite string_app_assoc.
Qed.

Lemma split_run_end (acc r : string) :
  no_digit_ahead r ->
  exists rest, split_digits true acc r = acc :: rest.
Proof.
  destruct r as [|c r]; simpl; intros H.
  - now exists [EmptyString].
  - rewrite H. eexists. reflexivity.
Qed.

(** The key of a name that starts with the text [p] and the number [d]. *)
Lemma alphanum_key_number (p d r : string) (v : Z) :
  all_chars (fun c => negb (is_digit c)) p = true ->
  d <> EmptyString -> all_chars is_digit d = true ->
  digits_value 0 d = Some v ->
  no_digit_ahead r ->
  exists rest, alphanum_key (p ++ d ++ r) = CStr p :: CInt v :: rest.
Proof.
  intros Hp Hne Hd Hv Hr.
  unfold alphanum_key, re_split_digits.
  rewrite (split_text_prefix p Hp). cbn [append].
  destruct d as [|c d]; [congruence|].
  cbn [append split_digits]. cbn [all_chars] in Hd.
  apply andb_prop in Hd. destruct Hd as [Hc Hd]. rewrite Hc.
  rewrite (split_digit_run d Hd).
  destruct (split_run_end (String c "" ++ d) r Hr) as [rest ->].
  cbn [map append]. rewrite (tryint_text p Hp).
  exists (map tryint rest). f_equal.
  unfold tryint, int_of_chunk. now rewrite Hv.
Qed.

(** X5. Numbers are compared by value, whatever their number of digits:
    of two names that start with the same text, the one with the smaller
    number sorts first (["img2.png"] before ["img10.png"], ["img9"]
    before ["img010"]). *)
Theorem numbers_sort_by_value (p da ra db rb : string) (a b : Z) :
  all_chars (fun c => negb (is_digit c)) p = true ->
  da <> EmptyString -> all_chars is_digit da = true ->
  db <> EmptyString -> all_chars is_digit db = true ->
  digits_value 0 da = Some a -> digits_value 0 db = Some b ->
  no_digit_ahead ra -> no_digit_ahead rb ->
  a < b ->
  key_ltb (alphanum_key (p ++ da ++ ra)) (alphanum_key (p ++ db ++ rb)) = true /\
  natural_sorted [p ++ db ++ rb; p ++ da ++ ra]%string
  = [p ++ da ++ ra; p ++ db ++ rb]%string.
Proof.
  intros Hp Hna Hda Hnb Hdb Ha Hb Hra Hrb Hab.
  destruct (@alphanum_key_number p da ra a Hp Hna Hda Ha Hra) as [ta Ea].
  destruct (@alphanum_key_number p db rb b Hp Hnb Hdb Hb Hrb) as [tb Eb].
  assert (L : key_ltb (alphanum_key (p ++ da ++ ra))
                (alphanum_key (p ++ db ++ rb)) = true).
  { rewrite Ea, Eb. unfold key_ltb, key_compare. cbn [lex_compare chunk_compare].
    rewrite (cmp_refl string_compare_order).
    now replace (a ?= b) with Lt by (symmetry; apply Z.compare_lt_iff; exact Hab). }
  split; [exact L|].
  unfold natural_sorted. cbn [sorted_by insert_by]. now rewrite L.
Qed.

Lemma numbers_sort_by_value_witness :
  key_ltb (alphanum_key "img9.png") (alphanum_key "img010.png") = true /\
  natural_sorted ["img010.png"; "img9.png"]%string
  = ["img9.png"; "img010.png"]%string.
Proof.
  apply (@numbers_sort_by_value "img" "9" ".png" "010" ".png" 9 10);
    try reflexivity; try discriminate.
Defined.

Lemma split_run_prefix (s : string) :
  forall (x acc : string),
    split_digits true (x ++ acc) s
    = match split_digits true acc s with
      | h :: t => (x ++ h)%string :: t
      | [] => []
      end.
Proof.
  induction s as [|c s IH]; intros x acc; simpl; [reflexivity|].
  destruct (is_digit c).
  - rewrite <- IH. now rewrite string_app_assoc.
  - reflexivity.
Qed.

Lemma tryint_leading_zero (h : string) :
  h <> EmptyString -> all_chars is_digit h = true ->
  tryint (String "0" h) = tryint h.
Proof.
  intros Hne Hd. unfold tryint, int_of_chunk.
  destruct h as [|c h]; [congruence|].
  change (digits_value 0 (String "0" (String c h)))
    with (digits_value 0 (String c h)).
  now destruct (digits_value_some _ Hd 0) as [n ->].
Qed.

Lemma split_digits_digit (in_digits : bool) (acc : string) (c : ascii)
  (s : string) :
  is_digit c = true ->
  split_digits in_digits acc (String c s)
  = if in_digits then split_digits true (acc ++ String c "") s
    else acc :: split_digits true (String c "") s.
Proof. intros H. simpl. now rewrite H. Qed.

(** X6. A zero in front of a number does not change the key: two names
    that differ in the zeros their numbers are padded with (["img01.png"]
    and ["img1.png"]) have the same key, so the sort leaves them in the
    order of the listing. *)
Theorem leading_zero_same_key (p : string) (c : ascii) (r : string) :
  all_chars (fun a => negb (is_digit a)) p = true ->
  is_digit c = true ->
  alphanum_key (p ++ String "0" (String c r))
  = alphanum_key (p ++ String c r) /\
  same_key (p ++ String "0" (String c r)) (p ++ String c r) = true.
Proof.
  intros Hp Hc.
  assert (E : alphanum_key (p ++ String "0" (String c r))
              = alphanum_key (p ++ String c r)).
  { unfold alphanum_key, re_split_digits.
    rewrite !(split_text_prefix p Hp). cbn [append].
    rewrite (@split_digits_digit false p "0" (String c r) eq_refl).
    rewrite (@split_digits_digit true (String "0" "") c r Hc).
    rewrite (@split_digits_digit false p c r Hc).
    rewrite (split_run_prefix r (String "0" "") (String c "")).
    destruct (@split_digits_shape r true (String c "")) as (_ & R & _).
    { split; [discriminate|]. simpl. now rewrite Hc. }
    destruct (split_digits true (String c "") r) as [|h t]; [reflexivity|].
    destruct R as [[Hh Hd] _].
    cbn [map append]. now rewrite (tryint_leading_zero Hh Hd). }
  split; [exact E|].
  unfold same_key. rewrite E. now rewrite (cmp_refl key_compare_order).
Qed.

Lemma leading_zero_same_key_witness :
  alphanum_key "img01.png" = alphanum_key "img1.png" /\
  same_key "img01.png" "img1.png" = true.
Proof.
  apply (@leading_zero_same_key "img" "1" ".png"); reflexivity.
Defined.

(* ================================================================== *)
(** * Frame index and time: closed forms *)
(* ================================================================== *)






(* ================================================================== *)
(** * The model through its methods *)
(* ================================================================== *)

Section MoreFacts.
Context {F : Type} {S : Scalar F} {AA : AlignmentAdapter F}.
Local Abbreviation Model := (MeshPlaneModel F) (only parsing).

Lemma rebuilt_region_spec (m : Model) :
  _region (rebuilt m) = Some (rebuilt_region m).
Proof. reflexivity. Qed.

Lemma collect_images_spec (fs : FileSystem) (location : string)
  (items : list string) :
  forall (images : list string) (m : Model),
    collect_images fs location items images m
    = (collected fs location items images, m).
Proof.
  induction items as [|item rest IH]; intros images m; [reflexivity|].
  cbn [collect_images collected]. unfold bind, lift.
  destruct (imghdr_what fs (path_join location item)) as [b|e];
    [apply IH|reflexivity].
Qed.

(** [_load_images] on a model that has a region with nodes. *)
Lemma load_images_state (fs : FileSystem) (images : list string)
  (m : Model) (r : Region F) :
  _region m = Some r -> node_coordinates r <> [] ->
  _load_images fs images m = (Ok tt, loaded fs images m r).
Proof.
  intros Hr Hne.
  destruct images as [|first rest].
  - rewrite (load_no_images fs m Hr). f_equal.
    destruct m as [fc p rg tk d fx a], r as [rid ns oc [gs vf so]].
    cbn in Hr. subst rg. reflexivity.
  - unfold _load_images. unfold bind at 1. unfold the_region at 1. rewrite Hr.
    unfold bind at 1. unfold modify at 1.
    set (m1 := set_frame_count (Z.of_nat (List.length (first :: rest))) m).
    assert (Hr1 : _region m1 = Some r) by exact Hr.
    unfold loaded, rescaled_nodes, textured.
    destruct (get_image_size fs first) as [width height].
    destruct (negb (width =? -1) || negb (height =? -1))%bool.
    + unfold bind at 1. unfold bind at 1.
      rewrite (getNodeLocations_spec m1 Hr1).
      destruct (node_coordinates r) as [|n0 ns] eqn:Hns; [congruence|].
      cbn [map].
      match goal with
      | |- context [setNodeLocations ?ps m1] =>
          rewrite (setNodeLocations_spec ps m1 Hr1)
      end.
      rewrite Hns.
      replace (List.length (n0 :: ns) <=? _)%nat with true
        by (symmetry; apply Nat.leb_le; cbn [List.length];
            rewrite !length_map; lia).
      unfold update_scene, update_region, the_region, bind, modify.
      cbn [_region set_region]. f_equal.
      rewrite overwrite_enough
        by (cbn [List.length]; rewrite !length_map; lia).
      destruct m as [fc p rg tk d fx a], r as [rid ns' oc [gs vf so]].
      cbn in Hr, Hns. subst rg ns'.
      subst m1.
      unfold set_region, set_frame_count, region_with_scene, region_with_nodes,
        scene_with_graphics.
      cbn [_alignment _region scene graphics node_coordinates region_id
             fm_open_changes visibility_flag scene_open_changes _frame_count
             _parent_region _timekeeper display_image_plane image_plane_fixed].
      do 3 f_equal.
      cbn [List.length firstn map]. f_equal.
      rewrite (map_map _ (rescale width height)), firstn_length_map, map_map.
      reflexivity.
    + unfold bind, ret, update_scene, update_region, the_region, bind, modify.
      cbn [_region set_frame_count m1]. rewrite Hr. reflexivity.
Qed.

(** [setImageInfo] on a location: the images are looked for first; the
    region is rebuilt and the images loaded when the search raised
    nothing. *)
Lemma setImageInfo_found (fs : FileSystem) (location : string) (m : Model) :
  setImageInfo fs (Some location) m
  = match found_images fs location with
    | Ok images => (Ok tt, loaded fs images (rebuilt m) (rebuilt_region m))
    | Raise e => (Raise e, m)
    end.
Proof.
  unfold setImageInfo, found_images. unfold bind at 1.
  destruct (isdir fs location).
  - rewrite collect_images_spec.
    destruct (collected fs location (natural_sorted (listdir fs location)) [])
      as [images|e]; [|reflexivity].
    unfold bind at 1. rewrite reset_spec.
    apply load_images_state; [reflexivity|discriminate].
  - destruct (path_exists fs location).
    + unfold bind at 1. unfold lift.
      destruct (imghdr_what fs location) as [b|e]; [|reflexivity].
      unfold ret. unfold bind at 1. rewrite reset_spec.
      apply load_images_state; [reflexivity|discriminate].
    + unfold ret. unfold bind at 1. rewrite reset_spec.
      apply load_images_state; [reflexivity|discriminate].
Qed.

Lemma setNodeLocations_no_region (node_positions : list (vec3 F)) (m : Model) :
  _region m = None ->
  setNodeLocations node_positions m = (Raise AttributeError, m).
Proof.
  intros Hr. unfold setNodeLocations, fm_beginChange, update_region,
    the_region, bind. now rewrite Hr.
Qed.

(** [getPlaneInfo] only reads. *)
Lemma getPlaneInfo_state (m : Model) : snd (getPlaneInfo m) = m.
Proof.
  unfold getPlaneInfo. unfold bind at 1.
  destruct (_region m) as [r|] eqn:Hr.
  - rewrite (getNodeLocations_spec m Hr).
    set (ls := map _ (node_coordinates r)).
    unfold bind, getitem, lift, ret, raise.
    destruct (nth_error ls 1); [|reflexivity].
    destruct (nth_error ls 0); [|reflexivity].
    destruct (nth_error ls 2); [|reflexivity].
    destruct (vectorops.normalize _); [|reflexivity].
    destruct (vectorops.normalize _); reflexivity.
  - now rewrite (getNodeLocations_no_region m Hr).
Qed.

(** X9. Before the first image information is set the model has no
    region: reading or writing the node positions, and asking for the
    plane, raise [AttributeError] (a method called on [None]) and leave
    the model as it was. *)
Theorem no_region_raises (m : Model) (node_positions : list (vec3 F)) :
  _region m = None ->
  getNodeLocations m = (Raise AttributeError, m) /\
  setNodeLocations node_positions m = (Raise AttributeError, m) /\
  getPlaneInfo m = (Raise AttributeError, m).
Proof.
  intros Hr. split; [|split].
  - now apply getNodeLocations_no_region.
  - now apply setNodeLocations_no_region.
  - unfold getPlaneInfo. unfold bind at 1.
    now rewrite (getNodeLocations_no_region m Hr).
Qed.

(** X10. Writing as many positions as there are nodes and reading them
    back returns the positions written, when the alignment maps a stored
    position back to the scene position it came from. *)
Theorem node_locations_round_trip (m : Model) (r : Region F)
  (node_positions : list (vec3 F)) :
  _region m = Some r ->
  List.length node_positions = List.length (node_coordinates r) ->
  (forall a p, _getSceneTransformationFromAdjustedPosition a
                 (_getSceneTransformationToAdjustedPosition a p) = p) ->
  let m' := snd (setNodeLocations node_positions m) in
  fst (setNodeLocations node_positions m) = Ok tt /\
  getNodeLocations m' = (Ok node_positions, m').
Proof.
  intros Hr Hlen Hinv m'. unfold m'.
  rewrite (setNodeLocations_spec node_positions m Hr).
  replace (_ <=? _)%nat with true by (symmetry; apply Nat.leb_le; lia).
  split; [reflexivity|]. cbn [snd].
  erewrite getNodeLocations_spec by reflexivity.
  cbn [node_coordinates region_with_nodes set_region _alignment]. f_equal.
  f_equal.
  rewrite overwrite_enough by lia.
  rewrite <- Hlen, firstn_all, map_map.
  rewrite <- (map_id node_positions) at 2. apply map_ext. intros p. apply Hinv.
Qed.

(** X11. Reading the positions and writing them back leaves the model as
    it was, when the alignment maps a scene position back to the stored
    position it came from. *)
Theorem node_locations_write_back (m : Model) (r : Region F) :
  _region m = Some r ->
  (forall a p, _getSceneTransformationToAdjustedPosition a
                 (_getSceneTransformationFromAdjustedPosition a p) = p) ->
  exists node_positions : list (vec3 F),
    getNodeLocations m = (Ok node_positions, m) /\
    setNodeLocations node_positions m = (Ok tt, m).
Proof.
  intros Hr Hinv.
  exists (map (_getSceneTransformationFromAdjustedPosition (_alignment m))
            (node_coordinates r)).
  split; [exact (getNodeLocations_spec m Hr)|].
  rewrite (setNodeLocations_spec _ m Hr).
  replace (_ <=? _)%nat with true
    by (symmetry; apply Nat.leb_le; rewrite length_map; lia).
  f_equal.
  rewrite overwrite_enough by (rewrite length_map; lia).
  rewrite firstn_length_map, map_map.
  replace (map _ (node_coordinates r)) with (node_coordinates r).
  - rewrite region_with_nodes_same. now apply set_region_same.
  - rewrite <- (map_id (node_coordinates r)) at 1. apply map_ext.
    intros p. symmetry. apply Hinv.
Qed.

Lemma overwrite_length (a : align_state) (ps ns : list (vec3 F)) :
  List.length (overwrite a ps ns) = List.length ns.
Proof.
  revert ps. induction ns as [|n ns IH]; intros [|p ps]; simpl; auto.
Qed.

(** X12. [setNodeLocations] moves nodes and nothing else: whatever the
    positions, and whether it returns or raises, the number of nodes, the
    frame count, the scene with its graphics, the settings, the alignment
    and the regions are as before. *)
Theorem setNodeLocations_moves_only (m : Model)
  (node_positions : list (vec3 F)) :
  let m' := snd (setNodeLocations node_positions m) in
  List.length (stored_nodes m') = List.length (stored_nodes m) /\
  getFrameCount m' = getFrameCount m /\
  _scene m' = _scene m /\
  isDisplayImagePlane m' = isDisplayImagePlane m /\
  isImagePlaneFixed m' = isImagePlaneFixed m /\
  _alignment m' = _alignment m /\
  _parent_region m' = _parent_region m /\
  option_map region_id (_region m') = option_map region_id (_region m).
Proof.
  intros m'. unfold m'.
  destruct (_region m) as [r|] eqn:Hr.
  - rewrite (setNodeLocations_spec node_positions m Hr).
    unfold stored_nodes, _scene. rewrite Hr.
    destruct (_ <=? _)%nat;
      cbn [snd _region set_region region_with_nodes region_fm_change
             node_coordinates option_map scene region_id];
      rewrite overwrite_length; repeat split.
  - rewrite (setNodeLocations_no_region node_positions m Hr).
    cbn [snd]. rewrite Hr. repeat split.
Qed.

End MoreFacts.

Lemma no_region_raises_witness :
  getNodeLocations fresh_model = (Raise AttributeError, fresh_model) /\
  setNodeLocations three_positions fresh_model
  = (Raise AttributeError, fresh_model) /\
  getPlaneInfo fresh_model = (Raise AttributeError, fresh_model).
Proof.
  apply (@no_region_raises float float_scalar (identity_adapter float)
           fresh_model three_positions).
  reflexivity.
Defined.

Lemma node_locations_round_trip_witness :
  fst (setNodeLocations (three_positions ++ [Vec3 1 1 1]%float) reset_model)
  = Ok tt /\
  getNodeLocations
    (snd (setNodeLocations (three_positions ++ [Vec3 1 1 1]%float) reset_model))
  = (Ok (three_positions ++ [Vec3 1 1 1]%float),
     snd (setNodeLocations (three_positions ++ [Vec3 1 1 1]%float) reset_model)).
Proof.
  apply (@node_locations_round_trip float (identity_adapter float)
           reset_model _ (three_positions ++ [Vec3 1 1 1]%float) eq_refl).
  - reflexivity.
  - reflexivity.
Defined.

Lemma node_locations_write_back_witness :
  exists node_positions : list (vec3 float),
    getNodeLocations reset_model = (Ok node_positions, reset_model) /\
    setNodeLocations node_positions reset_model = (Ok tt, reset_model).
Proof.
  apply (@node_locations_write_back float (identity_adapter float)
           reset_model _ eq_refl).
  reflexivity.
Defined.

(* ================================================================== *)
(** * Looking for images and loading them *)
(* ================================================================== *)

Section LoadOutcomes.
Context {F : Type} {S : Scalar F} {AA : AlignmentAdapter F}.
Local Abbreviation Model := (MeshPlaneModel F) (only parsing).

Lemma collected_raises (fs : FileSystem) (location item : string) (e : exn)
  (items : list string) :
  In item items ->
  imghdr_what fs (path_join location item) = Raise e ->
  forall images, exists e', collected fs location items images = Raise e'.
Proof.
  intros Hin He. induction items as [|x items IH]; [contradiction|].
  intros images. cbn [collected].
  destruct (imghdr_what fs (path_join location x)) as [b|e'] eqn:Hx.
  - destruct Hin as [->|Hin]; [congruence|]. now apply IH.
  - now exists e'.
Qed.

(** X13. The images are looked for before anything is rebuilt: when
    [imghdr.what] raises on the location, or on an entry of the directory,
    [setImageInfo] raises and the model, plane and images included, is the
    one it was called on. *)
Theorem setImageInfo_probe_error (fs : FileSystem) (location item : string)
  (e : exn) (m : Model) :
  (isdir fs location = true /\ In item (listdir fs location) /\
   imghdr_what fs (path_join location item) = Raise e) \/
  (isdir fs location = false /\ path_exists fs location = true /\
   imghdr_what fs location = Raise e) ->
  exists e', setImageInfo fs (Some location) m = (Raise e', m).
Proof.
  intros H. rewrite setImageInfo_found. unfold found_images.
  destruct H as [(Hd & Hin & He) | (Hd & Hx & He)]; rewrite Hd.
  - assert (Hin' : In item (natural_sorted (listdir fs location))).
    { apply (Permutation_in _ (natural_sorted_perm _)). exact Hin. }
    destruct (collected_raises fs location item _ Hin' He []) as [e' ->].
    now exists e'.
  - rewrite Hx, He. now exists e.
Qed.


Lemma surface_material_loaded (fs : FileSystem) (images : list string)
  (m : Model) :
  surface_material (loaded fs images (rebuilt m) (rebuilt_region m))
  = Some (match images with [] => Silver | _ => ImageMaterial images end).
Proof. destruct images; reflexivity. Qed.


(** X15. Loading starts from the unit square every time: setting the same
    image information again gives the same plane (nodes, graphics,
    material and frame count), so the rescaling does not accumulate; only
    the region is a new one. *)
Theorem setImageInfo_again (fs : FileSystem) (image_info : option string)
  (m : Model) :
  let first := setImageInfo fs image_info m in
  let second := setImageInfo fs image_info (snd first) in
  fst second = fst first /\ same_plane (snd first) (snd second).
Proof.
  destruct image_info as [location|]; cbv zeta.
  - rewrite (setImageInfo_found fs location m).
    destruct (found_images fs location) as [images|e] eqn:Hf.
    + cbn [fst snd]. rewrite setImageInfo_found, Hf. cbn [fst snd].
      split; [reflexivity|]. repeat split.
    + cbn [fst snd]. rewrite setImageInfo_found, Hf. cbn [fst snd].
      split; [reflexivity|]. repeat split.
  - split; [reflexivity|]. repeat split.
Qed.

(** X16. [setImageInfo] never touches the settings or the alignment: the
    two display flags and the alignment are the same after any call,
    whether it returns or raises (the alignment is not reset with the
    plane). *)
Theorem setImageInfo_keeps_settings (fs : FileSystem)
  (image_info : option string) (m : Model) :
  let m' := snd (setImageInfo fs image_info m) in
  isDisplayImagePlane m' = isDisplayImagePlane m /\
  isImagePlaneFixed m' = isImagePlaneFixed m /\
  _alignment m' = _alignment m.
Proof.
  destruct image_info as [location|]; cbv zeta; [|repeat split].
  rewrite setImageInfo_found.
  destruct (found_images fs location); repeat split.
Qed.

End LoadOutcomes.

Lemma setImageInfo_probe_error_witness :
  exists e',
    setImageInfo unreadable_files (Some "stack"%string) loaded_model
    = (Raise e', loaded_model).
Proof.
  apply (@setImageInfo_probe_error float float_scalar (identity_adapter float)
           unreadable_files "stack" "readme" OSError loaded_model).
  left. split; [reflexivity|]. split; [|reflexivity].
  right. right. left. reflexivity.
Defined.


(* ================================================================== *)
(** * The display mode, and what every sequence of calls keeps *)
(* ================================================================== *)

Section DisplayFacts.
Context {F : Type} {S : Scalar F} {AA : AlignmentAdapter F}.
Local Abbreviation Model := (MeshPlaneModel F) (only parsing).

(** [setImagePlaneFixed] on a model whose scene holds the two graphics. *)
Lemma setImagePlaneFixed_state (state : bool) (m : Model) (r : Region F)
  (lines surfaces : Graphics) :
  _region m = Some r ->
  graphics (scene r) = [lines; surfaces] ->
  gr_name lines = "plane-lines"%string ->
  gr_name surfaces = "plane-surfaces"%string ->
  setImagePlaneFixed state m
  = (Ok tt,
     {| _frame_count := _frame_count m;
        _parent_region := _parent_region m;
        _region :=
          Some {| region_id := region_id r;
                  node_coordinates := node_coordinates r;
                  fm_open_changes := fm_open_changes r;
                  scene :=
                    {| graphics :=
                         [setCoordinateField (mode_field state) lines;
                          setCoordinateField (mode_field state) surfaces];
                       visibility_flag := visibility_flag (scene r);
                       scene_open_changes := scene_open_changes (scene r) |} |};
        _timekeeper := _timekeeper m;
        display_image_plane := display_image_plane m;
        image_plane_fixed := state;
        _alignment :=
          (if state then _updateFixedProjectionField
           else _updateAlignmentValues) (_alignment m) |}).
Proof.
  intros Hr Hg Hl Hs.
  destruct m as [fc p rg tk d fx a], r as [rid ns oc [gs vf so]].
  cbn in Hr, Hg. subst rg gs.
  destruct lines as [lk ln le lc lt lm], surfaces as [sk sn se sc st sm].
  cbn in Hl, Hs. subst ln sn.
  destruct state; reflexivity.
Qed.

(** X17. Once the scene exists, [setImagePlaneFixed] records the mode,
    refreshes the field of that mode and binds both graphics to it: the
    fixed field for [True], the scaled field of the alignment for
    [False]; switching to fixed and back leaves the graphics on the scaled
    field.  The nodes, the frame count, the visibility and the material
    are not touched. *)
Theorem setImagePlaneFixed_binds (state : bool) (m : Model) (r : Region F) :
  _region m = Some r ->
  map gr_name (graphics (scene r)) = ["plane-lines"; "plane-surfaces"]%string ->
  let m' := snd (setImagePlaneFixed state m) in
  fst (setImagePlaneFixed state m) = Ok tt /\
  isImagePlaneFixed m' = state /\
  bound_coordinate_field "plane-surfaces" m' = Some (mode_field state) /\
  bound_coordinate_field "plane-lines" m' = Some (mode_field state) /\
  _alignment m'
  = (if state then _updateFixedProjectionField
     else _updateAlignmentValues) (_alignment m) /\
  bound_coordinate_field "plane-surfaces"
    (snd (setImagePlaneFixed false (snd (setImagePlaneFixed true m))))
  = Some ScaledCoordinateField /\
  stored_nodes m' = stored_nodes m /\
  getFrameCount m' = getFrameCount m /\
  option_map visibility_flag (_scene m') = option_map visibility_flag (_scene m) /\
  surface_material m' = surface_material m.
Proof.
  intros Hr Hn m'. unfold m'.
  destruct (graphics (scene r)) as [|lines [|surfaces [|g gs]]] eqn:Hg;
    try discriminate.
  cbn [map] in Hn. injection Hn as Hl Hs.
  rewrite (setImagePlaneFixed_state state m Hr Hg Hl Hs).
  rewrite (setImagePlaneFixed_state true m Hr Hg Hl Hs).
  cbn [fst snd].
  erewrite (setImagePlaneFixed_state false) by reflexivity || assumption.
  unfold bound_coordinate_field, stored_nodes, surface_material, _scene,
    findGraphicsByName.
  rewrite Hr. cbn [fst snd _region option_map scene graphics find gr_name
                     setCoordinateField node_coordinates visibility_flag
                     getFrameCount _frame_count isImagePlaneFixed
                     image_plane_fixed _alignment gr_coordinate_field
                     gr_material].
  rewrite Hg. cbn [find]. rewrite Hl, Hs. cbn.
  repeat split.
Qed.

End DisplayFacts.

Lemma setImagePlaneFixed_binds_witness :
  fst (setImagePlaneFixed true reset_model) = Ok tt /\
  isImagePlaneFixed (snd (setImagePlaneFixed true reset_model)) = true /\
  bound_coordinate_field "plane-surfaces" (snd (setImagePlaneFixed true reset_model)) = Some (mode_field true) /\
  bound_coordinate_field "plane-lines" (snd (setImagePlaneFixed true reset_model)) = Some (mode_field true) /\
  _alignment (snd (setImagePlaneFixed true reset_model)) = _updateFixedProjectionField (_alignment reset_model) /\
  bound_coordinate_field "plane-surfaces"
    (snd (setImagePlaneFixed false (snd (setImagePlaneFixed true reset_model))))
  = Some ScaledCoordinateField /\
  stored_nodes (snd (setImagePlaneFixed true reset_model)) = stored_nodes reset_model /\
  getFrameCount (snd (setImagePlaneFixed true reset_model)) = getFrameCount reset_model /\
  option_map visibility_flag (_scene (snd (setImagePlaneFixed true reset_model)))
  = option_map visibility_flag (_scene reset_model) /\
  surface_material (snd (setImagePlaneFixed true reset_model)) = surface_material reset_model.
Proof.
  apply (@setImagePlaneFixed_binds float (identity_adapter float)
           true reset_model _ eq_refl).
  reflexivity.
Defined.

Section Invariant.
Context {F : Type} {S : Scalar F} {AA : AlignmentAdapter F}.
Local Abbreviation Model := (MeshPlaneModel F) (only parsing).

Lemma rescaled_nodes_length (fs : FileSystem) (images : list string)
  (a : align_state) (nodes : list (vec3 F)) :
  List.length (rescaled_nodes fs images a nodes) = List.length nodes.
Proof.
  unfold rescaled_nodes. destruct images as [|first rest]; [reflexivity|].
  destruct (get_image_size fs first) as [w h].
  destruct (negb (w =? -1) || negb (h =? -1))%bool; [|reflexivity].
  apply length_map.
Qed.

Lemma invariant_init (parent : ParentRegion) (a : align_state) :
  plane_invariant (List.length (children parent)) (init parent a).
Proof.
  unfold plane_invariant. cbn. repeat split; lia.
Qed.

Lemma invariant_loaded (n0 : nat) (fs : FileSystem) (images : list string)
  (m : Model) :
  plane_invariant n0 m ->
  plane_invariant n0 (loaded fs images (rebuilt m) (rebuilt_region m)).
Proof.
  intros [Hc Hm].
  assert (Hk : (List.length (children (_parent_region (rebuilt m))) <= n0 + 1)%nat).
  { unfold rebuilt. cbn [_parent_region children]. rewrite length_app.
    cbn [List.length].
    destruct (_region m) as [r|].
    - destruct Hm as [Hin _].
      pose proof (remove_length_lt Nat.eq_dec _ _ Hin). lia.
    - destruct Hm as [_ Hl]. lia. }
  unfold plane_invariant.
  rewrite surface_material_loaded.
  cbn [loaded _parent_region _region _frame_count display_image_plane].
  split; [exact Hk|].
  cbn [region_id node_coordinates scene graphics visibility_flag
         scene_open_changes rebuilt_region].
  split.
  { unfold rebuilt. cbn [_parent_region children].
    apply in_or_app. right. now left. }
  split; [now rewrite rescaled_nodes_length|].
  split; [destruct images; reflexivity|].
  split; [destruct images; reflexivity|].
  split; [reflexivity|]. split; [reflexivity|].
  destruct images as [|first rest]; [reflexivity|].
  split; [discriminate|reflexivity].
Qed.

Lemma invariant_setImageInfo (n0 : nat) (fs : FileSystem)
  (image_info : option string) (m : Model) :
  plane_invariant n0 m ->
  plane_invariant n0 (snd (setImageInfo fs image_info m)).
Proof.
  intros H. destruct image_info as [location|]; [|exact H].
  rewrite setImageInfo_found.
  destruct (found_images fs location); [|exact H].
  now apply invariant_loaded.
Qed.

Lemma invariant_setImagePlaneFixed (n0 : nat) (state : bool) (m : Model) :
  plane_invariant n0 m ->
  plane_invariant n0 (snd (setImagePlaneFixed state m)).
Proof.
  intros [Hc Hm]. destruct (_region m) as [r|] eqn:Hr.
  - destruct Hm as (Hin & Hlen & Hn & Hk & Hv & Ho & Hmat).
    destruct (graphics (scene r)) as [|lines [|surfaces [|g gs]]] eqn:Hg;
      try discriminate.
    cbn [map] in Hn. injection Hn as Hl Hs.
    rewrite (setImagePlaneFixed_state state m Hr Hg Hl Hs). cbn [snd].
    unfold plane_invariant, surface_material, _scene, findGraphicsByName in *.
    rewrite Hr in Hmat.
    cbn [_parent_region _region _frame_count display_image_plane region_id
           node_coordinates scene graphics visibility_flag scene_open_changes
           option_map map find gr_name gr_kind setCoordinateField
           gr_material] in *.
    rewrite Hg in Hmat. cbn [find] in Hmat.
    rewrite Hl, Hs in *. cbn in Hmat |- *. cbn in Hk.
    repeat split; try assumption.
  - destruct m as [fc p rg tk d fx a]. cbn in Hr. subst rg.
    unfold plane_invariant in *. cbn in *. split; assumption.
Qed.

Lemma invariant_setImagePlaneVisible (n0 : nat) (state : bool) (m : Model) :
  plane_invariant n0 m ->
  plane_invariant n0 (snd (setImagePlaneVisible state m)).
Proof.
  intros [Hc Hm]. destruct m as [fc p [r|] tk d fx a].
  - destruct r as [rid ns oc [gs vf so]].
    unfold plane_invariant, surface_material, _scene in *. cbn in *.
    destruct Hm as (Hin & Hlen & Hn & Hk & Hv & Ho & Hmat).
    repeat split; assumption.
  - unfold plane_invariant in *. cbn in *. split; assumption.
Qed.

Lemma invariant_setNodeLocations (n0 : nat) (node_positions : list (vec3 F))
  (m : Model) :
  plane_invariant n0 m ->
  plane_invariant n0 (snd (setNodeLocations node_positions m)).
Proof.
  intros [Hc Hm]. destruct (_region m) as [r|] eqn:Hr.
  - rewrite (setNodeLocations_spec node_positions m Hr).
    destruct Hm as (Hin & Hlen & Hn & Hk & Hv & Ho & Hmat).
    unfold plane_invariant, surface_material, _scene in *.
    rewrite Hr in Hmat.
    destruct (_ <=? _)%nat;
      cbn [snd _region set_region _parent_region _frame_count
             display_image_plane region_with_nodes region_fm_change
             region_id node_coordinates scene option_map] in *;
      rewrite overwrite_length; repeat split; assumption.
  - rewrite (setNodeLocations_no_region node_positions m Hr). cbn [snd].
    unfold plane_invariant. rewrite Hr. split; assumption.
Qed.

Lemma invariant_call (n0 : nat) (c : call) (m : Model) :
  plane_invariant n0 m -> plane_invariant n0 (model_after c m).
Proof.
  intros H. destruct c as [fs info|state|state|ps| |]; cbn [model_after].
  - now apply invariant_setImageInfo.
  - now apply invariant_setImagePlaneFixed.
  - now apply invariant_setImagePlaneVisible.
  - now apply invariant_setNodeLocations.
  - destruct (_region m) as [r|] eqn:Hr.
    + now rewrite (getNodeLocations_spec m Hr).
    + now rewrite (getNodeLocations_no_region m Hr).
  - now rewrite getPlaneInfo_state.
Qed.

(** X18. What every sequence of calls keeps.  After any calls of
    [setImageInfo], [setImagePlaneFixed], [setImagePlaneVisible],
    [setNodeLocations], [getNodeLocations] and [getPlaneInfo] on a new
    model, in any order and whether they return or raise: the model has no
    region and no frame, or a region that is a child of the parent, with
    exactly four nodes and the two graphics ["plane-lines"] and
    ["plane-surfaces"]; the visibility of the scene is the display
    setting; the frame count is the number of images of the surface's
    material (none for the silver material); and the parent has at most
    one child more than at construction. *)
Theorem every_call_keeps_the_plane (parent : ParentRegion) (a : align_state)
  (calls : list call) :
  let m := model_after_calls calls (init parent a) in
  plane_invariant (List.length (children parent)) m /\
  0 <= getFrameCount m /\
  (List.length (stored_nodes m) = 0 \/ List.length (stored_nodes m) = 4)%nat.
Proof.
  cbv zeta.
  assert (H : plane_invariant (List.length (children parent))
                (model_after_calls calls (init parent a))).
  { unfold model_after_calls.
    generalize (invariant_init parent a). generalize (init parent a).
    induction calls as [|c calls IH]; intros m Hm; [exact Hm|].
    cbn [fold_left]. apply IH. now apply invariant_call. }
  split; [exact H|].
  destruct H as [_ H]. unfold getFrameCount, stored_nodes.
  destruct (_region _) as [r|].
  - destruct H as (_ & Hlen & _ & _ & _ & _ & Hmat).
    split; [|now right].
    destruct (surface_material _) as [[|images]|]; [lia| |contradiction].
    destruct Hmat as [_ ->]. lia.
  - destruct H as [-> _]. split; [lia|now left].
Qed.

End Invariant.

(* ================================================================== *)
(** * Settings: what [setSettings] applies, and when it fails *)
(* ================================================================== *)

Section SettingsFacts.
Context {F : Type} {S : Scalar F} {AA : AlignmentAdapter F}.
Context {V : Type} {AS : AlignSettings F V}.
Local Abbreviation Model := (MeshPlaneModel F) (only parsing).

(** The two setters of the display never raise. *)
Lemma setImagePlaneVisible_returns (state : bool) (m : Model) :
  fst (setImagePlaneVisible state m) = Ok tt.
Proof. destruct m as [fc p [r|] tk d fx a]; reflexivity. Qed.

Lemma setImagePlaneFixed_returns (state : bool) (m : Model) :
  fst (setImagePlaneFixed state m) = Ok tt.
Proof.
  destruct m as [fc p [[rid ns oc [gs vf so]]|] tk d fx a]; [|reflexivity].
  unfold setImagePlaneFixed, bind, modify, gets, ret, _scene.
  cbn [_region set_image_plane_fixed option_map scene].
  destruct (findGraphicsByName "plane-surfaces" _); [|reflexivity].
  destruct state; reflexivity.
Qed.

Lemma setImagePlaneVisible_flag (state : bool) (m : Model) :
  isDisplayImagePlane (snd (setImagePlaneVisible state m)) = state.
Proof. destruct m as [fc p [r|] tk d fx a]; reflexivity. Qed.

Lemma setImagePlaneFixed_flags (state : bool) (m : Model) :
  isImagePlaneFixed (snd (setImagePlaneFixed state m)) = state /\
  isDisplayImagePlane (snd (setImagePlaneFixed state m))
  = isDisplayImagePlane m.
Proof.
  destruct m as [fc p [[rid ns oc [gs vf so]]|] tk d fx a];
    [|split; reflexivity].
  unfold setImagePlaneFixed, bind, modify, gets, ret, _scene.
  cbn [_region set_image_plane_fixed option_map scene].
  destruct (findGraphicsByName "plane-surfaces" _); [|split; reflexivity].
  destruct state; split; reflexivity.
Qed.

(** A flag that was set is set again by its setter. *)
Lemma setImagePlaneVisible_preset (state : bool) (m : Model) :
  setImagePlaneVisible state (set_display_image_plane state m)
  = setImagePlaneVisible state m.
Proof. destruct m as [fc p [r|] tk d fx a]; reflexivity. Qed.

Lemma setImagePlaneFixed_preset (state : bool) (m : Model) :
  setImagePlaneFixed state (set_image_plane_fixed state m)
  = setImagePlaneFixed state m.
Proof.
  destruct m as [fc p [[rid ns oc [gs vf so]]|] tk d fx a]; [|reflexivity].
  unfold setImagePlaneFixed, bind, modify, gets, ret, _scene.
  cbn [_region set_image_plane_fixed option_map scene].
  destruct (findGraphicsByName "plane-surfaces" _); [|reflexivity].
  destruct state; reflexivity.
Qed.

Lemma setImagePlaneVisible_fixed_commute (display fixed : bool) (m : Model) :
  snd (setImagePlaneVisible display (set_image_plane_fixed fixed m))
  = set_image_plane_fixed fixed (snd (setImagePlaneVisible display m)).
Proof. destruct m as [fc p [r|] tk d fx a]; reflexivity. Qed.

(** The plane both setters leave, in turn. *)
Lemma setSettings_state (s : settings V) (sm : SettingsModel F V)
  (display fixed : bool) :
  s_display_image_plane s = Some display ->
  s_image_plane_fixed s = Some fixed ->
  let p := snd (setImagePlaneFixed fixed
                  (snd (setImagePlaneVisible display (plane sm)))) in
  setSettings s sm
  = (Returned tt,
     with_plane
       match s_alignment s with
       | Some alignment =>
           set_alignment (setAlignSettings alignment (_alignment p)) p
       | None => p
       end (merge_settings s sm)).
Proof.
  intros Hd Hf p. unfold setSettings. rewrite Hd, Hf.
  assert (Ep : plane (merge_settings s sm)
               = set_image_plane_fixed fixed
                   (set_display_image_plane display (plane sm))).
  { unfold merge_settings. now rewrite Hd, Hf. }
  rewrite Ep.
  pose proof (setImagePlaneVisible_returns display
                (set_image_plane_fixed fixed
                   (set_display_image_plane display (plane sm)))) as Rv.
  pose proof (setImagePlaneVisible_fixed_commute display fixed
                (set_display_image_plane display (plane sm))) as Cv.
  rewrite setImagePlaneVisible_preset in Cv.
  destruct (setImagePlaneVisible display
              (set_image_plane_fixed fixed
                 (set_display_image_plane display (plane sm))))
    as [rv pv]. cbn [fst snd] in Rv, Cv. subst rv pv.
  rewrite setImagePlaneFixed_preset.
  pose proof (setImagePlaneFixed_returns fixed
                (snd (setImagePlaneVisible display (plane sm)))) as Rf.
  subst p.
  destruct (setImagePlaneFixed fixed
              (snd (setImagePlaneVisible display (plane sm))))
    as [rf pf].
  cbn [fst snd] in *. subst rf.
  destruct (s_alignment s); reflexivity.
Qed.

(** On a model that has its scene, the two setters in turn leave the
    visibility and the bindings they were given. *)
Lemma setters_on_scene (display fixed : bool) (m : Model) (r : Region F) :
  _region m = Some r ->
  map gr_name (graphics (scene r)) = ["plane-lines"; "plane-surfaces"]%string ->
  let p := snd (setImagePlaneFixed fixed (snd (setImagePlaneVisible display m))) in
  option_map visibility_flag (_scene p) = Some display /\
  bound_coordinate_field "plane-surfaces" p = Some (mode_field fixed) /\
  bound_coordinate_field "plane-lines" p = Some (mode_field fixed).
Proof.
  intros Hr Hn p.
  assert (Hv : exists r',
             _region (snd (setImagePlaneVisible display m)) = Some r' /\
             map gr_name (graphics (scene r'))
             = ["plane-lines"; "plane-surfaces"]%string /\
             visibility_flag (scene r') = display).
  { destruct m as [fc pr rg tk d fx a]. cbn in Hr. subst rg.
    destruct r as [rid ns oc [gs vf so]].
    eexists. split; [reflexivity|]. split; [exact Hn|reflexivity]. }
  destruct Hv as (r' & Hr' & Hn' & Hvis).
  destruct (graphics (scene r')) as [|lines [|surfaces [|g gs]]] eqn:Hg;
    try discriminate.
  cbn [map] in Hn'. injection Hn' as Hl Hs.
  unfold p. rewrite (setImagePlaneFixed_state fixed _ Hr' Hg Hl Hs).
  cbn [snd]. unfold bound_coordinate_field, _scene, findGraphicsByName.
  cbn [_region option_map scene graphics find gr_name setCoordinateField
         visibility_flag gr_coordinate_field].
  rewrite Hl, Hs, Hvis. cbn. repeat split.
Qed.

(** X19. With both flags present [setSettings] never raises, and it is
    the two setters called in turn, then the alignment passed on when the
    mapping has one: afterwards the two settings are the values given, and
    on a model that has its scene the visibility is the display flag and
    both graphics are bound to the field of the mode given (the fixed mode
    is applied here, as it is not when the scene is created). *)
Theorem setSettings_applies (s : settings V) (sm : SettingsModel F V)
  (display fixed : bool) :
  s_display_image_plane s = Some display ->
  s_image_plane_fixed s = Some fixed ->
  let p := snd (setImagePlaneFixed fixed
                  (snd (setImagePlaneVisible display (plane sm)))) in
  let sm' := snd (setSettings s sm) in
  fst (setSettings s sm) = Returned tt /\
  plane sm'
  = match s_alignment s with
    | Some alignment =>
        set_alignment (setAlignSettings alignment (_alignment p)) p
    | None => p
    end /\
  isDisplayImagePlane (plane sm') = display /\
  isImagePlaneFixed (plane sm') = fixed /\
  (forall r, _region (plane sm) = Some r ->
     map gr_name (graphics (scene r)) = ["plane-lines"; "plane-surfaces"]%string ->
     option_map visibility_flag (_scene (plane sm')) = Some display /\
     bound_coordinate_field "plane-surfaces" (plane sm') = Some (mode_field fixed) /\
     bound_coordinate_field "plane-lines" (plane sm') = Some (mode_field fixed)).
Proof.
  intros Hd Hf p sm'.
  unfold sm'. rewrite (setSettings_state s sm Hd Hf).
  cbn [fst snd with_plane plane]. fold p.
  split; [reflexivity|]. split; [reflexivity|].
  assert (Hp : isDisplayImagePlane p = display /\ isImagePlaneFixed p = fixed).
  { unfold p.
    destruct (setImagePlaneFixed_flags fixed
                (snd (setImagePlaneVisible display (plane sm)))) as [H1 H2].
    split; [|exact H1]. rewrite H2. apply setImagePlaneVisible_flag. }
  destruct Hp as [Hpd Hpf].
  split; [destruct (s_alignment s); exact Hpd|].
  split; [destruct (s_alignment s); exact Hpf|].
  intros r Hr Hn.
  pose proof (setters_on_scene display fixed (plane sm) Hr Hn) as Hb.
  fold p in Hb. destruct (s_alignment s); exact Hb.
Qed.

(** X20. A mapping without one of the two flags makes [setSettings] raise
    [KeyError], but only after the mapping was merged into the stored
    settings: without ['display-image-plane'] nothing is applied, yet the
    stored mode and alignment mapping are already the new ones; without
    ['image-plane-fixed'] only the visibility was applied.  In both cases
    the graphics keep their coordinate field and the alignment is not
    passed on. *)
Theorem setSettings_missing_key (s : settings V) (sm : SettingsModel F V) :
  let sm' := snd (setSettings s sm) in
  (s_display_image_plane s = None ->
   fst (setSettings s sm) = Failed (KeyError "display-image-plane") /\
   sm' = merge_settings s sm /\
   isImagePlaneFixed (plane sm')
   = match s_image_plane_fixed s with
     | Some fixed => fixed
     | None => isImagePlaneFixed (plane sm)
     end /\
   _region (plane sm') = _region (plane sm)) /\
  (forall display,
     s_display_image_plane s = Some display -> s_image_plane_fixed s = None ->
     fst (setSettings s sm) = Failed (KeyError "image-plane-fixed") /\
     plane sm' = snd (setImagePlaneVisible display (plane sm)) /\
     bound_coordinate_field "plane-surfaces" (plane sm')
     = bound_coordinate_field "plane-surfaces" (plane sm)) /\
  ((s_display_image_plane s = None \/ s_image_plane_fixed s = None) ->
   _alignment (plane sm') = _alignment (plane sm) /\
   settings_alignment sm'
   = match s_alignment s with
     | Some alignment => alignment
     | None => settings_alignment sm
     end).
Proof.
  intros sm'. unfold sm'. split; [|split].
  - intros Hd. unfold setSettings. rewrite Hd. cbn [fst snd].
    split; [reflexivity|]. split; [reflexivity|].
    unfold merge_settings. rewrite Hd. cbn [plane].
    destruct (s_image_plane_fixed s); split; reflexivity.
  - intros display Hd Hf. unfold setSettings. rewrite Hd, Hf.
    assert (Ep : plane (merge_settings s sm)
                 = set_display_image_plane display (plane sm)).
    { unfold merge_settings. now rewrite Hd, Hf. }
    rewrite Ep, setImagePlaneVisible_preset.
    pose proof (setImagePlaneVisible_returns display (plane sm)) as Rv.
    destruct (setImagePlaneVisible display (plane sm)) as [rv pv] eqn:Ev.
    cbn [fst] in Rv. subst rv. cbn [fst snd with_plane plane].
    split; [reflexivity|]. split; [reflexivity|].
    replace pv with (snd (setImagePlaneVisible display (plane sm)))
      by now rewrite Ev.
    destruct (plane sm) as [fc p [[rid ns oc [gs vf so]]|] tk d fx a];
      reflexivity.
  - intros H. unfold setSettings.
    destruct (s_display_image_plane s) as [display|] eqn:Hd.
    + destruct H as [H|Hf]; [discriminate|]. rewrite Hf.
      assert (Ep : plane (merge_settings s sm)
                   = set_display_image_plane display (plane sm)).
      { unfold merge_settings. now rewrite Hd, Hf. }
      rewrite Ep, setImagePlaneVisible_preset.
      pose proof (setImagePlaneVisible_returns display (plane sm)) as Rv.
      destruct (setImagePlaneVisible display (plane sm)) as [rv pv] eqn:Ev.
      cbn [fst] in Rv. subst rv.
      cbn [fst snd with_plane plane settings_alignment merge_settings].
      split; [|reflexivity].
      replace pv with (snd (setImagePlaneVisible display (plane sm)))
        by now rewrite Ev.
      destruct (plane sm) as [fc p [r|] tk d fx a]; reflexivity.
    + cbn [snd]. unfold merge_settings. rewrite Hd.
      cbn [plane settings_alignment].
      destruct (s_image_plane_fixed s); split; reflexivity.
Qed.

(** X21. Giving the model back the settings it returned never raises
    and applies them: the two flags are kept, the alignment is given the
    merged mapping, and on a model that has its scene the visibility is
    the display flag and both graphics are bound to the field of the
    recorded mode, also when that mode was recorded before the scene
    existed. *)
Theorem settings_round_trip (sm : SettingsModel F V) :
  let saved := fst (getSettings sm) in
  let sm' := snd (setSettings saved (snd (getSettings sm))) in
  fst (setSettings saved (snd (getSettings sm))) = Returned tt /\
  isDisplayImagePlane (plane sm') = isDisplayImagePlane (plane sm) /\
  isImagePlaneFixed (plane sm') = isImagePlaneFixed (plane sm) /\
  settings_alignment sm'
  = dict_update (settings_alignment sm)
      (getAlignSettings (_alignment (plane sm))) /\
  (forall r, _region (plane sm) = Some r ->
     map gr_name (graphics (scene r)) = ["plane-lines"; "plane-surfaces"]%string ->
     option_map visibility_flag (_scene (plane sm'))
     = Some (isDisplayImagePlane (plane sm)) /\
     bound_coordinate_field "plane-surfaces" (plane sm')
     = Some (mode_field (isImagePlaneFixed (plane sm))) /\
     bound_coordinate_field "plane-lines" (plane sm')
     = Some (mode_field (isImagePlaneFixed (plane sm)))).
Proof.
  cbv zeta.
  set (saved := fst (getSettings sm)). set (sm1 := snd (getSettings sm)).
  assert (Hd : s_display_image_plane saved
               = Some (isDisplayImagePlane (plane sm))) by reflexivity.
  assert (Hf : s_image_plane_fixed saved
               = Some (isImagePlaneFixed (plane sm))) by reflexivity.
  rewrite (setSettings_state saved sm1 Hd Hf).
  cbn [fst snd with_plane plane settings_alignment].
  change (plane sm1) with (plane sm).
  set (p := snd (setImagePlaneFixed (isImagePlaneFixed (plane sm))
                   (snd (setImagePlaneVisible (isDisplayImagePlane (plane sm))
                           (plane sm))))).
  assert (Hp : isDisplayImagePlane p = isDisplayImagePlane (plane sm) /\
               isImagePlaneFixed p = isImagePlaneFixed (plane sm)).
  { unfold p.
    destruct (setImagePlaneFixed_flags (isImagePlaneFixed (plane sm))
                (snd (setImagePlaneVisible (isDisplayImagePlane (plane sm))
                        (plane sm)))) as [H1 H2].
    split; [|exact H1]. rewrite H2. apply setImagePlaneVisible_flag. }
  destruct Hp as [Hpd Hpf].
  split; [reflexivity|].
  change (s_alignment saved)
    with (Some (dict_update (settings_alignment sm)
                  (getAlignSettings (_alignment (plane sm))))).
  cbv iota.
  split; [exact Hpd|]. split; [exact Hpf|]. split; [reflexivity|].
  intros r Hr Hn.
  exact (setters_on_scene (isDisplayImagePlane (plane sm))
           (isImagePlaneFixed (plane sm)) (plane sm) Hr Hn).
Qed.

End SettingsFacts.

Lemma setSettings_applies_witness :
  fst (setSettings (AS := no_align_settings) hidden_fixed_settings
         reset_settings_model) = Returned tt /\
  plane (snd (setSettings (AS := no_align_settings) hidden_fixed_settings
                reset_settings_model))
  = snd (setImagePlaneFixed true
           (snd (setImagePlaneVisible false reset_model))) /\
  isDisplayImagePlane
    (plane (snd (setSettings (AS := no_align_settings) hidden_fixed_settings
                   reset_settings_model))) = false /\
  isImagePlaneFixed
    (plane (snd (setSettings (AS := no_align_settings) hidden_fixed_settings
                   reset_settings_model))) = true /\
  (forall r, _region reset_model = Some r ->
     map gr_name (graphics (scene r)) = ["plane-lines"; "plane-surfaces"]%string ->
     option_map visibility_flag
       (_scene (plane (snd (setSettings (AS := no_align_settings)
                              hidden_fixed_settings reset_settings_model))))
     = Some false /\
     bound_coordinate_field "plane-surfaces"
       (plane (snd (setSettings (AS := no_align_settings)
                      hidden_fixed_settings reset_settings_model)))
     = Some FixedCoordinateField /\
     bound_coordinate_field "plane-lines"
       (plane (snd (setSettings (AS := no_align_settings)
                      hidden_fixed_settings reset_settings_model)))
     = Some FixedCoordinateField).
Proof.
  apply (@setSettings_applies float (identity_adapter float) Z
           no_align_settings hidden_fixed_settings reset_settings_model
           false true eq_refl eq_refl).
Defined.

(* ================================================================== *)
(** * binary64: the accuracy of the time, and times near a frame *)
(* ================================================================== *)

Unset Implicit Arguments.

Lemma rel_factor (c r V : R) :
  (0 <= c)%R -> (Rabs (r - V) <= c * Rabs V)%R ->
  exists x, near1 c x /\ r = (V * x)%R.
Proof.
  unfold near1. intros Hc H.
  destruct (Req_dec V 0) as [->|HV].
  - exists 1%R. split.
    + replace (1 - 1)%R with 0%R by ring. now rewrite Rabs_R0.
    + rewrite Rabs_R0, Rmult_0_r, Rminus_0_r in H.
      pose proof (Rabs_pos r). assert (Rabs r = 0%R) by lra.
      destruct (Req_dec r 0) as [->|N]; [ring|].
      apply Rabs_no_R0 in N. contradiction.
  - exists (r / V)%R. split; [|field; exact HV].
    replace (r / V - 1)%R with ((r - V) * / V)%R by (field; exact HV).
    rewrite Rabs_mult, Rabs_inv.
    pose proof (Rabs_pos_lt V HV) as P.
    apply (Rmult_le_reg_r (Rabs V)); [exact P|].
    rewrite Rmult_assoc, Rinv_l by lra. lra.
Qed.

Lemma pw_m51 : pw (- (51)) = (2 * E52)%R.
Proof.
  replace (- (51)) with (1 + -52) by lia.
  now rewrite pw_add, pw_1, pw_m52.
Qed.

Lemma pw_m48 : pw (-48) = (16 * E52)%R.
Proof.
  replace (-48) with (4 + -52) by lia.
  rewrite pw_add, pw_m52, (pw_IZR 4) by lia. reflexivity.
Qed.

(** The frame separation, with its error. *)
Lemma separation_facts (n : Z) :
  0 < n <= 2 ^ 31 ->
  exists (s : float) (xs : R),
    PyFloat.int_truediv 1 n = Ok s /\ rng (-33) 1 s /\
    near1 (2 * E52) xs /\ B2R s = (/ IZR n * xs)%R.
Proof.
  intros Hn.
  destruct (frame_separation_rng n Hn) as (s & Es & Rs).
  destruct (int_truediv_spec 1 n) as (s' & Es' & _ & C); try lia.
  rewrite Es in Es'. injection Es' as <-.
  assert (Pn : (0 < IZR n)%R) by (apply IZR_lt; lia).
  assert (Pv : (0 < 1 / IZR n)%R).
  { unfold Rdiv. rewrite Rmult_1_l. now apply Rinv_0_lt_compat. }
  rewrite pw_m51 in C. rewrite <- (Rabs_pos_eq (1 / IZR n)) in C at 2 by lra.
  destruct (rel_factor (2 * E52) _ _ ltac:(unfold E52; lra) C) as (xs & Nx & Ex).
  exists s, xs. repeat split; try assumption; try apply Rs.
  rewrite Ex. field. lra.
Qed.

(** The duration, with its error. *)
Lemma duration_facts (n : Z) (fps : pynum) :
  0 < n <= 2 ^ 31 -> rate_in_range fps = true ->
  exists (d : float) (xd : R),
    PyNum.truediv (PyInt n) fps = Ok (PyFloat d) /\ rng (-900) 900 d /\
    near1 (4 * E52) xd /\ B2R d = (IZR n / rate_value fps * xd)%R /\
    (0 < rate_value fps)%R.
Proof.
  intros Hn Hr.
  assert (Pn : (0 < IZR n)%R) by (apply IZR_lt; lia).
  assert (He : E52 = (/ 4503599627370496)%R) by reflexivity.
  destruct fps as [f|f]; cbn [rate_in_range] in Hr;
    apply andb_prop in Hr; destruct Hr as [L U]; cbn [rate_value].
  - apply Z.ltb_lt in L. apply Z.leb_le in U.
    destruct (duration_rng n f Hn (conj L U)) as (d & Ed & Rd).
    destruct (int_truediv_spec n f) as (d' & Ed' & _ & C); try lia.
    rewrite Ed in Ed'. injection Ed' as <-.
    assert (Pf : (0 < IZR f)%R) by (apply IZR_lt; lia).
    assert (Pv : (0 < IZR n / IZR f)%R).
    { apply Rmult_lt_0_compat; [lra|]. now apply Rinv_0_lt_compat. }
    rewrite pw_m51 in C.
    rewrite <- (Rabs_pos_eq (IZR n / IZR f)) in C at 2 by lra.
    destruct (rel_factor (2 * E52) _ _ ltac:(lra) C) as (xd & Nx & Ex).
    exists d, xd. repeat split; try assumption; try apply Rd.
    + cbn [PyNum.truediv]. now rewrite Ed.
    + unfold near1 in *. lra.
  - pose proof (float_rate_rng f L U) as Rf.
    pose proof (float_of_frame_count n Hn) as Rn.
    destruct (div_rng (-1) 32 (-800) 800 _ _ Rn Rf) as [Rd Cd]; try lia.
    destruct (of_Z_round_pos n) as [_ Cn]; [lia| |].
    { apply Rle_trans with (pw 31); [apply IZR_le_pw; lia|apply pw_le; lia]. }
    destruct (close_factor _ _ Cn) as (xn & Nn & En).
    destruct (close_factor _ _ Cd) as (x & Nx & Ex).
    pose proof (rng_pos _ _ _ Rf) as Pf.
    exists (PyFloat.of_Z_round n / f)%float, (xn * x)%R.
    split; [|split; [|split; [|split]]].
    + apply truediv_int_float; [|apply Rf].
      split; [lia|]. apply Z.le_trans with (2 ^ 31); [lia|].
      apply Z.pow_le_mono_r; lia.
    + apply (rng_weaken _ _ _ _ _ Rd); lia.
    + apply (near1_mul _ _ _ _ _ Nn Nx). rewrite He. lra.
    + rewrite Ex, En. field. lra.
    + exact Pf.
Qed.

(** The time of a frame, step by step. *)
Lemma time_steps (n i : Z) (fps : pynum) (s d : float) :
  0 <= i <= 2 ^ 31 ->
  PyNum.truediv (PyInt n) fps = Ok (PyFloat d) ->
  PyFloat.int_truediv 1 n = Ok s ->
  getTimeForFrameIndex (A := python_arith) n (PyInt i) fps
  = Ok (PyFloat ((PyFloat.of_Z_round i * s + s / PyFloat.of_Z_round 2) * d)).
Proof.
  intros Hi Ed Es.
  unfold getTimeForFrameIndex.
  cbn [truediv mul add sub of_int lit_half to_int python_arith].
  rewrite Ed. cbn [rbind].
  change (PyNum.truediv (PyInt 1) (PyInt n))
    with (rbind (PyFloat.int_truediv 1 n) (fun f => Ok (PyFloat f))).
  rewrite Es. cbn [rbind].
  rewrite truediv_float_int by (split; [lia|vm_compute; discriminate]).
  cbn [rbind].
  rewrite mul_int_float by (split; [lia|]; apply Z.le_trans with (2 ^ 31);
    [lia|apply Z.pow_le_mono_r; lia]).
  reflexivity.
Qed.

Local Open Scope R_scope.

Lemma time_value (i n Fr S Dv Two O FI A B T xs xd : R) :
  0 < n -> 0 < Fr -> 0 <= i <= 2147483648 ->
  near1 (2 * E52) xs -> S = / n * xs ->
  near1 (4 * E52) xd -> Dv = n / Fr * xd ->
  close Two 2 -> close O (S / Two) -> close FI i -> close A (FI * S) ->
  close B (A + O) -> close T (B * Dv) ->
  Rabs (T - (i + / 2) / Fr) <= 16 * E52 * ((i + / 2) / Fr).
Proof.
  intros Hn Hf Hi Ns -> Nd -> H0 H1 H2 H3 H4 H5.
  assert (He : E52 = / 4503599627370496) by reflexivity.
  destruct (close_factor _ _ H0) as (x0 & N0 & ->).
  destruct (close_factor _ _ H1) as (x1 & N1 & ->).
  destruct (close_factor _ _ H2) as (x2 & N2 & ->).
  destruct (close_factor _ _ H3) as (x3 & N3 & ->).
  destruct (close_factor _ _ H4) as (x4 & N4 & ->).
  destruct (close_factor _ _ H5) as (x5 & N5 & ->).
  pose proof (near1_bounds _ _ N0) as [L0 U0].
  assert (X0 : x0 <> 0) by (rewrite He in *; lra).
  assert (Hy : near1 (2 * E52) (/ x0)) by (apply (near1_inv _ _ _ N0); lra).
  assert (Hh : near1 (4 * E52) (x1 * / x0)).
  { apply (near1_mul _ _ _ _ _ N1 Hy). rewrite He. lra. }
  assert (Hw : near1 (3 * E52) (x2 * x3)).
  { apply (near1_mul _ _ _ _ _ N2 N3). rewrite He. lra. }
  set (h := x1 * / x0) in *. set (w := x2 * x3) in *.
  set (V := (i + / 2) / Fr).
  assert (PV : 0 < V).
  { unfold V. apply Rmult_lt_0_compat; [lra|]. now apply Rinv_0_lt_compat. }
  set (g := (i * w + h / 2) / (i + / 2)).
  assert (Hg : near1 (4 * E52) g).
  { unfold near1, g.
    replace ((i * w + h / 2) / (i + / 2) - 1)
      with ((i * (w - 1) + (h - 1) / 2) * / (i + / 2)) by (field; lra).
    rewrite Rabs_mult, Rabs_inv, (Rabs_pos_eq (i + / 2)) by lra.
    apply (Rmult_le_reg_r (i + / 2)); [lra|].
    rewrite Rmult_assoc, Rinv_l, Rmult_1_r by lra.
    eapply Rle_trans; [apply Rabs_triang|].
    rewrite Rabs_mult, (Rabs_pos_eq i) by lra.
    unfold near1 in Hw, Hh.
    assert (i * Rabs (w - 1) <= i * (3 * E52))
      by (apply Rmult_le_compat_l; lra).
    assert (Rabs ((h - 1) / 2) <= 2 * E52).
    { unfold Rdiv. rewrite Rabs_mult, (Rabs_pos_eq (/ 2)) by lra. lra. }
    assert (0 <= i * E52) by (apply Rmult_le_pos; [lra|rewrite He; lra]).
    lra. }
  assert (H1' : near1 (7 * E52) (xs * xd)).
  { apply (near1_mul _ _ _ _ _ Ns Nd). rewrite He. lra. }
  assert (H2' : near1 (9 * E52) (xs * xd * x4)).
  { apply (near1_mul _ _ _ _ _ H1' N4). rewrite He. lra. }
  assert (H3' : near1 (11 * E52) (xs * xd * x4 * x5)).
  { apply (near1_mul _ _ _ _ _ H2' N5). rewrite He. lra. }
  assert (H4' : near1 (16 * E52) (xs * xd * x4 * x5 * g)).
  { apply (near1_mul _ _ _ _ _ H3' Hg). rewrite He. lra. }
  replace ((i * x2 * (/ n * xs) * x3 + / n * xs / (2 * x0) * x1) * x4
           * (n / Fr * xd) * x5)
    with (V * (xs * xd * x4 * x5 * g))
    by (unfold V, g, h, w; field; repeat split; lra).
  replace (V * (xs * xd * x4 * x5 * g) - V)
    with (V * (xs * xd * x4 * x5 * g - 1)) by ring.
  rewrite Rabs_mult, (Rabs_pos_eq V) by lra.
  rewrite (Rmult_comm (16 * E52) V).
  apply Rmult_le_compat_l; [lra|exact H4'].
Qed.

Local Close Scope R_scope.

Set Implicit Arguments.

(** X22. In binary64 the time [getTimeForFrameIndex] returns is the
    middle of the frame, [(i + 1/2) / frames_per_second], up to a relative
    error of [2^-48], for every frame count up to [2^31], every valid
    index and every rate in range: the six roundings of the computation
    cost less than four of the 52 bits of the result. *)
Theorem time_is_frame_middle (n i : Z) (fps : pynum) :
  0 < n <= 2 ^ 31 -> 0 <= i < n -> rate_in_range fps = true ->
  exists t : float,
    getTimeForFrameIndex (A := python_arith) n (PyInt i) fps
    = Ok (PyFloat t) /\
    (Rabs (B2R t - (IZR i + / 2) / rate_value fps)
     <= pw (-48) * ((IZR i + / 2) / rate_value fps))%R.
Proof.
  intros Hn Hi Hr.
  destruct (separation_facts n Hn) as (s & xs & Es & Rs & Ns & Vs).
  destruct (duration_facts n fps Hn Hr) as (d & xd & Ed & Rd & Nd & Vd & Pf).
  assert (Hi' : 0 <= i <= 2 ^ 31) by lia.
  eexists. split; [exact (time_steps n i fps s d Hi' Ed Es)|].
  pose proof two_rng as R2. pose proof two_close as C2.
  destruct (div_rng (-33) 1 0 2 s _ Rs R2) as [Ro Co]; try lia.
  change (rng (-36) 2 (s / PyFloat.of_Z_round 2)) in Ro.
  destruct (index_float i s _ Hi' Rs Ro) as (Ci & Ca & Cb & Rb).
  destruct (mul_rng (-37) 37 (-900) 900 _ d Rb Rd) as [_ Ct]; try lia.
  rewrite pw_m48.
  apply (time_value (IZR i) (IZR n) (rate_value fps) (B2R s) (B2R d)
           (B2R (PyFloat.of_Z_round 2)) (B2R (s / PyFloat.of_Z_round 2))
           (B2R (PyFloat.of_Z_round i))
           (B2R (PyFloat.of_Z_round i * s))
           (B2R (PyFloat.of_Z_round i * s + s / PyFloat.of_Z_round 2))
           _ xs xd); try assumption.
  - apply IZR_lt. lia.
  - split; [apply IZR_le; lia|].
    change 2147483648%R with (IZR (2 ^ 31)). apply IZR_le. lia.
Qed.

Lemma time_is_frame_middle_witness :
  exists t : float,
    getTimeForFrameIndex (A := python_arith) 12 (PyInt 5) (PyInt 24)
    = Ok (PyFloat t) /\
    (Rabs (B2R t - (IZR 5 + / 2) / rate_value (PyInt 24))
     <= pw (-48) * ((IZR 5 + / 2) / rate_value (PyInt 24)))%R.
Proof.
  apply (@time_is_frame_middle 12 5 (PyInt 24)); [lia|lia|reflexivity].
Defined.

Unset Implicit Arguments.

(** ** Times near the middle of a frame *)

(** A float of a value in the normal range is a normal number. *)
Lemma positive_float_normal (x : float) :
  (pw (-1000) <= B2R x)%R -> fnormal x.
Proof.
  pose proof (Prim2SF_valid x) as V. pose proof (pw_pos (-1000)) as P.
  unfold B2R, fnormal. destruct (Prim2SF x) as [| | |s m e];
    cbn [SF2R]; try lra.
  intros H. pose proof (F2R_pos m e) as Pm.
  destruct s; cbn [sgn] in H; [lra|]. rewrite Rmult_1_l in H.
  unfold valid_binary, SpecFloat.valid_binary, SpecFloat.bounded,
    SpecFloat.canonical_mantissa in V.
  apply andb_prop in V. destruct V as [V1 V2].
  apply Z.eqb_eq in V1. apply Z.leb_le in V2.
  pose proof (F2R_digits m e) as [_ U].
  assert (-1000 < Zpos (digits2_pos m) + e) by (apply pw_lt_inv; lra).
  unfold fexp, emin, prec, emax in *. cbn [sf_normal]. lia.
Qed.

Lemma rate_bounds (fps : pynum) :
  rate_in_range fps = true ->
  (pw (-800) <= rate_value fps <= pw 800)%R.
Proof.
  intros Hr. destruct fps as [f|f]; cbn [rate_in_range] in Hr;
    apply andb_prop in Hr; destruct Hr as [L U]; cbn [rate_value].
  - apply Z.ltb_lt in L. apply Z.leb_le in U.
    assert (1 <= IZR f)%R by (apply IZR_le; lia).
    assert (IZR f <= pw 62)%R by (apply IZR_le_pw; lia).
    pose proof (pw_le (-800) 0 ltac:(lia)). rewrite pw_0 in *.
    pose proof (pw_le 62 800 ltac:(lia)). lra.
  - apply (float_rate_rng f L U).
Qed.

Local Open Scope R_scope.

Lemma backward_error_near (i y Y x7 x8 x9 : R) :
  0 <= i <= 2147483648 ->
  i - / 4 <= y <= i + / 4 ->
  Rabs (Y - y) <= / 131072 ->
  near1 E52 x7 -> near1 E52 x8 -> near1 E52 x9 ->
  i <= (Y * x7 * x8 + / 2) * x9 < i + 1.
Proof.
  intros Hi Hy HY H7 H8 H9.
  assert (He : E52 = / 4503599627370496) by reflexivity.
  assert (Hq : near1 (3 * E52) (x7 * x8)).
  { apply (near1_mul _ _ _ _ _ H7 H8). rewrite He. lra. }
  set (Q := x7 * x8) in *.
  assert (LY : y - / 131072 <= Y <= y + / 131072).
  { revert HY. unfold Rabs. destruct Rcase_abs; lra. }
  assert (AY : Rabs Y <= 2147483649).
  { unfold Rabs. destruct Rcase_abs; lra. }
  assert (HX : Rabs (Y * Q - Y) <= 2147483649 * (3 * E52)).
  { replace (Y * Q - Y) with (Y * (Q - 1)) by ring. rewrite Rabs_mult.
    apply Rmult_le_compat; try apply Rabs_pos; [exact AY|exact Hq]. }
  assert (LX : Y - 2147483649 * (3 * E52) <= Y * Q
               <= Y + 2147483649 * (3 * E52)).
  { revert HX. unfold Rabs. destruct Rcase_abs; lra. }
  set (W := Y * Q + / 2) in *.
  replace (Y * x7 * x8) with (Y * Q) by (unfold Q; ring). fold W.
  assert (LW : 0 <= W <= 2147483649) by (unfold W; rewrite He in *; lra).
  assert (HZ : Rabs (W * x9 - W) <= 2147483649 * E52).
  { replace (W * x9 - W) with (W * (x9 - 1)) by ring. rewrite Rabs_mult.
    rewrite (Rabs_pos_eq W) by lra.
    apply Rmult_le_compat; try apply Rabs_pos; try lra. exact H9. }
  assert (LZ : W - 2147483649 * E52 <= W * x9 <= W + 2147483649 * E52).
  { revert HZ. unfold Rabs. destruct Rcase_abs; lra. }
  unfold W in *. rewrite He in *. lra.
Qed.

Lemma backward_near_real (i y S X B' C Z : R) :
  0 < S -> 0 <= i <= 2147483648 -> i - / 4 <= y <= i + / 4 ->
  Rabs (X - y * S) <= S / 131072 ->
  close B' X -> close C (B' / S) -> close Z (C + / 2) ->
  i <= Z < i + 1.
Proof.
  intros HS Hi Hy HX H7 H8 H9.
  destruct (close_factor _ _ H7) as (x7 & N7 & ->).
  destruct (close_factor _ _ H8) as (x8 & N8 & ->).
  destruct (close_factor _ _ H9) as (x9 & N9 & ->).
  replace (X * x7 / S * x8) with (X / S * x7 * x8) by (field; lra).
  apply (backward_error_near i y); try assumption.
  replace (X / S - y) with ((X - y * S) * / S) by (field; lra).
  rewrite Rabs_mult, Rabs_inv, (Rabs_pos_eq S) by lra.
  apply (Rmult_le_reg_r S); [exact HS|].
  rewrite Rmult_assoc, Rinv_l, Rmult_1_r by lra.
  lra.
Qed.

(** The time divided by the duration, less the offset, in units of the
    frame separation: the time in frames, less a half. *)
Lemma nearby_value (tau n Fr S Dv Two O T A' xs xd : R) :
  0 < n -> 0 < Fr -> 0 <= tau <= 2147483648 - / 4 -> tau = T * Fr ->
  near1 (2 * E52) xs -> S = / n * xs ->
  near1 (4 * E52) xd -> Dv = n / Fr * xd ->
  close Two 2 -> close O (S / Two) -> close A' (T / Dv) ->
  0 < S /\ Rabs ((A' - O) - (tau - / 2) * S) <= S / 131072.
Proof.
  intros Hn Hf Ht -> Ns -> Nd -> H0 H1 H6.
  assert (He : E52 = / 4503599627370496) by reflexivity.
  destruct (close_factor _ _ H0) as (x0 & N0 & ->).
  destruct (close_factor _ _ H1) as (x1 & N1 & ->).
  destruct (close_factor _ _ H6) as (x6 & N6 & ->).
  pose proof (near1_bounds _ _ N0) as [L0 U0].
  pose proof (near1_bounds _ _ Ns) as [Ls Us].
  pose proof (near1_bounds _ _ Nd) as [Ld Ud].
  assert (X0 : x0 <> 0) by (rewrite He in *; lra).
  assert (Xs : 0 < xs) by (rewrite He in *; lra).
  assert (Xd : 0 < xd) by (rewrite He in *; lra).
  assert (PS : 0 < / n * xs).
  { apply Rmult_lt_0_compat; [now apply Rinv_0_lt_compat|exact Xs]. }
  split; [exact PS|].
  assert (Hy : near1 (2 * E52) (/ x0)) by (apply (near1_inv _ _ _ N0); lra).
  assert (Hh : near1 (4 * E52) (x1 * / x0)).
  { apply (near1_mul _ _ _ _ _ N1 Hy). rewrite He. lra. }
  assert (Hsd : near1 (7 * E52) (xs * xd)).
  { apply (near1_mul _ _ _ _ _ Ns Nd). rewrite He. lra. }
  assert (Hi : near1 (14 * E52) (/ (xs * xd))).
  { apply (near1_inv _ _ _ Hsd); rewrite He; lra. }
  assert (Hu : near1 (16 * E52) (x6 * / (xs * xd))).
  { apply (near1_mul _ _ _ _ _ N6 Hi). rewrite He. lra. }
  set (h := x1 * / x0) in *. set (u := x6 * / (xs * xd)) in *.
  replace (T / (n / Fr * xd) * x6 - / n * xs / (2 * x0) * x1
           - (T * Fr - / 2) * (/ n * xs))
    with (/ n * xs * (T * Fr * (u - 1) - (h - 1) / 2))
    by (unfold u, h; field; repeat split; lra).
  rewrite Rabs_mult, (Rabs_pos_eq (/ n * xs)) by lra.
  unfold Rdiv at 2. apply Rmult_le_compat_l; [lra|].
  unfold near1 in Hu, Hh.
  assert (A1 : Rabs (T * Fr * (u - 1)) <= (2147483648 - / 4) * (16 * E52)).
  { rewrite Rabs_mult, (Rabs_pos_eq (T * Fr)) by lra.
    apply Rmult_le_compat; try lra. apply Rabs_pos. }
  assert (A2 : Rabs ((h - 1) / 2) <= 2 * E52).
  { unfold Rdiv. rewrite Rabs_mult, (Rabs_pos_eq (/ 2)) by lra. lra. }
  unfold Rminus at 1.
  eapply Rle_trans; [apply Rabs_triang|]. rewrite Rabs_Ropp.
  rewrite He in *. lra.
Qed.

Local Close Scope R_scope.

(** The way back from a quotient [a'] of time and duration. *)
Lemma index_floats (i : Z) (y : R) (s o a' : float) :
  0 <= i <= 2 ^ 31 -> (IZR i - / 4 <= y <= IZR i + / 4)%R ->
  rng (-33) 1 s -> rng (-36) 2 o -> rng (-39) 39 a' ->
  (Rabs ((B2R a' - B2R o) - y * B2R s) <= B2R s / 131072)%R ->
  let z := ((a' - o) / s + 0.5)%float in
  ffinite z /\ (IZR i <= B2R z < IZR i + 1)%R.
Proof.
  intros Hi Hy Hs Ro Ra' Hfw z.
  assert (Ri : (0 <= IZR i <= 2147483648)%R).
  { split; [apply IZR_le; lia|].
    change 2147483648%R with (IZR (2 ^ 31)). apply IZR_le. lia. }
  pose proof (rng_pos _ _ _ Hs) as PS.
  destruct Hs as [Ns [Ls Us]]. destruct Ro as [No [Lo Uo]].
  destruct Ra' as [Na' [La' Ua']].
  pose proof (pw_pos (-36)) as P36. pose proof (pw_pos (-39)) as P39'.
  pose proof (pw_pos (-33)) as P33.
  destruct (sub_normal a' o Na' No) as [Fb' Cb'].
  { rewrite Rabs_pos_eq by lra.
    pose proof (pw_le (-960) (-39) ltac:(lia)).
    pose proof (pw_le 39 900 ltac:(lia)). lra. }
  { rewrite Rabs_pos_eq by lra.
    pose proof (pw_le (-960) (-36) ltac:(lia)).
    pose proof (pw_le 2 900 ltac:(lia)). lra. }
  set (b' := (a' - o)%float) in *.
  assert (Hz : ffinite z /\ close (B2R ((b' / s)%float)) (B2R b' / B2R s)
               /\ close (B2R z) (B2R ((b' / s)%float) + / 2)).
  { destruct Fb' as [Zb'|Nb'].
    - assert (Zc : fzero (b' / s)) by (now apply div_zero_l).
      rewrite (fzero_B2R _ Zc), (fzero_B2R _ Zb').
      unfold Rdiv. rewrite Rmult_0_l.
      destruct (half_close (b' / s)%float 0%R Zc eq_refl) as [Fz Cz].
      repeat split; [exact Fz|apply close_refl|exact Cz].
    - pose proof (fnormal_B2R_nonzero _ Nb') as NZ.
      assert (HX : (pw (-92) <= Rabs (B2R a' - B2R o))%R).
      { destruct (grid_difference a' o (-92) Na' No) as [E0|G].
        - rewrite Rabs_pos_eq by lra.
          apply Rle_trans with (pw (-39)); [apply pw_le; lia|lra].
        - rewrite Rabs_pos_eq by lra.
          apply Rle_trans with (pw (-36)); [apply pw_le; lia|lra].
        - exfalso. apply NZ. rewrite E0 in Cb'.
          unfold close in Cb'. rewrite Rabs_R0, Rmult_0_r, Rminus_0_r in Cb'.
          pose proof (Rabs_pos (B2R b')).
          destruct (Req_dec (B2R b') 0) as [|N]; [assumption|].
          apply Rabs_no_R0 in N. lra.
        - exact G. }
      assert (HU : (Rabs (B2R a' - B2R o) <= pw 33)%R).
      { assert (Ay : (Rabs y <= 2147483649)%R).
        { unfold Rabs. destruct Rcase_abs; lra. }
        assert (Rabs (y * B2R s) <= 2147483649 * pw 1)%R.
        { rewrite Rabs_mult, (Rabs_pos_eq (B2R s)) by lra.
          apply Rmult_le_compat; try lra. apply Rabs_pos. }
        rewrite pw_1 in *.
        assert (pw 33 = 8589934592)%R
          by (rewrite (pw_IZR 33) by lia; reflexivity).
        revert Hfw H. unfold Rabs.
        destruct (Rcase_abs (B2R a' - B2R o - y * B2R s)),
          (Rcase_abs (B2R a' - B2R o)), (Rcase_abs (y * B2R s)); lra. }
      pose proof (close_abs _ _ Cb') as [Lb' Ub'].
      assert (Is : (/ pw 1 <= / B2R s <= / pw (-33))%R).
      { split; apply Rinv_le_contravar; lra. }
      assert (Q : (pw (-94) <= Rabs (B2R b' / B2R s) <= pw 67)%R).
      { unfold Rdiv. rewrite Rabs_mult, Rabs_inv, (Rabs_pos_eq (B2R s)) by lra.
        pose proof (pw_pos (-92)). pose proof (pw_pos 1).
        assert (0 < / pw 1)%R by (apply Rinv_0_lt_compat; lra).
        split.
        - replace (-94) with (-92 - 1 - 1) by lia.
          rewrite pw_sub, pw_half. unfold Rdiv.
          apply Rmult_le_compat; lra.
        - replace 67 with (33 + 1 - -33) by lia.
          rewrite pw_sub, pw_twice. unfold Rdiv.
          apply Rmult_le_compat; try lra; apply Rabs_pos. }
      destruct (div_normal b' s Nb' Ns) as [Nc Cc].
      { pose proof (pw_le (-1000) (-94) ltac:(lia)).
        pose proof (pw_le 67 1000 ltac:(lia)). lra. }
      pose proof (close_abs _ _ Cc) as [Lc Uc].
      destruct (add_normal (b' / s) 0.5 Nc half_normal) as [Fz Cz].
      { pose proof (pw_half (-94)) as E1. replace (-94 - 1) with (-95) in E1 by lia.
        pose proof (pw_twice 67) as E2. replace (67 + 1) with 68 in E2 by lia.
        pose proof (pw_le (-960) (-95) ltac:(lia)).
        pose proof (pw_le 68 900 ltac:(lia)). lra. }
      { rewrite half_value, Rabs_pos_eq by lra. rewrite <- pw_m1.
        split; apply pw_le; lia. }
      rewrite half_value in Cz.
      repeat split; assumption. }
  destruct Hz as (Fz & Cc & Cz). split; [exact Fz|].
  apply (backward_near_real (IZR i) y (B2R s) (B2R a' - B2R o) (B2R b')
           (B2R (b' / s)%float) (B2R z)); assumption.
Qed.

(** The frame of a time, step by step. *)
Lemma frame_steps (n : Z) (fps : pynum) (t s d : float) :
  PyNum.truediv (PyInt n) fps = Ok (PyFloat d) ->
  PyFloat.int_truediv 1 n = Ok s ->
  fnormal s -> fnormal d ->
  getFrameIndexForTime (A := python_arith) n (PyFloat t) fps
  = PyFloat.int_of_float
      ((t / d - s / PyFloat.of_Z_round 2) / s + 0.5)%float.
Proof.
  intros Ed Es Ns Nd.
  unfold getFrameIndexForTime.
  cbn [truediv mul add sub of_int lit_half to_int python_arith].
  rewrite Ed. cbn [rbind].
  change (PyNum.truediv (PyInt 1) (PyInt n))
    with (rbind (PyFloat.int_truediv 1 n) (fun f => Ok (PyFloat f))).
  rewrite Es. cbn [rbind].
  rewrite truediv_float_int by (split; [lia|vm_compute; discriminate]).
  cbn [rbind].
  rewrite (truediv_float_float t d Nd).
  cbn [rbind]. cbn [PyNum.add PyNum.mul PyNum.sub PyNum.binop PyNum.to_float rbind].
  rewrite (truediv_float_float _ s Ns).
  cbn [rbind]. cbn [PyNum.add PyNum.mul PyNum.sub PyNum.binop PyNum.to_float rbind].
  reflexivity.
Qed.

Set Implicit Arguments.

(** X23. In binary64 every time within a quarter of a frame of the
    middle of frame [i], that is from [(i + 1/4) / frames_per_second] to
    [(i + 3/4) / frames_per_second], is mapped to [i] by
    [getFrameIndexForTime], for every frame count up to [2^31], every
    valid index and every rate in range: the index survives an error of
    the time of a quarter of a frame. *)
Theorem frame_of_nearby_time (n i : Z) (fps : pynum) (t : float) :
  0 < n <= 2 ^ 31 -> 0 <= i < n -> rate_in_range fps = true ->
  ((IZR i + / 4) / rate_value fps <= B2R t
   <= (IZR i + 3 / 4) / rate_value fps)%R ->
  getFrameIndexForTime (A := python_arith) n (PyFloat t) fps = Ok i.
Proof.
  intros Hn Hi Hr Ht.
  destruct (separation_facts n Hn) as (s & xs & Es & Rs & Ns & Vs).
  destruct (duration_facts n fps Hn Hr) as (d & xd & Ed & Rd & Nd & Vd & Pf).
  pose proof (rate_bounds fps Hr) as [Lf Uf].
  assert (Hi' : 0 <= i <= 2 ^ 31) by lia.
  assert (Pn : (1 <= IZR n <= 2147483648)%R).
  { split; [apply IZR_le; lia|].
    change 2147483648%R with (IZR (2 ^ 31)). apply IZR_le. lia. }
  assert (Pi : (0 <= IZR i <= 2147483647)%R).
  { split; [apply IZR_le; lia|].
    change 2147483647%R with (IZR (2 ^ 31 - 1)). apply IZR_le. lia. }
  assert (He : E52 = (/ 4503599627370496)%R) by reflexivity.
  set (Fr := rate_value fps) in *.
  set (tau := (B2R t * Fr)%R).
  assert (Htau : (IZR i + / 4 <= tau <= IZR i + 3 / 4)%R).
  { assert (E : forall a : R, (a / Fr * Fr = a)%R) by (intros; field; lra).
    unfold tau. destruct Ht as [L U]. split.
    - apply (Rmult_le_compat_r Fr) in L; [|lra]. rewrite E in L. exact L.
    - apply (Rmult_le_compat_r Fr) in U; [|lra]. rewrite E in U. exact U. }
  rewrite (frame_steps n fps t s d Ed Es (proj1 Rs) (proj1 Rd)).
  pose proof two_rng as R2. pose proof two_close as C2.
  destruct (div_rng (-33) 1 0 2 s _ Rs R2) as [Ro Co]; try lia.
  change (rng (-36) 2 (s / PyFloat.of_Z_round 2)) in Ro.
  (* the time is a normal number *)
  assert (PT : (0 < B2R t)%R).
  { destruct Ht as [L _].
    assert (0 < (IZR i + / 4) / Fr)%R
      by (apply Rmult_lt_0_compat; [lra|apply Rinv_0_lt_compat; lra]).
    lra. }
  assert (Nt : fnormal t).
  { apply positive_float_normal. destruct Ht as [L _].
    assert (/ pw 800 <= / Fr)%R by (apply Rinv_le_contravar; lra).
    pose proof (pw_pos 800). assert (0 < / pw 800)%R by (now apply Rinv_0_lt_compat).
    assert (/ 4 * / pw 800 <= (IZR i + / 4) / Fr)%R
      by (unfold Rdiv; apply Rmult_le_compat; lra).
    assert (pw (-802) = / 4 * / pw 800)%R.
    { replace (-802) with (- (2) + - (800)) by lia.
      rewrite pw_add, !pw_neg, (pw_IZR 2) by lia. reflexivity. }
    pose proof (pw_le (-1000) (-802) ltac:(lia)). lra. }
  (* the time divided by the duration *)
  pose proof (near1_bounds _ _ Nd) as [Ld Ud].
  pose proof (near1_bounds _ _ Ns) as [Ls Us].
  assert (Xd : (0 < xd)%R) by (rewrite He in *; lra).
  assert (Q : (B2R t / B2R d = tau / IZR n * / xd)%R).
  { rewrite Vd. unfold tau. field. repeat split; lra. }
  assert (Ixd : (/ 2 <= / xd <= 2)%R).
  { split.
    - rewrite <- (Rinv_inv 2). apply Rinv_le_contravar; rewrite He in *; lra.
    - replace 2%R with (/ / 2)%R by apply Rinv_inv.
      apply Rinv_le_contravar; rewrite He in *; lra. }
  assert (In : (/ 2147483648 <= / IZR n <= 1)%R).
  { split; [apply Rinv_le_contravar; lra|].
    rewrite <- Rinv_1. apply Rinv_le_contravar; lra. }
  assert (Qr : (pw (-34) <= B2R t / B2R d <= pw 32)%R).
  { rewrite Q. unfold Rdiv.
    assert (pw (-34) = / 4 * / 2147483648 * / 2)%R.
    { change (-34) with (- (34)). rewrite pw_neg, (pw_IZR 34) by lia.
      change (IZR (2 ^ 34)) with 17179869184%R. lra. }
    assert (pw 32 = 2147483648 * 1 * 2)%R.
    { rewrite (pw_IZR 32) by lia. change (IZR (2 ^ 32)) with 4294967296%R. lra. }
    rewrite H, H0.
    assert (M : (/ 4 * / 2147483648 <= tau * / IZR n <= 2147483648 * 1)%R).
    { split; apply Rmult_le_compat; lra. }
    split; apply Rmult_le_compat; lra. }
  destruct (div_normal t d Nt (proj1 Rd)) as [Na' Ca'].
  { pose proof (pw_pos (-34)).
    rewrite Rabs_pos_eq by lra.
    pose proof (pw_le (-1000) (-34) ltac:(lia)).
    pose proof (pw_le 32 1000 ltac:(lia)). lra. }
  assert (Ra' : rng (-39) 39 (t / d)).
  { split; [exact Na'|]. pose proof (pw_pos (-34)).
    pose proof Ca' as C. apply close_pos in C; [|lra].
    pose proof (pw_half (-34)) as E1. replace (-34 - 1) with (-35) in E1 by lia.
    pose proof (pw_twice 32) as E2. replace (32 + 1) with 33 in E2 by lia.
    pose proof (pw_le (-39) (-35) ltac:(lia)).
    pose proof (pw_le 33 39 ltac:(lia)). lra. }
  destruct (nearby_value tau (IZR n) Fr (B2R s) (B2R d)
              (B2R (PyFloat.of_Z_round 2)) (B2R (s / PyFloat.of_Z_round 2))
              (B2R t) (B2R (t / d)) xs xd) as [_ Hfw]; try assumption;
    try reflexivity; try lra.
  destruct (index_floats i (tau - / 2)%R s (s / PyFloat.of_Z_round 2)%float
              (t / d)%float Hi') as [Fz Bz];
    try assumption; try lra.
  apply int_of_float_spec; [exact Fz|lia|exact Bz].
Qed.

Lemma quarter_second_value : B2R 0.234375%float = (15 / 64)%R.
Proof.
  unfold B2R.
  change (Prim2SF 0.234375%float)
    with (S754_finite false 8444249301319680 (- (55))).
  cbn [SF2R sgn]. unfold F2R.
  rewrite pw_neg, (pw_IZR 55) by lia.
  change (IZR (2 ^ 55)) with 36028797018963968%R. lra.
Qed.

Lemma frame_of_nearby_time_witness :
  getFrameIndexForTime (A := python_arith) 12 (PyFloat 0.234375) (PyInt 24)
  = Ok 5.
Proof.
  apply (@frame_of_nearby_time 12 5 (PyInt 24) 0.234375%float);
    [lia|lia|reflexivity|].
  rewrite quarter_second_value. cbn [rate_value]. lra.
Defined.
